(** * hive.indexer.blocks: the block processor of hivemind

    A shallow embedding of [src/hive/indexer/blocks.py] (class [Blocks])
    and the properties of its batch driver, block processor, virtual-op
    preparer, block store and fork recovery; and of the parts of
    [src/hive/indexer/sync.py] (class [SyncHiveDb]) that decide what is
    processed: the range planning of [run], [_periodic_actions] and the
    consumer of massive sync, [_block_consumer].

    Conventions.
    - Python [int] is [Z]; [str] is [string]; a [dict] used as a map is a
      [gmap], and a [dict] whose items are iterated is the list of its
      items in insertion order; a [list] is a [list].
    - A block, a transaction and an operation are records with the fields
      the code subscripts ([block_id], [previous], [timestamp],
      [transactions]; [operations]; [type], [value]).  The payload of an
      operation ([operation['value']]) stays an untyped JSON value, and
      subscripting it can raise.
    - Class attributes of [Blocks] ([blocks_to_flush], [ops_stats],
      [_head_block_date]) are fields of an explicit state, threaded by a
      state-and-exception monad that also records what the code does to
      the outside: calls into the other indexer classes, statements sent
      through [DB], error and warning log lines.
    - The collaborators ([Accounts], [Posts], [Payments], [CustomOp],
      [Votes], [Follow], [PostDataCache], [Tags], the [hived]/[steem]
      client) are not part of this file: they are a handler [ext] over an
      abstract world [W].  They may raise; they do not touch the class
      attributes of [Blocks] nor the [hive_blocks] table.
    - [sync.py] calls a [Blocks.process_multi] of two arguments, which is
      not the one of [blocks.py]; there it is a collaborator like the
      provider, the signal latch, the timer and the statistics managers,
      answered by a handler [sext] over a world [V]. *)

From Stdlib Require Import ZArith Ascii List Bool Lia.
From Stdlib Require String.
From stdpp Require Import base option list strings gmap fin_maps pretty.

From Equations Require Import Equations.

Set Warnings "-register-all".
Local Open Scope Z_scope.

Notation "a == b" := (String.eqb a b) (at level 70, no associativity).

(** ** Python values *)

Inductive json : Type :=
| JNull
| JBool (b : bool)
| JInt (n : Z)
| JStr (s : string)
| JList (l : list json)
| JDict (kvs : list (string * json)).

(** Exceptions (instances of Python's [Exception]). [Failure] stands for
    whatever a collaborator raises. *)
Inductive exn : Type :=
| KeyError (key : string)
| TypeError (msg : string)
| AttributeError (msg : string)
| ValueError (msg : string)
| AssertionError (msg : string)
| Failure (what : string).

Inductive result (A : Type) : Type :=
| Ok (a : A)
| Raise (e : exn).
Arguments Ok {A} a.
Arguments Raise {A} e.

Definition is_ok {A} (r : result A) : bool :=
  match r with Ok _ => true | Raise _ => false end.

Fixpoint assoc (k : string) (kvs : list (string * json)) : option json :=
  match kvs with
  | [] => None
  | (k', v) :: rest => if String.eqb k' k then Some v else assoc k rest
  end.

#[global] Instance result_ret : MRet result := fun A a => Ok a.
#[global] Instance result_bind : MBind result := fun A B f r =>
  match r with
  | Ok a => f a
  | Raise e => Raise e
  end.

(** [for x in l: acc = body(x, acc)] in the exception monad. *)
Fixpoint fold_result {A B} (body : A -> B -> result B) (l : list A) (acc : B)
  : result B :=
  match l with
  | [] => Ok acc
  | x :: rest => acc' ← body x acc; fold_result body rest acc'
  end.

(** [v[k]] for a string key [k]. *)
Definition subscript (v : json) (k : string) : result json :=
  match v with
  | JDict kvs =>
      match assoc k kvs with
      | Some x => Ok x
      | None => Raise (KeyError k)
      end
  | JList _ => Raise (TypeError "list indices must be integers or slices, not str")
  | JStr _ => Raise (TypeError "string indices must be integers")
  | _ => Raise (TypeError "object is not subscriptable")
  end.

(** ** Operation counters: [Blocks.merge_ops_stats] *)

Definition merge_ops_stats (od1 : gmap string Z) (od2 : option (gmap string Z))
  : gmap string Z :=
  match od2 with
  | Some od2 =>
      map_fold (fun k v od1 =>
                  match od1 !! k with
                  | Some c => <[k := c + v]> od1
                  | None => <[k := v]> od1
                  end) od1 od2
  | None => od1
  end.


(** ** Blocks, transactions, operations *)

Record operation := { type : string; value : json }.
Record transaction := { operations : list operation }.
Record block := {
  block_id : string;
  previous : string;
  timestamp : string;
  transactions : list transaction }.

(** A staged header (an element of [blocks_to_flush]) and a row of
    [hive_blocks (num, hash, prev, txs, ops, created_at)]. *)
Record header := {
  h_num : Z;
  h_hash : string;
  h_prev : string;
  h_txs : Z;
  h_ops : Z;
  h_date : string }.

(** ** [int(s, base=16)]

    CPython's parser on an ASCII string: surrounding whitespace is
    skipped, then an optional sign, an optional [0x]/[0X] prefix (which
    one underscore may follow), then hexadecimal digits in which single
    underscores may separate digits.  Anything else is a [ValueError].
    (On non-ASCII input Python also accepts Unicode spaces and decimal
    digits; here every non-ASCII byte is rejected.) *)

Definition hex_digit (c : ascii) : option Z :=
  let n := Z.of_N (N_of_ascii c) in
  if (48 <=? n) && (n <=? 57) then Some (n - 48)
  else if (97 <=? n) && (n <=? 102) then Some (n - 87)
  else if (65 <=? n) && (n <=? 70) then Some (n - 55)
  else None.

(** C's [isspace] in the C locale: tab to carriage return, and space. *)
Definition is_space (c : ascii) : bool :=
  let n := Z.of_N (N_of_ascii c) in
  ((9 <=? n) && (n <=? 13)) || (n =? 32).

Fixpoint skip_spaces (s : string) : string :=
  match s with
  | String c rest => if is_space c then skip_spaces rest else s
  | EmptyString => s
  end.

(** The digit loop: returns the value, the number of digits consumed and
    the unread rest; [None] on a doubled or trailing underscore. *)
Fixpoint hex_run (s : string) (acc : Z) (digits : nat) (prev_underscore : bool)
  : option (Z * nat * string) :=
  match s with
  | String c rest =>
      if Ascii.eqb c "_" then
        if prev_underscore then None else hex_run rest acc digits true
      else
        match hex_digit c with
        | Some d => hex_run rest (16 * acc + d) (S digits) false
        | None => if prev_underscore then None else Some (acc, digits, s)
        end
  | EmptyString => if prev_underscore then None else Some (acc, digits, s)
  end.

Definition skip_sign (s : string) : Z * string :=
  match s with
  | String c rest =>
      if Ascii.eqb c "+" then (1, rest)
      else if Ascii.eqb c "-" then (-1, rest)
      else (1, s)
  | EmptyString => (1, s)
  end.

Definition starts_with (c : ascii) (s : string) : bool :=
  match s with
  | String c' _ => Ascii.eqb c' c
  | EmptyString => false
  end.

Definition skip_prefix (s : string) : string :=
  match s with
  | String c0 (String c1 rest) =>
      if Ascii.eqb c0 "0" && (Ascii.eqb c1 "x" || Ascii.eqb c1 "X") then
        if starts_with "_" rest then String.substring 1 (String.length rest) rest
        else rest
      else s
  | _ => s
  end.

Definition int16 (s : string) : result Z :=
  let invalid := Raise (ValueError "invalid literal for int() with base 16") in
  let '(sign, s1) := skip_sign (skip_spaces s) in
  let s2 := skip_prefix s1 in
  if starts_with "_" s2 then invalid
  else
    match hex_run s2 0 0%nat false with
    | Some (n, digits, rest) =>
        match digits, skip_spaces rest with
        | S _, EmptyString => Ok (sign * n)
        | _, _ => invalid
        end
    | None => invalid
    end.

(** ** Hashable values and [set.add] *)

(** Python's [==] on hashable JSON values ([True == 1], [False == 0]). *)
Definition hashable_eqb (a b : json) : bool :=
  match a, b with
  | JNull, JNull => true
  | JStr s, JStr t => s == t
  | JInt n, JInt m => n =? m
  | JBool x, JBool y => Bool.eqb x y
  | JBool x, JInt n | JInt n, JBool x => (if x then 1 else 0) =? n
  | _, _ => false
  end.

(** A [set] is kept as the list of its elements, without repetition. *)
Definition set_add (x : json) (s : list json) : result (list json) :=
  match x with
  | JList _ => Raise (TypeError "unhashable type: 'list'")
  | JDict _ => Raise (TypeError "unhashable type: 'dict'")
  | _ => Ok (if existsb (hashable_eqb x) s then s else s ++ [x])
  end.

(** [enumerate(l)] *)
Definition enumerate {A} (l : list A) : list (Z * A) :=
  imap (fun i x => (Z.of_nat i, x)) l.

(** ** What the code does to the outside *)

Inductive sqlparam : Type :=
| P_date (date : string)
| P_ids (ids : list Z)
| P_num (num : Z).

(** Calls answered by the collaborators, indexed by what they return.
    A [date] argument is the value of [cls._head_block_date] at the call
    ([None] for Python's [None]).  [DB_query] and [DB_query_col] are the
    statements of [_pop] on tables that the sub-processors own. *)
Inductive extE : Type -> Type :=
| Accounts_register (account_names : list json) (date : option string) : extE unit
| Accounts_dirty (account : json) : extE unit
| Posts_comment_op (op : json) (date : option string) : extE unit
| Posts_delete_op (op : json) : extE unit
| Posts_comment_options_op (op : json) : extE unit
| Payments_op_transfer (op : json) (tx_idx num : Z) (date : option string) : extE unit
| CustomOp_process_ops (json_ops : list json) (num : Z) (date : option string)
  : extE (option (gmap string Z))
| Votes_effective_comment_vote_op (k : string) (v : json) (date : option string)
  : extE unit
| Posts_comment_payout_op (ops : gmap string (list json)) (date : option string)
  : extE (option (gmap string Z))
| PostDataCache_flush : extE unit
| Tags_flush : extE unit
| Votes_flush : extE unit
| Follow_flush (trx : bool) : extE unit
| hived_get_virtual_operations (num : Z) : extE (list operation)
| steem_get_block (num : Z) : extE json
| steem_last_irreversible : extE Z
| DB_query_col (sql : string) (param : sqlparam) : extE (list Z)
| DB_query (sql : string) (param : sqlparam) : extE unit.

(** Statements on [hive_blocks] and transaction control, sent through
    [DB] by [Blocks] itself. *)
Inductive sql : Type :=
| START_TRANSACTION
| COMMIT
| SELECT_head_num
| SELECT_head_date
| SELECT_block (num : Z)
| INSERT_blocks (values : list header)
| DELETE_block (num : Z).

Inductive loglevel : Type := ERROR | WARNING.
Inductive logarg : Type := LInt (n : Z) | LStr (s : string).

(** One observable step.  [log.info] lines (timings, progress) are left
    out; [log.error] and [log.warning] are recorded. *)
Inductive event : Type :=
| Call {R : Type} (c : extE R)
| Query (q : sql)
| Log (level : loglevel) (fmt : string) (args : list logarg).

(** ** The [hive_blocks] table

    Modelled from the spec: the table [blocks(num, hash, prev, txs, ops,
    created_at)] behind [DB], whose schema and adapter are not in the
    sources.  It is the list of its rows, each kept as the values that
    were inserted ([created_at] as the text of the statement).  [num] is
    its primary key (the spec's [num PK]), so an INSERT of a row whose
    [num] the table holds already is rejected, as is an INSERT without
    a tuple; the other statements are accepted. *)

Definition max_num (tbl : list header) : option Z :=
  foldr (fun r acc =>
           match acc with
           | Some m => Some (Z.max (h_num r) m)
           | None => Some (h_num r)
           end) None tbl.

(** [SELECT num, created_at date, hash FROM hive_blocks WHERE num = :num LIMIT 1] *)
Definition select_block (num : Z) (tbl : list header) : option header :=
  List.find (fun r => h_num r =? num) tbl.

(** [DELETE FROM hive_blocks WHERE num = :num] *)
Definition delete_block (num : Z) (tbl : list header) : list header :=
  List.filter (fun r => negb (h_num r =? num)) tbl.

(** Whether [num] is the key of a row of [tbl]. *)
Definition has_num (num : Z) (tbl : list header) : bool :=
  existsb (fun r => h_num r =? num) tbl.

(** The tuples of one INSERT, row after row: a row whose [num] is the
    key of a row of the table, or of a tuple before it, violates the
    primary key. *)
Fixpoint insert_rows (values tbl : list header) : result (list header) :=
  match values with
  | [] => Ok tbl
  | row :: rest =>
      if has_num (h_num row) tbl
      then Raise (Failure "duplicate key value violates unique constraint")
      else insert_rows rest (tbl ++ [row])
  end.

(** [INSERT INTO hive_blocks (num, hash, prev, txs, ops, created_at)
    VALUES] followed by the tuples, joined by commas.  With no tuple the
    statement ends after [VALUES], which is a syntax error.  The result
    is the table after the statement; a rejected statement changes
    nothing. *)
Definition insert_blocks (values tbl : list header) : result (list header) :=
  match values with
  | [] => Raise (Failure "syntax error at end of input")
  | _ :: _ => insert_rows values tbl
  end.

Section Blocks.

(** The world of the collaborators. *)
Variable W : Type.

(** The collaborators: each call is answered from, and may change, the
    world; it returns or raises. *)
Variable ext : forall R, extE R -> W -> result R * W.

(** Python's [repr] of a list or a dict (only reached when an author or a
    permlink of a virtual operation is not a scalar). *)
Variable py_repr : json -> string.

Definition py_str (v : json) : string :=
  match v with
  | JStr s => s
  | JInt n => pretty n
  | JBool true => "True"
  | JBool false => "False"
  | JNull => "None"
  | _ => py_repr v
  end.

(** ["{}/{}".format(a, b)] *)
Definition format_key (a b : json) : string :=
  py_str a +:+ "/" +:+ py_str b.

(** *** State: the class attributes of [Blocks], the table, the world *)

Record state : Type := State {
  blocks_to_flush : list header;
  ops_stats : gmap string Z;
  _head_block_date : option string;
  hive_blocks : list header;
  world : W }.

Definition set_blocks_to_flush (v : list header) (s : state) : state :=
  State v (ops_stats s) (_head_block_date s) (hive_blocks s) (world s).
Definition set_ops_stats (v : gmap string Z) (s : state) : state :=
  State (blocks_to_flush s) v (_head_block_date s) (hive_blocks s) (world s).
Definition set_head_block_date (v : option string) (s : state) : state :=
  State (blocks_to_flush s) (ops_stats s) v (hive_blocks s) (world s).
Definition set_hive_blocks (v : list header) (s : state) : state :=
  State (blocks_to_flush s) (ops_stats s) (_head_block_date s) v (world s).
Definition set_world (v : W) (s : state) : state :=
  State (blocks_to_flush s) (ops_stats s) (_head_block_date s) (hive_blocks s) v.

(** *** The monad: state, exceptions, and the events emitted *)

Record out (A : Type) : Type := Out {
  res : result A;
  post : state;
  evs : list event }.
Arguments Out {A} res post evs.
Arguments res {A} o.
Arguments post {A} o.
Arguments evs {A} o.

Definition M (A : Type) : Type := state -> out A.

Definition ret {A} (a : A) : M A := fun s => Out (Ok a) s [].
Definition raise {A} (e : exn) : M A := fun s => Out (Raise e) s [].
Definition bind {A B} (m : M A) (f : A -> M B) : M B := fun s =>
  let o := m s in
  match res o with
  | Ok a => let o' := f a (post o) in Out (res o') (post o') (evs o ++ evs o')
  | Raise e => Out (Raise e) (post o) (evs o)
  end.

#[global] Instance M_ret : MRet M := @ret.
#[global] Instance M_bind : MBind M := fun A B f m => bind m f.

(** [try: m  except Exception as e: ...] seen from the handler's side:
    the outcome of [m] as a value. *)
Definition try {A} (m : M A) : M (result A) := fun s =>
  let o := m s in Out (Ok (res o)) (post o) (evs o).

Definition lift {A} (r : result A) : M A := fun s => Out r s [].
Definition get {A} (f : state -> A) : M A := fun s => Out (Ok (f s)) s [].
Definition modify (f : state -> state) : M unit := fun s => Out (Ok tt) (f s) [].
Definition emit (e : event) : M unit := fun s => Out (Ok tt) s [e].
Definition log (level : loglevel) (fmt : string) (args : list logarg) : M unit :=
  emit (Log level fmt args).
Definition py_assert (b : bool) (msg : string) : M unit :=
  if b then ret tt else raise (AssertionError msg).

Definition call {R} (c : extE R) : M R := fun s =>
  let '(r, w) := ext R c (world s) in
  Out r (set_world w s) [Call c].

(** [for x in l: body(x)] with the loop's local variables in [acc]. *)
Fixpoint for_fold {A B} (body : A -> B -> M B) (l : list A) (acc : B) : M B :=
  match l with
  | [] => ret acc
  | x :: rest => acc' ← body x acc; for_fold body rest acc'
  end.

Definition for_each {A} (body : A -> M unit) (l : list A) : M unit :=
  for_fold (fun x _ => body x) l tt.

(** *** [head_num], [head_date], [__init__] *)

(** [DB.query_one(sql) or 0] *)
Definition head_num : M Z :=
  emit (Query SELECT_head_num);;
  tbl ← get hive_blocks;
  ret (match max_num tbl with
       | Some n => n
       | None => 0
       end).

(** [str(DB.query_one(sql) or '')] *)
Definition head_date : M string :=
  emit (Query SELECT_head_date);;
  tbl ← get hive_blocks;
  ret (match max_num tbl with
       | Some n =>
           match select_block n tbl with
           | Some r => h_date r
           | None => ""
           end
       | None => ""
       end).

(** [def __init__(cls)] carries no [@classmethod]: its parameter is the
    instance under construction, whatever its name.  [cls.head_date()]
    reaches the class method through the instance, and the assignment
    to [cls._head_block_date] sets an attribute of the instance; the
    class attribute [_head_block_date], which the class methods read and
    write, is left alone.  The result is the attribute the instance
    holds. *)
Definition __init__ : M (option string) :=
  head_date ← head_date;
  if head_date == "" then ret None
  else ret (Some head_date).

(** *** [_push] and [_flush_blocks] *)

Definition len {A} (l : list A) : Z := Z.of_nat (length l).

(** [sum(l)] *)
Definition sum (l : list Z) : Z := foldr Z.add 0 l.

Definition _push (block : block) : M Z :=
  num ← lift (int16 (String.substring 0 8 (block_id block)));
  let txs := transactions block in
  modify (fun s =>
    set_blocks_to_flush
      (blocks_to_flush s ++
       [{| h_num := num;
           h_hash := block_id block;
           h_prev := previous block;
           h_txs := len txs;
           h_ops := sum (map (fun tx => len (operations tx)) txs);
           h_date := timestamp block |}]) s);;
  ret num.

(** One [INSERT INTO hive_blocks (num, hash, prev, txs, ops, created_at)
    VALUES ...]; [values] holds one tuple per element of
    [blocks_to_flush], appended in the order of the loop (the tuple is
    kept as the header it renders).  [DB.query] raises when the
    statement is rejected, and [blocks_to_flush] is reset only after it
    has returned. *)
Definition _flush_blocks : M unit :=
  staged ← get blocks_to_flush;
  let values := foldl (fun values block => values ++ [block]) [] staged in
  emit (Query (INSERT_blocks values));;
  tbl ← get hive_blocks;
  tbl' ← lift (insert_blocks values tbl);
  modify (set_hive_blocks tbl');;
  modify (set_blocks_to_flush []).

(** *** [prepare_vops] *)

(** [vote_ops.append(vop)] on [vote_ops = {}]: a [dict] has no [append].
    ([vote_ops] is a [dict] whose items [_process] reads in the order of
    their insertion: it is kept as the list of its items in that
    order.) *)
Definition dict_append (vote_ops : list (string * json)) (vop : operation)
  : result (list (string * json)) :=
  Raise (AttributeError "'dict' object has no attribute 'append'").

Definition prepare_vop (vop : operation)
    (acc : list (string * json) * gmap string (list json))
  : result (list (string * json) * gmap string (list json)) :=
  let '(vote_ops, comment_payout_ops) := acc in
  let op_type := type vop in
  let op_value := value vop in
  '(key_val, vote_ops) ←
    (if op_type == "curation_reward_operation" then
       a ← subscript op_value "comment_author";
       p ← subscript op_value "comment_permlink";
       reward ← subscript op_value "reward";
       Ok (Some (format_key a p, JDict [("reward", reward)]), vote_ops)
     else if op_type == "author_reward_operation" then
       a ← subscript op_value "author";
       p ← subscript op_value "permlink";
       hbd_payout ← subscript op_value "hbd_payout";
       hive_payout ← subscript op_value "hive_payout";
       vesting_payout ← subscript op_value "vesting_payout";
       Ok (Some (format_key a p,
                 JDict [("hbd_payout", hbd_payout); ("hive_payout", hive_payout);
                        ("vesting_payout", vesting_payout)]), vote_ops)
     else if op_type == "comment_reward_operation" then
       a ← subscript op_value "author";
       p ← subscript op_value "permlink";
       payout ← subscript op_value "payout";
       author_rewards ← subscript op_value "author_rewards";
       total_payout_value ← subscript op_value "total_payout_value";
       curator_payout_value ← subscript op_value "curator_payout_value";
       beneficiary_payout_value ← subscript op_value "beneficiary_payout_value";
       Ok (Some (format_key a p,
                 JDict [("payout", payout); ("author_rewards", author_rewards);
                        ("total_payout_value", total_payout_value);
                        ("curator_payout_value", curator_payout_value);
                        ("beneficiary_payout_value", beneficiary_payout_value)]),
           vote_ops)
     else if op_type == "effective_comment_vote_operation" then
       a ← subscript op_value "author";
       p ← subscript op_value "permlink";
       pending_payout ← subscript op_value "pending_payout";
       vote_ops ← dict_append vote_ops vop;
       Ok (Some (format_key a p, JDict [("pending_payout", pending_payout)]), vote_ops)
     else if op_type == "comment_payout_update_operation" then
       a ← subscript op_value "author";
       p ← subscript op_value "permlink";
       Ok (Some (format_key a p, JDict [("is_paidout", JBool true)]), vote_ops)
     else Ok (None, vote_ops));
  match key_val with
  | Some (key, val) =>
      match comment_payout_ops !! key with
      | Some l =>
          Ok (vote_ops, <[key := l ++ [JDict [(op_type, val)]]]> comment_payout_ops)
      | None =>
          Ok (vote_ops, <[key := [JDict [(op_type, val)]]]> comment_payout_ops)
      end
  | None => Ok (vote_ops, comment_payout_ops)
  end.

Definition prepare_vops (vopsList : list operation) (date : option string)
  : result (list (string * json) * gmap string (list json)) :=
  fold_result prepare_vop vopsList ([], ∅).

(** *** [_process] *)

(** First scan, one operation: collect the account it introduces. *)
Definition scan_account_names (operation : operation) (account_names : list json)
  : result (list json) :=
  let op_type := type operation in
  let op := value operation in
  if op_type == "pow_operation" then
    name ← subscript op "worker_account"; set_add name account_names
  else if op_type == "pow2_operation" then
    work ← subscript op "work";
    work_value ← subscript work "value";
    input ← subscript work_value "input";
    name ← subscript input "worker_account"; set_add name account_names
  else if op_type == "account_create_operation" then
    name ← subscript op "new_account_name"; set_add name account_names
  else if op_type == "account_create_with_delegation_operation" then
    name ← subscript op "new_account_name"; set_add name account_names
  else if op_type == "create_claimed_account_operation" then
    name ← subscript op "new_account_name"; set_add name account_names
  else Ok account_names.

Definition first_scan (block : block) : result (list json) :=
  fold_result
    (fun '(tx_idx, tx) account_names =>
       fold_result scan_account_names (operations tx) account_names)
    (enumerate (transactions block)) [].

(** [cls.ops_stats[op_type] += 1], or [= 1] for a new type *)
Definition count_op (op_type : string) : M unit :=
  modify (fun s =>
    set_ops_stats
      (match ops_stats s !! op_type with
       | Some c => <[op_type := c + 1]> (ops_stats s)
       | None => <[op_type := 1]> (ops_stats s)
       end) s).

(** Second scan, one operation; [json_ops] is the loop's local list. *)
Definition dispatch (is_initial_sync : bool) (num tx_idx : Z)
    (operation : operation) (json_ops : list json) : M (list json) :=
  let op_type := type operation in
  let op := value operation in
  (if negb (op_type == "custom_json_operation") then count_op op_type
   else ret tt);;
  if op_type == "account_update_operation" then
    (if negb is_initial_sync then
       account ← lift (subscript op "account"); call (Accounts_dirty account)
     else ret tt);;
    ret json_ops
  else if op_type == "account_update2_operation" then
    (if negb is_initial_sync then
       account ← lift (subscript op "account"); call (Accounts_dirty account)
     else ret tt);;
    ret json_ops
  else if op_type == "comment_operation" then
    date ← get _head_block_date;
    call (Posts_comment_op op date);;
    (if negb is_initial_sync then
       author ← lift (subscript op "author"); call (Accounts_dirty author)
     else ret tt);;
    ret json_ops
  else if op_type == "delete_comment_operation" then
    call (Posts_delete_op op);; ret json_ops
  else if op_type == "comment_options_operation" then
    call (Posts_comment_options_op op);; ret json_ops
  else if op_type == "vote_operation" then
    (if negb is_initial_sync then
       author ← lift (subscript op "author"); call (Accounts_dirty author);;
       voter ← lift (subscript op "voter"); call (Accounts_dirty voter)
     else ret tt);;
    ret json_ops
  else if op_type == "transfer_operation" then
    date ← get _head_block_date;
    call (Payments_op_transfer op tx_idx num date);; ret json_ops
  else if op_type == "custom_json_operation" then
    ret (json_ops ++ [op])
  else ret json_ops.

Definition second_scan (is_initial_sync : bool) (num : Z) (block : block)
  : M (list json) :=
  for_fold
    (fun '(tx_idx, tx) json_ops =>
       for_fold (dispatch is_initial_sync num tx_idx) (operations tx) json_ops)
    (enumerate (transactions block)) [].

(** [virtual_operations] is the preloaded map of the initial sync;
    otherwise the virtual operations are asked from [hived]. *)
Definition _process (block : block)
    (virtual_operations : gmap Z (list (string * json) * gmap string (list json)))
    (is_initial_sync : bool) : M Z :=
  num ← _push block;
  let block_date := timestamp block in
  head_block_date ← get _head_block_date;
  (match head_block_date with
   | None => modify (set_head_block_date (Some block_date))
   | Some _ => ret tt
   end);;
  (* first scan: register all accounts *)
  account_names ← lift (first_scan block);
  date ← get _head_block_date;
  call (Accounts_register account_names date);;
  (* second scan: all other ops *)
  json_ops ← second_scan is_initial_sync num block;
  (match json_ops with
   | [] => ret tt
   | _ :: _ =>
       date ← get _head_block_date;
       custom_ops_stats ← call (CustomOp_process_ops json_ops num date);
       modify (fun s => set_ops_stats (merge_ops_stats (ops_stats s) custom_ops_stats) s)
   end);;
  (* virtual ops *)
  let empty_vops : list (string * json) * gmap string (list json) := ([], ∅) in
  '(vote_ops, comment_payout_ops) ←
    (if is_initial_sync then
       ret (match virtual_operations !! num with
            | Some vops => vops
            | None => empty_vops
            end)
     else
       vops ← call (hived_get_virtual_operations num);
       date ← get _head_block_date;
       lift (prepare_vops vops date));
  for_each (fun '(k, v) =>
              date ← get _head_block_date;
              call (Votes_effective_comment_vote_op k v date))
           vote_ops;;
  (if bool_decide (comment_payout_ops = ∅) then ret tt
   else
     date ← get _head_block_date;
     comment_payout_stats ← call (Posts_comment_payout_op comment_payout_ops date);
     modify (fun s => set_ops_stats (merge_ops_stats (ops_stats s) comment_payout_stats) s));;
  modify (set_head_block_date (Some block_date));;
  ret num.

(** *** [process] and [process_multi] *)

Definition process (block : block) : M Z :=
  r ← _process block ∅ false;
  call PostDataCache_flush;;
  call Tags_flush;;
  call Votes_flush;;
  ret r.

(** The [for] loop under [try]: it stops at the first block whose
    [_process] raises, and hands the handler the exception together with
    the value [last_num] has at that moment. *)
Fixpoint process_each (blocks : list block)
    (vops : gmap Z (list (string * json) * gmap string (list json)))
    (is_initial_sync : bool) (last_num : Z) : M (Z * option exn) :=
  match blocks with
  | [] => ret (last_num, None)
  | block :: rest =>
      r ← try (_process block vops is_initial_sync);
      match r with
      | Ok num => process_each rest vops is_initial_sync num
      | Raise e => ret (last_num, Some e)
      end
  end.

Definition process_multi (blocks : list block)
    (vops : gmap Z (list (string * json) * gmap string (list json)))
    (is_initial_sync : bool) : M (gmap string Z) :=
  emit (Query START_TRANSACTION);;
  let last_num := 0 in
  '(last_num, raised) ← process_each blocks vops is_initial_sync last_num;
  (match raised with
   | Some e =>
       log ERROR "exception encountered block %d" [LInt (last_num + 1)];;
       raise e
   | None => ret tt
   end);;
  call PostDataCache_flush;;
  call Tags_flush;;
  call Votes_flush;;
  _flush_blocks;;
  call (Follow_flush false);;
  emit (Query COMMIT);;
  get ops_stats.

(** *** [_pop] and [verify_head] *)

Definition _pop (blocks : list header) : M unit :=
  emit (Query START_TRANSACTION);;
  for_each
    (fun block =>
       let num := h_num block in
       let date := h_date block in
       log WARNING "[FORK] popping block %d @ %s" [LInt num; LStr date];;
       head ← head_num;
       py_assert (num =? head) "can only pop head block";;
       (* all affected post_ids in this block *)
       post_ids ← call (DB_query_col
         "SELECT id FROM hive_posts WHERE created_at >= :date" (P_date date));
       (* communities *)
       call (DB_query "DELETE FROM hive_notifs        WHERE created_at >= :date" (P_date date));;
       call (DB_query "DELETE FROM hive_subscriptions WHERE created_at >= :date" (P_date date));;
       call (DB_query "DELETE FROM hive_roles         WHERE created_at >= :date" (P_date date));;
       call (DB_query "DELETE FROM hive_communities   WHERE created_at >= :date" (P_date date));;
       (* core *)
       call (DB_query "DELETE FROM hive_feed_cache  WHERE created_at >= :date" (P_date date));;
       call (DB_query "DELETE FROM hive_reblogs     WHERE created_at >= :date" (P_date date));;
       call (DB_query "DELETE FROM hive_follows     WHERE created_at >= :date" (P_date date));;
       (* posts: core, tags, cache entries *)
       (match post_ids with
        | [] => ret tt
        | _ :: _ =>
            call (DB_query "DELETE FROM hive_post_tags   WHERE post_id IN :ids" (P_ids post_ids));;
            call (DB_query "DELETE FROM hive_posts       WHERE id      IN :ids" (P_ids post_ids));;
            call (DB_query "DELETE FROM hive_posts_data  WHERE id      IN :ids" (P_ids post_ids))
        end);;
       call (DB_query "DELETE FROM hive_payments    WHERE block_num = :num" (P_num num));;
       emit (Query (DELETE_block num));;
       modify (fun s => set_hive_blocks (delete_block num (hive_blocks s)) s))
    blocks;;
  emit (Query COMMIT);;
  log WARNING "[FORK] recovery complete" [].

(** [SELECT ... FROM hive_blocks WHERE num = :num LIMIT 1], then
    [dict(row)]: no row makes [dict(None)] raise. *)
Definition _get (num : Z) : M header :=
  emit (Query (SELECT_block num));;
  tbl ← get hive_blocks;
  match select_block num tbl with
  | Some row => ret row
  | None => raise (TypeError "'NoneType' object is not iterable")
  end.

(** [hive_block['hash'] == steem_hash] *)
Definition hash_eq (hash : string) (steem_hash : json) : bool :=
  match steem_hash with
  | JStr h => hash == h
  | _ => false
  end.

(** The [while True] loop of [verify_head]: move backwards from head
    until hive and steem agree.  It ends because the assertion stops it
    once [hive_head - cursor] reaches 25. *)
Equations? walk_back (hive_head cursor : Z) (to_pop : list header)
  : M (Z * list header)
  by wf (Z.to_nat (25 - (hive_head - cursor))) lt :=
walk_back hive_head cursor to_pop with Z_lt_dec (hive_head - cursor) 25 := {
  | right _ => raise (AssertionError "fork too deep")
  | left _ =>
      hive_block ← _get cursor;
      steem_block ← call (steem_get_block cursor);
      steem_hash ← lift (subscript steem_block "block_id");
      if hash_eq (h_hash hive_block) steem_hash then ret (cursor, to_pop)
      else walk_back hive_head (cursor - 1) (to_pop ++ [hive_block]) }.
Proof. lia. Qed.

Definition verify_head : M unit :=
  hive_head ← head_num;
  if hive_head =? 0 then ret tt
  else
    '(cursor, to_pop) ← walk_back hive_head hive_head [];
    if hive_head =? cursor then ret tt (* no fork! *)
    else
      log ERROR "[FORK] depth is %d; popping blocks %d - %d"
          [LInt (hive_head - cursor); LInt (cursor + 1); LInt hive_head];;
      (* we should not attempt to recover from fork until it's safe *)
      fork_limit ← call steem_last_irreversible;
      py_assert (cursor <? fork_limit) "not proceeding until head is irreversible";;
      _pop to_pop.

End Blocks.

Arguments State {W}.
Arguments blocks_to_flush {W} s.
Arguments ops_stats {W} s.
Arguments _head_block_date {W} s.
Arguments hive_blocks {W} s.
Arguments world {W} s.
Arguments set_blocks_to_flush {W} v s.
Arguments set_ops_stats {W} v s.
Arguments set_head_block_date {W} v s.
Arguments set_hive_blocks {W} v s.
Arguments set_world {W} v s.
Arguments Out {W A} res post evs.
Arguments res {W A} o.
Arguments post {W A} o.
Arguments evs {W A} o.
Arguments ret {W A} a s.
Arguments raise {W A} e s.
Arguments bind {W A B} m f s.
Arguments try {W A} m s.
Arguments lift {W A} r s.
Arguments get {W A} f s.
Arguments modify {W} f s.
Arguments emit {W} e s.
Arguments log {W} level fmt args s.
Arguments py_assert {W} b msg s.
Arguments call {W} ext {R} c s.
Arguments for_fold {W A B} body l acc s.
Arguments for_each {W A} body l s.
Arguments head_num {W} s.
Arguments head_date {W} s.
Arguments __init__ {W} s.
Arguments _push {W} block s.
Arguments _flush_blocks {W} s.
Arguments count_op {W} op_type s.
Arguments dispatch {W} ext is_initial_sync num tx_idx operation json_ops s.
Arguments second_scan {W} ext is_initial_sync num block s.
Arguments _process {W} ext py_repr block virtual_operations is_initial_sync s.
Arguments process {W} ext py_repr block s.
Arguments process_each {W} ext py_repr blocks vops is_initial_sync last_num s.
Arguments process_multi {W} ext py_repr blocks vops is_initial_sync s.
Arguments _pop {W} ext blocks s.
Arguments _get {W} num s.
Arguments walk_back {W} ext hive_head cursor to_pop s.
Arguments verify_head {W} ext s.

(** ** Readings of the specification *)

(** What the merged counter at one key should be, in the words of the
    claim: the sum when both have it, else whichever has it. *)
Definition merged_count (c1 c2 : option Z) : option Z :=
  match c1, c2 with
  | Some a, Some b => Some (a + b)
  | None, Some b => Some b
  | Some a, None => Some a
  | None, None => None
  end.

(** [num] as the specification words it: the first 8 hex characters of
    the hash are four bytes, read as a big-endian unsigned integer. *)
Fixpoint unhexlify (s : string) : option (list Z) :=
  match s with
  | EmptyString => Some []
  | String c1 (String c2 rest) =>
      match hex_digit c1, hex_digit c2, unhexlify rest with
      | Some hi, Some lo, Some bytes => Some (16 * hi + lo :: bytes)
      | _, _, _ => None
      end
  | String _ EmptyString => None
  end.

Definition big_endian_u32 (bytes : list Z) : option Z :=
  match bytes with
  | [b0; b1; b2; b3] => Some (b0 * 2 ^ 24 + b1 * 2 ^ 16 + b2 * 2 ^ 8 + b3)
  | _ => None
  end.

Definition num_of_hash (hash : string) : option Z :=
  match unhexlify (String.substring 0 8 hash) with
  | Some bytes => big_endian_u32 bytes
  | None => None
  end.

(** The value of a run of hexadecimal digits, most significant first. *)
Fixpoint hex_value (s : string) (acc : Z) : option Z :=
  match s with
  | EmptyString => Some acc
  | String c rest =>
      match hex_digit c with
      | Some d => hex_value rest (16 * acc + d)
      | None => None
      end
  end.

(** Ascending [num] order of a list of headers. *)
Fixpoint ascending (l : list Z) : bool :=
  match l with
  | x :: (y :: _) as rest => (x <? y) && ascending rest
  | _ => true
  end.

(** What the table asks of an INSERT: there is a tuple to insert, no
    [num] occurs twice among the tuples, and none is the [num] of a row
    the table holds. *)
Definition insertable (values tbl : list header) : Prop :=
  values <> []
  /\ NoDup (map h_num values)
  /\ forall num, num ∈ map h_num values -> num ∉ map h_num tbl.

(** The block-store flush as the specification words it: one multi-row
    insert of all staged headers, in ascending [num] order, after which
    the staging buffer is empty. *)
Definition flush_in_ascending_order {W} (s : state W) : Prop :=
  exists values,
    evs (_flush_blocks s) = [Query (INSERT_blocks values)]
    /\ values ≡ₚ blocks_to_flush s
    /\ ascending (map h_num values) = true
    /\ blocks_to_flush (post (_flush_blocks s)) = [].

(** The date an event is tagged with, for the calls that take one. *)
Definition event_date (e : event) : option (option string) :=
  match e with
  | Call c =>
      match c with
      | Accounts_register _ date
      | Posts_comment_op _ date
      | Payments_op_transfer _ _ _ date
      | CustomOp_process_ops _ _ date
      | Votes_effective_comment_vote_op _ _ date
      | Posts_comment_payout_op _ date => Some date
      | _ => None
      end
  | _ => None
  end.

Definition dated_with (tag : string) (e : event) : Prop :=
  forall date, event_date e = Some date -> date = Some tag.

(** Python's [name in account_names]. *)
Definition set_mem (name : json) (account_names : list json) : bool :=
  existsb (hashable_eqb name) account_names.

Definition to_option {A} (r : result A) : option A :=
  match r with
  | Ok a => Some a
  | Raise _ => None
  end.

(** The account an operation introduces, for the five account-creating
    operation types of the specification. *)
Definition new_account_name (operation : operation) : option json :=
  let op := value operation in
  if type operation == "pow_operation" then
    to_option (subscript op "worker_account")
  else if type operation == "pow2_operation" then
    to_option (work ← subscript op "work";
               work_value ← subscript work "value";
               input ← subscript work_value "input";
               subscript input "worker_account")
  else if (type operation == "account_create_operation")
          || (type operation == "account_create_with_delegation_operation")
          || (type operation == "create_claimed_account_operation") then
    to_option (subscript op "new_account_name")
  else None.

(** [account_names] holds every account that an operation of [block]
    introduces. *)
Definition registers_all (block : block) (account_names : list json) : Prop :=
  forall tx operation name,
    tx ∈ transactions block ->
    operation ∈ operations tx ->
    new_account_name operation = Some name ->
    set_mem name account_names = true.

(** A call that hands an operation, or the aggregates of virtual
    operations, to a sub-processor. *)
Definition is_dispatch (e : event) : bool :=
  match e with
  | Call c =>
      match c with
      | Accounts_dirty _
      | Posts_comment_op _ _
      | Posts_delete_op _
      | Posts_comment_options_op _
      | Payments_op_transfer _ _ _ _
      | CustomOp_process_ops _ _ _
      | Votes_effective_comment_vote_op _ _ _
      | Posts_comment_payout_op _ _ => true
      | _ => false
      end
  | _ => false
  end.

(** The steps that end a batch: the domain flushers, the insert of the
    staged headers, the follow flush and the commit. *)
Definition is_batch_end (e : event) : bool :=
  match e with
  | Call c =>
      match c with
      | PostDataCache_flush | Tags_flush | Votes_flush | Follow_flush _ => true
      | _ => false
      end
  | Query (INSERT_blocks _) | Query COMMIT => true
  | _ => false
  end.

Definition no_batch_end (e : event) : Prop := is_batch_end e = false.

(** [head_num()] as a function of the table. *)
Definition head_of (tbl : list header) : Z :=
  match max_num tbl with
  | Some n => n
  | None => 0
  end.

(** The statements of [_pop] that delete. *)
Definition is_pop (e : event) : bool :=
  match e with
  | Call c =>
      match c with
      | DB_query _ _ | DB_query_col _ _ => true
      | _ => false
      end
  | Query (DELETE_block _) => true
  | _ => false
  end.

Definition is_last_irreversible (e : event) : bool :=
  match e with
  | Call c =>
      match c with
      | steem_last_irreversible => true
      | _ => false
      end
  | _ => false
  end.

(** The height at which an event asks upstream for a block to compare. *)
Definition compared_at (e : event) : option Z :=
  match e with
  | Call c =>
      match c with
      | steem_get_block cursor => Some cursor
      | _ => None
      end
  | _ => None
  end.

(** What the walk back from [hive_head] may emit: no delete, no question
    about irreversibility, and comparisons less than 25 below the head. *)
Definition walk_event (hive_head : Z) (e : event) : Prop :=
  is_pop e = false
  /\ is_last_irreversible e = false
  /\ forall cursor, compared_at e = Some cursor -> 0 <= hive_head - cursor < 25.

(** Comparisons with upstream stay less than 25 blocks below [hive_head]. *)
Definition compared_within (hive_head : Z) (e : event) : Prop :=
  forall cursor, compared_at e = Some cursor -> 0 <= hive_head - cursor < 25.

(** The rows of [tbl] at or below [cursor] are still in the table of [s]. *)
Definition keeps_below {W} (tbl : list header) (cursor : Z) (s : state W) : Prop :=
  forall row, row ∈ tbl -> h_num row <= cursor -> row ∈ hive_blocks s.

(** Local and upstream disagree at [cursor], whatever the world is. *)
Definition diverges_at {W} (ext : forall R, extE R -> W -> result R * W)
    (tbl : list header) (cursor : Z) : Prop :=
  exists row,
    select_block cursor tbl = Some row
    /\ forall w, exists steem_block steem_hash,
         (ext json (steem_get_block cursor) w).1 = Ok steem_block
         /\ subscript steem_block "block_id" = Ok steem_hash
         /\ hash_eq (h_hash row) steem_hash = false.

(** [processed ext py_repr blocks s]: [s] is a state the process can be in
    after [_process] has returned for each of [blocks] in turn, starting
    with the class attribute [_head_block_date = None]; between two
    blocks anything may have happened that leaves the cached date alone. *)
Inductive processed {W} (ext : forall R, extE R -> W -> result R * W)
    (py_repr : json -> string) : list block -> state W -> Prop :=
| processed_none s :
    _head_block_date s = None -> processed ext py_repr [] s
| processed_next blocks s block vops is_initial_sync num s' :
    processed ext py_repr blocks s ->
    res (_process ext py_repr block vops is_initial_sync s) = Ok num ->
    _head_block_date s'
    = _head_block_date (post (_process ext py_repr block vops is_initial_sync s)) ->
    processed ext py_repr (blocks ++ [block]) s'.

(** ** Specifications of monadic code *)

(** [wp m Ev Q s]: run from [s], [m] emits only events in [Ev] and ends
    (returning or raising) in an outcome and a state that satisfy [Q]. *)
Definition wp {W A} (m : M W A) (Ev : event -> Prop)
    (Q : result A -> state W -> Prop) (s : state W) : Prop :=
  Forall Ev (evs (m s)) /\ Q (res (m s)) (post (m s)).

(** [wpt m Q s]: the outcome, the final state and the events of running
    [m] from [s] satisfy [Q]. *)
Definition wpt {W A} (m : M W A)
    (Q : result A -> state W -> list event -> Prop) (s : state W) : Prop :=
  Q (res (m s)) (post (m s)) (evs (m s)).

(** ** Worked inputs *)

(** Collaborators that always succeed, over a world with nothing in it. *)
Definition quiet (R : Type) (c : extE R) (w : unit) : result R * unit :=
  (match c in extE R return result R with
   | steem_get_block _ => Ok JNull
   | steem_last_irreversible => Ok 0
   | hived_get_virtual_operations _ => Ok []
   | DB_query_col _ _ => Ok []
   | CustomOp_process_ops _ _ _ => Ok None
   | Posts_comment_payout_op _ _ => Ok None
   | _ => Ok tt
   end, w).

Definition no_repr (v : json) : string := "".

(** The state of a fresh process on an empty database. *)
Definition fresh : state unit := State [] ∅ None [] tt.

Definition vote_vop : operation :=
  {| type := "effective_comment_vote_operation";
     value := JDict [("voter", JStr "bob"); ("author", JStr "alice");
                     ("permlink", JStr "hello"); ("pending_payout", JStr "1.000 HBD")] |}.

(** Block 1 creates the account alice and then has her post a comment;
    block 2 holds a transfer and a custom JSON operation. *)
Definition block_1 : block :=
  {| block_id := "000000010a0b0c0d";
     previous := "0000000000000000";
     timestamp := "2016-03-24T16:05:00";
     transactions :=
       [{| operations :=
             [{| type := "account_create_operation";
                 value := JDict [("creator", JStr "initminer");
                                 ("new_account_name", JStr "alice")] |};
              {| type := "comment_operation";
                 value := JDict [("author", JStr "alice");
                                 ("permlink", JStr "hello")] |}] |}] |}.

Definition block_2 : block :=
  {| block_id := "000000021a1b1c1d";
     previous := "000000010a0b0c0d";
     timestamp := "2016-03-24T16:05:03";
     transactions :=
       [{| operations :=
             [{| type := "transfer_operation";
                 value := JDict [("from", JStr "alice"); ("to", JStr "bob")] |}] |};
        {| operations :=
             [{| type := "custom_json_operation";
                 value := JDict [("id", JStr "follow")] |}] |}] |}.

(** The state after block 1 went through [_process] (initial sync). *)
Definition after_block_1 : state unit :=
  post (_process quiet no_repr block_1 ∅ true fresh).

Definition header_of (num : Z) (hash : string) : header :=
  {| h_num := num; h_hash := hash; h_prev := ""; h_txs := 0; h_ops := 0; h_date := "" |}.

(** A local chain of blocks [lo .. hi], and an upstream that has the same
    blocks up to [common] and other ones above; [lib] is upstream's last
    irreversible height. *)
Definition local_hash (num : Z) : string := "local-" +:+ pretty num.

Definition local_table (lo hi : Z) : list header :=
  map (fun num => header_of num (local_hash num)) (seqZ lo (hi - lo + 1)).

Definition upstream (common lib : Z) (R : Type) (c : extE R) (w : unit)
  : result R * unit :=
  (match c in extE R return result R with
   | steem_get_block num =>
       Ok (JDict [("block_id",
                   JStr (if num <=? common then local_hash num
                         else "upstream-" +:+ pretty num))])
   | steem_last_irreversible => Ok lib
   | hived_get_virtual_operations _ => Ok []
   | DB_query_col _ _ => Ok []
   | CustomOp_process_ops _ _ _ => Ok None
   | Posts_comment_payout_op _ _ => Ok None
   | _ => Ok tt
   end, w).

(** A database whose head is block 1000. *)
Definition head_1000 : state unit := State [] ∅ None (local_table 960 1000) tt.

(** A process that has synced up to block 499. *)
Definition head_499 : state unit :=
  State [] ∅ (Some "2016-03-24T16:29:57") (local_table 490 499) tt.

(** A database that holds one block 500, of the local chain. *)
Definition holds_500 : state unit := State [] ∅ None (local_table 500 500) tt.


(** Block 500: alice posts a comment. *)
Definition block_500 : block :=
  {| block_id := "000001f4c0ffee00";
     previous := "000001f3c0ffee00";
     timestamp := "2016-03-24T16:30:00";
     transactions :=
       [{| operations :=
             [{| type := "comment_operation";
                 value := JDict [("author", JStr "alice");
                                 ("permlink", JStr "hello")] |}] |}] |}.

(** Collaborators among which [Posts.comment_op] fails. *)
Definition posts_down (R : Type) (c : extE R) (w : unit) : result R * unit :=
  (match c in extE R return result R with
   | Posts_comment_op _ _ => Raise (Failure "database error")
   | steem_get_block _ => Ok JNull
   | steem_last_irreversible => Ok 0
   | hived_get_virtual_operations _ => Ok []
   | DB_query_col _ _ => Ok []
   | CustomOp_process_ops _ _ _ => Ok None
   | Posts_comment_payout_op _ _ => Ok None
   | _ => Ok tt
   end, w).

Definition block_1f4 : block :=
  {| block_id := "000001f4c0ffee00";
     previous := "000001f3c0ffee00";
     timestamp := "2016-03-24T16:30:00";
     transactions := [] |}.

(** * Further readings of the code *)

(** ** [blocks.py] *)

(** The header that [_push] stages for [block]: [int()] of the first
    characters of [block_id], the counts of transactions and operations. *)
Definition stage (block : block) : result header :=
  num ← int16 (String.substring 0 8 (block_id block));
  Ok {| h_num := num;
        h_hash := block_id block;
        h_prev := previous block;
        h_txs := len (transactions block);
        h_ops := sum (map (fun tx => len (operations tx)) (transactions block));
        h_date := timestamp block |}.

(** All operations of a block, transaction after transaction. *)
Definition all_operations (block : block) : list operation :=
  concat (map operations (transactions block)).

(** The payloads of the [custom_json_operation]s among [ops], in order. *)
Definition payloads_of (ops : list operation) : list json :=
  map value
      (List.filter (fun operation => type operation == "custom_json_operation") ops).

Definition custom_json_payloads (block : block) : list json :=
  payloads_of (all_operations block).

(** How often an operation type occurs in a list of operations. *)
Definition occurrences (op_type : string) (ops : list operation) : Z :=
  len (List.filter (fun operation => type operation == op_type) ops).

(** What the second scan adds to the counter of [op_type]. *)
Definition counted (op_type : string) (ops : list operation) : Z :=
  if op_type == "custom_json_operation" then 0 else occurrences op_type ops.

(** A counter read with Python's [stats.get(op_type, 0)]. *)
Definition counter (stats : gmap string Z) (op_type : string) : Z :=
  default 0 (stats !! op_type).

(** Two payout maps put together: per key, the entries of the first
    followed by those of the second. *)
Definition append_payouts (c1 c2 : gmap string (list json))
  : gmap string (list json) :=
  union_with (fun l1 l2 => Some (l1 ++ l2)) c1 c2.

Definition is_vote_call (e : event) : bool :=
  match e with
  | Call c =>
      match c with
      | Votes_effective_comment_vote_op _ _ _ => true
      | _ => false
      end
  | _ => false
  end.

Definition is_dirty_call (e : event) : bool :=
  match e with
  | Call c =>
      match c with
      | Accounts_dirty _ => true
      | _ => false
      end
  | _ => false
  end.

Definition is_hived_call (e : event) : bool :=
  match e with
  | Call c =>
      match c with
      | hived_get_virtual_operations _ => true
      | _ => false
      end
  | _ => false
  end.

Definition is_custom_call (e : event) : bool :=
  match e with
  | Call c =>
      match c with
      | CustomOp_process_ops _ _ _ => true
      | _ => false
      end
  | _ => false
  end.

(** A call of the second scan on one operation. *)
Definition is_scan_call (e : event) : bool :=
  match e with
  | Call c =>
      match c with
      | Accounts_dirty _
      | Posts_comment_op _ _
      | Posts_delete_op _
      | Posts_comment_options_op _
      | Payments_op_transfer _ _ _ _ => true
      | _ => false
      end
  | _ => false
  end.

(** The number [_push] reads off a block: [int(block['block_id'][:8], base=16)]. *)
Definition block_num (block : block) : result Z :=
  int16 (String.substring 0 8 (block_id block)).

(** ** Phases of a trace

    [accepts step q t q']: reading the events of [t] one after the other
    takes the phase [q] to [q'], each event being allowed by [step] in
    the phase in which it occurs. *)
Fixpoint accepts {E Q : Type} (step : Q -> E -> Q -> Prop)
    (q : Q) (t : list E) (q' : Q) : Prop :=
  match t with
  | [] => q = q'
  | e :: t' => exists q1, step q e q1 /\ accepts step q1 t' q'
  end.

(** [wpa m step P s q]: run from [s], the events of [m] are accepted from
    phase [q], and [P] holds of the outcome, the final state and the
    phase reached. *)
Definition wpa {W A Q} (m : M W A) (step : Q -> event -> Q -> Prop)
    (P : result A -> state W -> Q -> Prop) (s : state W) (q : Q) : Prop :=
  exists q', accepts step q (evs (m s)) q'
             /\ P (res (m s)) (post (m s)) q'.

(** The two phases of [_process] with respect to custom JSON: before
    [CustomOp.process_ops] is called ([false]) and after ([true]).  The
    call is allowed once, with the payloads and the number of [block];
    the calls of the second scan are allowed only before it. *)
Definition custom_step (block : block) (q : bool) (e : event) (q' : bool) : Prop :=
  match e with
  | Call c =>
      match c with
      | CustomOp_process_ops l n _ =>
          q = false /\ q' = true
          /\ l = custom_json_payloads block /\ l <> [] /\ block_num block = Ok n
      | _ => q' = q /\ (is_scan_call e = true -> q = false)
      end
  | _ => q' = q
  end.

(** What [_push] appends to the buffer for [block]: its header, or
    nothing when the number cannot be read. *)
Definition staged (block : block) : list header :=
  match stage block with
  | Ok h => [h]
  | Raise _ => []
  end.

(** The rows of [tbl] up to [cursor]. *)
Definition rows_upto (cursor : Z) (tbl : list header) : list header :=
  List.filter (fun r => h_num r <=? cursor) tbl.

(** [k] numbers counted down from [hi]. *)
Fixpoint descending (hi : Z) (k : nat) : list Z :=
  match k with
  | O => []
  | S k => hi :: descending (hi - 1) k
  end.

(** The statements that [_pop] sends to the tables of the sub-processors
    are answered. *)
Definition db_answers {W} (ext : forall R, extE R -> W -> result R * W) : Prop :=
  forall sql param w,
    is_ok (ext _ (DB_query sql param) w).1 = true
    /\ is_ok (ext _ (DB_query_col sql param) w).1 = true.

(** ** [sync.py] *)

(** *** The range planning of [SyncHiveDb.run]

    One round of the [while True] loop of [run], from the answer of
    [_query_for_app_next_block] to the choice between massive and
    single mode.  Bounds and configured limits are optional integers;
    in a condition [None] and [0] count as false. *)

Definition truthy (x : option Z) : bool :=
  match x with
  | Some n => negb (n =? 0)
  | None => false
  end.

(** [a < b], [a > b], [a >= b], [a - b] and [min(a, b)] on values that
    may be [None]: Python raises [TypeError] when one is. *)
Definition py_lt (a b : option Z) : result bool :=
  match a, b with
  | Some x, Some y => Ok (x <? y)
  | _, _ => Raise (TypeError "'<' not supported between 'NoneType' and 'int'")
  end.

Definition py_gt (a b : option Z) : result bool :=
  match a, b with
  | Some x, Some y => Ok (x >? y)
  | _, _ => Raise (TypeError "'>' not supported between 'NoneType' and 'int'")
  end.

Definition py_ge (a b : option Z) : result bool :=
  match a, b with
  | Some x, Some y => Ok (x >=? y)
  | _, _ => Raise (TypeError "'>=' not supported between 'NoneType' and 'int'")
  end.

Definition py_sub (a b : option Z) : result Z :=
  match a, b with
  | Some x, Some y => Ok (x - y)
  | _, _ => Raise (TypeError "unsupported operand type(s) for -")
  end.

Definition py_min (a b : option Z) : result Z :=
  match a, b with
  | Some x, Some y => Ok (if y <? x then y else x)
  | _, _ => Raise (TypeError "'<' not supported between 'NoneType' and 'int'")
  end.

Record SyncHiveDb := {
  _last_block_to_process : option Z;
  _last_block_for_massive_sync : option Z;
  _lbound : option Z;
  _ubound : option Z;
  _were_mocks_after_db_blocks : bool }.

Definition set_lbound (v : option Z) (self : SyncHiveDb) : SyncHiveDb :=
  {| _last_block_to_process := _last_block_to_process self;
     _last_block_for_massive_sync := _last_block_for_massive_sync self;
     _lbound := v;
     _ubound := _ubound self;
     _were_mocks_after_db_blocks := _were_mocks_after_db_blocks self |}.

Definition set_ubound (v : option Z) (self : SyncHiveDb) : SyncHiveDb :=
  {| _last_block_to_process := _last_block_to_process self;
     _last_block_for_massive_sync := _last_block_for_massive_sync self;
     _lbound := _lbound self;
     _ubound := v;
     _were_mocks_after_db_blocks := _were_mocks_after_db_blocks self |}.

Definition set_were_mocks (v : bool) (self : SyncHiveDb) : SyncHiveDb :=
  {| _last_block_to_process := _last_block_to_process self;
     _last_block_for_massive_sync := _last_block_for_massive_sync self;
     _lbound := _lbound self;
     _ubound := _ubound self;
     _were_mocks_after_db_blocks := v |}.

(** How a round of the loop goes on: [return], [continue], or one of the
    two modes with the arguments of [update_sync_block_range]. *)
Inductive round : Type :=
| RETURN
| CONTINUE
| MASSIVE (lbound ubound : option Z)
| SINGLE (lbound ubound : option Z).

(** The limit of massive sync: it may lower [_ubound] and forbid the
    massive mode. *)
Definition massive_limit (self : SyncHiveDb) : result (SyncHiveDb * bool) :=
  let allow_massive := true in
  if truthy (_last_block_for_massive_sync self) && truthy (_lbound self) then
    below ← py_lt (_lbound self) (_last_block_for_massive_sync self);
    let self :=
      if (below : bool) then set_ubound (_last_block_for_massive_sync self) self
      else self in
    above ← py_gt (_lbound self) (_last_block_for_massive_sync self);
    Ok (self, if (above : bool) then false else allow_massive)
  else Ok (self, allow_massive).

(** The test cap: [None] stands for the [return] of [run]. *)
Definition test_cap (self : SyncHiveDb) (last_imported_block : Z)
  : result (option SyncHiveDb) :=
  if truthy (_last_block_to_process self) then
    reached ← py_ge (Some last_imported_block) (_last_block_to_process self);
    if (reached : bool) then Ok None
    else if negb (truthy (_lbound self) && truthy (_ubound self)) then
      Ok (Some (set_were_mocks true
                  (set_ubound (_last_block_to_process self)
                     (set_lbound (Some (last_imported_block + 1)) self))))
    else
      ubound ← py_min (_last_block_to_process self) (_ubound self);
      Ok (Some (set_ubound (Some ubound) self))
  else Ok (Some self).

(** [last_imported_block] is what [Blocks.head_num()] returned and
    [next_block] what [_query_for_app_next_block()] returned. *)
Definition run_round (self : SyncHiveDb) (last_imported_block : Z)
    (next_block : option Z * option Z) : result (round * SyncHiveDb) :=
  let self := set_ubound next_block.2 (set_lbound next_block.1 self) in
  limited ← massive_limit self;
  let self := (limited : SyncHiveDb * bool).1 in
  let allow_massive := limited.2 in
  capped ← test_cap self last_imported_block;
  match capped with
  | None => Ok (RETURN, self)
  | Some self =>
      if negb (truthy (_lbound self) && truthy (_ubound self)) then Ok (CONTINUE, self)
      else
        ahead ← py_sub (_ubound self) (_lbound self);
        if ((ahead : Z) >? 100) && allow_massive then
          Ok (MASSIVE (_lbound self) (_ubound self), self)
        else Ok (SINGLE (_lbound self) (_lbound self), self)
  end.

(** A test setup: process up to block 1000, massive sync up to block 500. *)
Definition test_plan : SyncHiveDb :=
  {| _last_block_to_process := Some 1000;
     _last_block_for_massive_sync := Some 500;
     _lbound := None;
     _ubound := None;
     _were_mocks_after_db_blocks := false |}.

(** *** [_periodic_actions] *)

Inductive periodic : Type :=
| PayoutStats_generate
| Mentions_refresh
| update_communities_posts_and_rank.

(** What [_periodic_actions] starts for a block with number [block_num]. *)
Definition _periodic_actions (block_num : Z) : list periodic :=
  if block_num mod 1200 =? 0 then [PayoutStats_generate; Mentions_refresh]
  else if block_num mod 200 =? 0 then [update_communities_posts_and_rank]
  else [].

#[global] Instance periodic_eq_dec : EqDecision periodic.
Proof. solve_decision. Defined.

(** How often [action] is started while the blocks [lo], [lo + 1], ...,
    [n] of them, go through [_periodic_actions]. *)
Definition started (action : periodic) (lo : Z) (n : Z) : nat :=
  count_occ periodic_eq_dec (concat (map _periodic_actions (seqZ lo n))) action.

(** *** [_block_consumer]

    The consumer of massive sync.  Blocks are values of a type [B] that
    the provider hands out, readings of the clock values of a type [T];
    the provider, the batch driver [Blocks.process_multi], the signal
    latch, the timer and the statistics managers are collaborators,
    answered by a handler over a world [V].  [log.info] lines are left
    out; what they print is still computed where computing it calls a
    collaborator or may raise. *)

(** The third argument of [minmax]: the literal [1.0], or a difference
    of two readings of the clock. *)
Inductive seconds (T : Type) : Type :=
| literal_1
| between (later earlier : T).
Arguments literal_1 {T}.
Arguments between {T} later earlier.

Inductive syncE (B T : Type) : Type -> Type :=
| log_isEnabledFor (level : Z) : syncE B T bool
| OPSM_start : syncE B T T
| OPSM_stop (time_start : T) : syncE B T T
| minmax (rate : json) (n : Z) (elapsed : seconds T) (lbound : Z) : syncE B T json
| Blocks_set_end_of_sync_lib (ubound : Z) : syncE B T unit
| Timer (count : Z) : syncE B T unit
| perf : syncE B T T
| provider_get (number_of_blocks : Z) : syncE B T (list B)
| can_continue_thread : syncE B T bool
| timer_batch_start : syncE B T unit
| Blocks_process_multi (blocks : list B) (is_massive_sync : bool) : syncE B T unit
| timer_batch_lap : syncE B T unit
| timer_batch_finish (n : Z) : syncE B T unit
| get_date (block : B) : syncE B T string
| timer_batch_status (got : Z) (date : string) : syncE B T string
| datetime_now : syncE B T string
| log_memory_usage : syncE B T string
| OPSM_log_current (label : string) : syncE B T T
| FSM_log_current (label : string) : syncE B T T
| WSM_log_current (label : string) : syncE B T T
| OPSM_log_global (label : string) : syncE B T T
| FSM_log_global (label : string) : syncE B T T
| WSM_log_global (label : string) : syncE B T T
| OPSM_next_blocks : syncE B T unit
| FSM_next_blocks : syncE B T unit
| WSM_next_blocks : syncE B T unit
| PC_broadcast (sync_current_block : Z) : syncE B T unit
| set_exception_thrown : syncE B T unit.
Arguments log_isEnabledFor {B T} level.
Arguments OPSM_start {B T}.
Arguments OPSM_stop {B T} time_start.
Arguments minmax {B T} rate n elapsed lbound.
Arguments Blocks_set_end_of_sync_lib {B T} ubound.
Arguments Timer {B T} count.
Arguments perf {B T}.
Arguments provider_get {B T} number_of_blocks.
Arguments can_continue_thread {B T}.
Arguments timer_batch_start {B T}.
Arguments Blocks_process_multi {B T} blocks is_massive_sync.
Arguments timer_batch_lap {B T}.
Arguments timer_batch_finish {B T} n.
Arguments get_date {B T} block.
Arguments timer_batch_status {B T} got date.
Arguments datetime_now {B T}.
Arguments log_memory_usage {B T}.
Arguments OPSM_log_current {B T} label.
Arguments FSM_log_current {B T} label.
Arguments WSM_log_current {B T} label.
Arguments OPSM_log_global {B T} label.
Arguments FSM_log_global {B T} label.
Arguments WSM_log_global {B T} label.
Arguments OPSM_next_blocks {B T}.
Arguments FSM_next_blocks {B T}.
Arguments WSM_next_blocks {B T}.
Arguments PC_broadcast {B T} sync_current_block.
Arguments set_exception_thrown {B T}.

(** What the consumer does to the outside: a call with its answer, or
    the line of [log.exception]. *)
Inductive sync_event (B T : Type) : Type :=
| Did {R : Type} (c : syncE B T R) (answer : result R)
| Log_exception (msg : string).
Arguments Did {B T R} c answer.
Arguments Log_exception {B T} msg.

(** The truth value of a Python value in a condition. *)
Definition json_truthy (v : json) : bool :=
  match v with
  | JNull => false
  | JBool b => b
  | JInt n => negb (n =? 0)
  | JStr s => negb (s == "")
  | JList l => match l with [] => false | _ :: _ => true end
  | JDict kvs => match kvs with [] => false | _ :: _ => true end
  end.

Section Consumer.

Variables B T V : Type.

(** The collaborators. *)
Variable sext : forall R, syncE B T R -> V -> result R * V.

(** [a - b > 1.0] on readings of the clock. *)
Variable longer_than_1s : T -> T -> bool.

(** The variables of [_block_consumer] that [print_summary] reads when
    it is called, and the world. *)
Record frame : Type := Frame {
  rate : json;
  sync_world : V }.

Record ran (A : Type) : Type := Ran {
  outcome : result A;
  left_in : frame;
  did : list (sync_event B T) }.
Arguments Ran {A} outcome left_in did.
Arguments outcome {A} r.
Arguments left_in {A} r.
Arguments did {A} r.

Definition Sync (A : Type) : Type := frame -> ran A.

#[global] Instance Sync_ret : MRet Sync := fun A a f => Ran (Ok a) f [].
#[global] Instance Sync_bind : MBind Sync := fun A B' k m f =>
  let r := m f in
  match outcome r with
  | Ok a => let r' := k a (left_in r) in Ran (outcome r') (left_in r') (did r ++ did r')
  | Raise e => Ran (Raise e) (left_in r) (did r)
  end.

Definition sync_raise {A} (e : exn) : Sync A := fun f => Ran (Raise e) f [].
Definition sync_lift {A} (r : result A) : Sync A := fun f => Ran r f [].
Definition sync_try {A} (m : Sync A) : Sync (result A) := fun f =>
  let r := m f in Ran (Ok (outcome r)) (left_in r) (did r).
Definition sync_call {R} (c : syncE B T R) : Sync R := fun f =>
  let '(r, w) := sext R c (sync_world f) in
  Ran r (Frame (rate f) w) [Did c r].
Definition get_rate : Sync json := fun f => Ran (Ok (rate f)) f [].
Definition set_rate (v : json) : Sync unit := fun f =>
  Ran (Ok tt) (Frame v (sync_world f)) [].
Definition log_exception (msg : string) : Sync unit := fun f =>
  Ran (Ok tt) f [Log_exception msg].
Definition sync_assert (b : bool) : Sync unit :=
  if b then mret tt else sync_raise (AssertionError "").

Definition LIMIT_FOR_PROCESSED_BLOCKS : Z := 1000.

Definition print_summary (time_start : T) : Sync unit :=
  stop ← sync_call (OPSM_stop time_start);
  wtm ← sync_call (WSM_log_global "Total waiting times");
  ftm ← sync_call (FSM_log_global "Total flush times");
  otm ← sync_call (OPSM_log_global "All operations present in the processed blocks");
  rate ← get_rate;
  if json_truthy rate then
    sync_lift (subscript rate "max");;
    sync_lift (subscript rate "max_from");;
    sync_lift (subscript rate "max_to");;
    sync_lift (subscript rate "min");;
    sync_lift (subscript rate "min_from");;
    sync_lift (subscript rate "min_to");;
    mret tt
  else mret tt.

(** The [while lbound <= ubound] loop; it gives back [num].  Each round
    moves [lbound] up, so the loop ends. *)
Equations? consume (is_debug : bool) (is_massive_sync : bool) (ubound : Z)
    (lbound : Z) (num : Z) : Sync Z
  by wf (Z.to_nat (ubound - lbound + 1)) lt :=
consume is_debug is_massive_sync ubound lbound num with Z_le_dec lbound ubound := {
  | right _ => mret num
  | left _ =>
      let number_of_blocks_to_proceed :=
        Z.min LIMIT_FOR_PROCESSED_BLOCKS (ubound - lbound + 1) in
      time_before_waiting_for_data ← sync_call perf;
      blocks ← sync_call (provider_get number_of_blocks_to_proceed);
      go ← sync_call can_continue_thread;
      if negb go then mret num (* break *)
      else
        sync_assert (len blocks =? number_of_blocks_to_proceed);;
        let to := Z.min (lbound + number_of_blocks_to_proceed) (ubound + 1) in
        sync_call timer_batch_start;;
        block_start ← sync_call perf;
        sync_call (Blocks_process_multi blocks is_massive_sync);;
        block_end ← sync_call perf;
        sync_call timer_batch_lap;;
        sync_call (timer_batch_finish (len blocks));;
        time_current ← sync_call perf;
        date ← match last blocks with
               | Some block => sync_call (get_date block)
               | None => sync_raise (Failure "IndexError: list index out of range")
               end;
        sync_call (timer_batch_status
                     (Z.min (lbound + number_of_blocks_to_proceed - 1) ubound) date);;
        sync_call datetime_now;;
        sync_call log_memory_usage;;
        rate ← get_rate;
        rate ← sync_call (minmax rate (len blocks)
                            (between time_current time_before_waiting_for_data) lbound);
        set_rate rate;;
        (if longer_than_1s block_end block_start || is_debug then
           sync_call (OPSM_log_current "Operations present in the processed blocks");;
           sync_call (FSM_log_current "Flushing times");;
           sync_call (WSM_log_current "Waiting times");;
           mret tt
         else mret tt);;
        sync_call OPSM_next_blocks;;
        sync_call FSM_next_blocks;;
        sync_call WSM_next_blocks;;
        sync_call (PC_broadcast to);;
        go ← sync_call can_continue_thread;
        if negb go then mret (num + 1) (* break *)
        else consume is_debug is_massive_sync ubound to (num + 1) }.
Proof. subst to number_of_blocks_to_proceed. unfold LIMIT_FOR_PROCESSED_BLOCKS. lia. Qed.

Definition _block_consumer (is_massive_sync : bool) (lbound ubound : Z) : Sync Z :=
  is_debug ← sync_call (log_isEnabledFor 10);
  let num := 0 in
  time_start ← sync_call OPSM_start;
  set_rate (JDict []);;
  rate ← get_rate;
  rate ← sync_call (minmax rate 0 literal_1 0);
  set_rate rate;;
  tried ← sync_try
    (sync_call (Blocks_set_end_of_sync_lib ubound);;
     let count := ubound - lbound + 1 in
     sync_call (Timer count);;
     consume is_debug is_massive_sync ubound lbound num);
  match tried with
  | Raise e =>
      log_exception "Exception caught during processing blocks...";;
      sync_call set_exception_thrown;;
      print_summary time_start;;
      sync_raise e
  | Ok num =>
      print_summary time_start;;
      mret num
  end.

End Consumer.

Arguments Frame {V} rate sync_world.
Arguments rate {V} f.
Arguments sync_world {V} f.
Arguments Ran {B T V A} outcome left_in did.
Arguments outcome {B T V A} r.
Arguments left_in {B T V A} r.
Arguments did {B T V A} r.
Arguments sync_raise {B T V A} e f.
Arguments sync_lift {B T V A} r f.
Arguments sync_try {B T V A} m f.
Arguments sync_call {B T V} sext {R} c f.
Arguments get_rate {B T V} f.
Arguments set_rate {B T V} v f.
Arguments log_exception {B T V} msg f.
Arguments sync_assert {B T V} b f.
Arguments print_summary {B T V} sext time_start f.
Arguments consume {B T V} sext longer_than_1s is_debug is_massive_sync ubound lbound num f.
Arguments _block_consumer {B T V} sext longer_than_1s is_massive_sync lbound ubound f.

(** What an event asks of the provider, hands to the batch driver, or
    broadcasts. *)
Definition requested {B T} (e : sync_event B T) : option Z :=
  match e with
  | Did c _ =>
      match c with
      | provider_get number_of_blocks => Some number_of_blocks
      | _ => None
      end
  | _ => None
  end.

Definition processed_batch {B T} (e : sync_event B T) : option (list B) :=
  match e with
  | Did c _ =>
      match c with
      | Blocks_process_multi blocks _ => Some blocks
      | _ => None
      end
  | _ => None
  end.

Definition broadcast {B T} (e : sync_event B T) : option Z :=
  match e with
  | Did c _ =>
      match c with
      | PC_broadcast sync_current_block => Some sync_current_block
      | _ => None
      end
  | _ => None
  end.

(** [swpa m step P f q]: run from [f], what [m] does is accepted from
    phase [q], and [P] holds of the outcome, the frame left and the phase
    reached. *)
Definition swpa {B T V A Q} (m : Sync B T V A)
    (step : Q -> sync_event B T -> Q -> Prop)
    (P : result A -> frame V -> Q -> Prop) (f : frame V) (q : Q) : Prop :=
  exists q', accepts step q (did (m f)) q'
             /\ P (outcome (m f)) (left_in (m f)) q'.

(** Requests, batches and broadcasts stay within the range
    [lbound .. ubound] and the limit of 1000. *)
Definition within {B T} (lbound ubound : Z) (e : sync_event B T) : Prop :=
  (forall n, requested e = Some n ->
     1 <= n <= 1000 /\ n <= ubound - lbound + 1)
  /\ (forall blocks, processed_batch e = Some blocks -> 1 <= len blocks <= 1000)
  /\ (forall b, broadcast e = Some b -> lbound < b <= ubound + 1).

(** The sizes of the batches that cover [count] blocks: as many full
    batches as fit, then the rest. *)
Definition batch_sizes (count : Z) : list Z :=
  replicate (Z.to_nat (count / LIMIT_FOR_PROCESSED_BLOCKS)) LIMIT_FOR_PROCESSED_BLOCKS
  ++ (if count mod LIMIT_FOR_PROCESSED_BLOCKS =? 0 then []
      else [count mod LIMIT_FOR_PROCESSED_BLOCKS]).

(** A [rate] that [print_summary] can print: empty, or with the six
    entries it reads. *)
Definition printable (rate : json) : Prop :=
  json_truthy rate = true ->
  forall k, k ∈ ["max"; "max_from"; "max_to"; "min"; "min_from"; "min_to"] ->
            is_ok (subscript rate k) = true.

(** Collaborators that cooperate: every call is answered, the latch is
    never set, the provider hands out as many blocks as it is asked
    for, and [minmax] keeps [rate] printable. *)
Definition cooperative {B T V} (sext : forall R, syncE B T R -> V -> result R * V)
  : Prop :=
  (forall R (c : syncE B T R) w, is_ok (sext R c w).1 = true)
  /\ (forall w, (sext _ can_continue_thread w).1 = Ok true)
  /\ (forall n w blocks,
        0 <= n -> (sext _ (provider_get n) w).1 = Ok blocks -> len blocks = n)
  /\ (forall rate n elapsed lbound w rate',
        (sext _ (minmax rate n elapsed lbound) w).1 = Ok rate' -> printable rate').

(** The requests seen and the sizes of the batches processed so far. *)
Definition tally {B T} (q : list Z * list Z) (e : sync_event B T)
    (q' : list Z * list Z) : Prop :=
  q' = (q.1 ++ match requested e with Some n => [n] | None => [] end,
        q.2 ++ match processed_batch e with
               | Some blocks => [len blocks]
               | None => []
               end).

(** [can_continue_thread()] answered [False]: the latch is set. *)
Definition latch_set {B T} (e : sync_event B T) : bool :=
  match e with
  | Did c answer =>
      match c in syncE _ _ R return result R -> bool with
      | can_continue_thread =>
          fun answer =>
            match answer with
            | Ok go => negb go
            | Raise _ => false
            end
      | _ => fun _ => false
      end answer
  | _ => false
  end.

(** The event asks the provider for blocks or hands a batch to
    [Blocks.process_multi]. *)
Definition works {B T} (e : sync_event B T) : bool :=
  match requested e, processed_batch e with
  | None, None => false
  | _, _ => true
  end.

(** The consumer seen from the latch: whether it has been found set, and
    how many batches went to [Blocks.process_multi]; once it is set,
    nothing asks for blocks or processes a batch. *)
Definition latched {B T} (q : bool * Z) (e : sync_event B T) (q' : bool * Z) : Prop :=
  (works e = true -> q.1 = false)
  /\ q' = (q.1 || latch_set e,
           q.2 + match processed_batch e with
                 | Some _ => 1
                 | None => 0
                 end).

(** [Blocks.process_multi] raised. *)
Definition batch_failed {B T} (e : sync_event B T) : bool :=
  match e with
  | Did c answer =>
      match c in syncE _ _ R return result R -> bool with
      | Blocks_process_multi _ _ => fun answer => negb (is_ok answer)
      | _ => fun _ => false
      end answer
  | _ => false
  end.

Definition is_log_exception {B T} (e : sync_event B T) : bool :=
  match e with
  | Log_exception _ => true
  | _ => false
  end.

Definition is_set_exception_thrown {B T} (e : sync_event B T) : bool :=
  match e with
  | Did c _ =>
      match c with
      | set_exception_thrown => true
      | _ => false
      end
  | _ => false
  end.

(** The consumer seen from a failing batch.  Phase 0: no batch has
    failed; 1: one has, and the next event is the line of
    [log.exception]; 2: the next event is [set_exception_thrown()];
    3: the latch of exceptions is set, and no batch fails any more. *)
Definition failing {B T} (q : nat) (e : sync_event B T) (q' : nat) : Prop :=
  match q with
  | O => q' = if batch_failed e then 1%nat else 0%nat
  | S O => is_log_exception e = true /\ q' = 2%nat
  | S (S O) => is_set_exception_thrown e = true /\ q' = 3%nat
  | _ => batch_failed e = false /\ q' = 3%nat
  end.

(** Collaborators of the consumer over blocks and clock readings that
    are numbers: every call is answered; [go] is the answer of the
    latch and [driver] that of [Blocks.process_multi]. *)
Definition answering (go : bool) (driver : result unit)
    (R : Type) (c : syncE Z Z R) (w : unit) : result R * unit :=
  (match c in syncE _ _ R return result R with
   | log_isEnabledFor _ => Ok false
   | OPSM_start => Ok 0
   | OPSM_stop _ => Ok 0
   | minmax _ _ _ _ => Ok (JDict [])
   | Blocks_set_end_of_sync_lib _ => Ok tt
   | Timer _ => Ok tt
   | perf => Ok 0
   | provider_get number_of_blocks => Ok (seqZ 1 number_of_blocks)
   | can_continue_thread => Ok go
   | timer_batch_start => Ok tt
   | Blocks_process_multi _ _ => driver
   | timer_batch_lap => Ok tt
   | timer_batch_finish _ => Ok tt
   | get_date _ => Ok "2016-03-24T16:05:00"
   | timer_batch_status _ _ => Ok ""
   | datetime_now => Ok ""
   | log_memory_usage => Ok ""
   | OPSM_log_current _ => Ok 0
   | FSM_log_current _ => Ok 0
   | WSM_log_current _ => Ok 0
   | OPSM_log_global _ => Ok 0
   | FSM_log_global _ => Ok 0
   | WSM_log_global _ => Ok 0
   | OPSM_next_blocks => Ok tt
   | FSM_next_blocks => Ok tt
   | WSM_next_blocks => Ok tt
   | PC_broadcast _ => Ok tt
   | set_exception_thrown => Ok tt
   end, w).

Definition never_slow (later earlier : Z) : bool := false.

Definition idle : frame unit := Frame JNull tt.

(** ** [setup.py]: the revision in a name of [git describe] *)

(** A character that [[0-9a-f]] matches. *)
Definition is_lower_hex (c : ascii) : bool :=
  let n := Z.of_N (N_of_ascii c) in
  ((48 <=? n) && (n <=? 57)) || ((97 <=? n) && (n <=? 102)).

Fixpoint all_chars (p : ascii -> bool) (s : string) : bool :=
  match s with
  | String c rest => p c && all_chars p rest
  | EmptyString => true
  end.

(** [fullmatch('^g[0-9a-f]{8}$', s) is not None] *)
Definition is_git_sha (s : string) : bool :=
  match s with
  | String c rest =>
      Ascii.eqb c "g" && (String.length rest =? 8)%nat && all_chars is_lower_hex rest
  | EmptyString => false
  end.

(** [s.lstrip(chars)] for a one-character [chars] *)
Fixpoint lstrip (c : ascii) (s : string) : string :=
  match s with
  | String c' rest => if Ascii.eqb c' c then lstrip c rest else s
  | EmptyString => s
  end.

(** [GIT_REVISION] is the module's global of that name, ['nogitrev']
    until [provide_git_revision] has returned. *)
Definition get_git_revision (GIT_REVISION : string) (s : string) : string :=
  let git_revision := GIT_REVISION in
  if is_git_sha s then lstrip "g" s else git_revision.

(** * Properties *)

(** ** Counters *)

(** C10. [merge_ops_stats od1 od2] holds, at every key, the sum of the
    two counts when the key is in both maps, the count of [od2] when it
    is only there, the count of [od1] when it is only there (and nothing
    when it is in neither); with [None] for [od2] the result is [od1]. *)
Theorem merge_ops_stats_spec (od1 od2 : gmap string Z) :
  (forall k, merge_ops_stats od1 (Some od2) !! k = merged_count (od1 !! k) (od2 !! k))
  /\ merge_ops_stats od1 None = od1.
Proof.
  split; [|reflexivity].
  unfold merge_ops_stats.
  apply (map_fold_weak_ind
           (fun (acc : gmap string Z) (m : gmap string Z) =>
              forall k, acc !! k = merged_count (od1 !! k) (m !! k))).
  - intros k. rewrite lookup_empty. destruct (od1 !! k); reflexivity.
  - intros i x m acc Hi IH k.
    destruct (decide (i = k)) as [->|Hne].
    + rewrite lookup_insert_eq. specialize (IH k). rewrite Hi in IH.
      destruct (acc !! k) as [c|] eqn:Hacc; rewrite lookup_insert_eq;
        destruct (od1 !! k); simpl in *; congruence.
    + rewrite (lookup_insert_ne m) by done.
      destruct (acc !! i); rewrite lookup_insert_ne by done; apply IH.
Qed.

(** ** The virtual-ops preparer *)

Lemma prepare_vop_vote_raises py_repr vop acc :
  type vop = "effective_comment_vote_operation" ->
  is_ok (prepare_vop py_repr vop acc) = false.
Proof.
  intros Ht. destruct acc as [vote_ops comment_payout_ops].
  unfold prepare_vop. rewrite Ht. cbn [String.eqb Ascii.eqb Bool.eqb].
  unfold mbind, result_bind.
  destruct (subscript (value vop) "author"); [|reflexivity].
  destruct (subscript (value vop) "permlink"); [|reflexivity].
  destruct (subscript (value vop) "pending_payout"); reflexivity.
Qed.

Lemma fold_result_raises {A B} (body : A -> B -> result B) l x :
  x ∈ l -> (forall acc, is_ok (body x acc) = false) ->
  forall acc, is_ok (fold_result body l acc) = false.
Proof.
  intros Hin Hx. induction l as [|y l IH]; intros acc.
  - inversion Hin.
  - cbn [fold_result]. unfold mbind, result_bind.
    apply elem_of_cons in Hin as [<-|Hin].
    + specialize (Hx acc). destruct (body x acc); [discriminate|reflexivity].
    + destruct (body y acc); [|reflexivity]. apply IH, Hin.
Qed.

(** No input that holds an [effective_comment_vote_operation] gets an
    answer from [prepare_vops]. *)
Lemma prepare_vops_vote_never_returns py_repr vopsList date vop :
  vop ∈ vopsList ->
  type vop = "effective_comment_vote_operation" ->
  is_ok (prepare_vops py_repr vopsList date) = false.
Proof.
  intros Hin Ht. unfold prepare_vops.
  apply (fold_result_raises _ _ vop); [assumption|].
  intros acc. apply prepare_vop_vote_raises, Ht.
Qed.

(** C1. On a list holding one [effective_comment_vote_operation] with an
    author, a permlink and a pending payout, [prepare_vops] does not
    return the two outputs: [vote_ops.append(vop)] raises
    [AttributeError], [vote_ops] being a [dict]. *)
Theorem prepare_vops_effective_vote_raises (py_repr : json -> string)
    (date : option string) :
  prepare_vops py_repr [vote_vop] date
  = Raise (AttributeError "'dict' object has no attribute 'append'").
Proof. reflexivity. Qed.

(** ** The block store: [_flush_blocks] *)

Lemma foldl_snoc {A} (l acc : list A) :
  foldl (fun values block => values ++ [block]) acc l = acc ++ l.
Proof.
  revert acc. induction l as [|x l IH]; intros acc; cbn [foldl].
  - symmetry. apply app_nil_r.
  - rewrite IH, <- app_assoc. reflexivity.
Qed.

Lemma has_num_elem_of num tbl :
  has_num num tbl = true <-> num ∈ map h_num tbl.
Proof.
  unfold has_num. rewrite existsb_exists, list_elem_of_fmap.
  split.
  - intros (r & Hr & Hn). exists r. split; [symmetry; lia|].
    apply list_elem_of_In, Hr.
  - intros (r & -> & Hr). exists r. split; [apply list_elem_of_In, Hr|lia].
Qed.

(** The rows of an INSERT go in when, and only when, no [num] occurs
    twice among them or is in the table already; they are then appended
    to the table in the order of the statement. *)
Lemma insert_rows_ok values : forall tbl tbl',
  insert_rows values tbl = Ok tbl'
  <-> tbl' = tbl ++ values
      /\ NoDup (map h_num values)
      /\ forall num, num ∈ map h_num values -> num ∉ map h_num tbl.
Proof.
  induction values as [|row rest IH]; intros tbl tbl'; cbn [insert_rows map].
  - rewrite app_nil_r. split.
    + intros [= <-]. split; [reflexivity|]. split; [constructor|].
      intros num Hnum. inversion Hnum.
    + intros [-> _]. reflexivity.
  - destruct (has_num (h_num row) tbl) eqn:Hhas.
    + split; [discriminate|]. intros (_ & _ & Hfresh).
      apply has_num_elem_of in Hhas.
      destruct (Hfresh (h_num row)); [left|assumption].
    + assert (h_num row ∉ map h_num tbl) as Hrow.
      { intros Hin. apply has_num_elem_of in Hin. congruence. }
      rewrite IH, <- app_assoc. cbn [app]. rewrite NoDup_cons.
      split.
      * intros (-> & Hnd & Hfresh). split; [reflexivity|].
        split; [split; [|exact Hnd]|].
        -- intros Hin. apply (Hfresh _ Hin).
           rewrite map_app, elem_of_app. right. left.
        -- intros num Hnum. apply elem_of_cons in Hnum as [->|Hnum]; [exact Hrow|].
           intros Hin. apply (Hfresh _ Hnum).
           rewrite map_app, elem_of_app. left. exact Hin.
      * intros (-> & [Hnew Hnd] & Hfresh). split; [reflexivity|].
        split; [exact Hnd|].
        intros num Hnum. rewrite map_app, elem_of_app. cbn [map].
        rewrite list_elem_of_singleton. intros [Hin| ->].
        -- apply (Hfresh num); [right; exact Hnum|exact Hin].
        -- apply Hnew, Hnum.
Qed.

Lemma insert_blocks_ok values tbl tbl' :
  insert_blocks values tbl = Ok tbl'
  <-> tbl' = tbl ++ values /\ insertable values tbl.
Proof.
  unfold insertable. destruct values as [|row rest].
  - cbn [insert_blocks]. split; [discriminate|]. intros (_ & H & _). destruct H.
    reflexivity.
  - unfold insert_blocks. rewrite insert_rows_ok. split.
    + intros (-> & Hnd & Hfresh). repeat split; [discriminate|exact Hnd|exact Hfresh].
    + intros (-> & _ & Hnd & Hfresh). repeat split; [exact Hnd|exact Hfresh].
Qed.

Lemma _flush_blocks_run {W} (s : state W) :
  _flush_blocks s
  = match insert_blocks (blocks_to_flush s) (hive_blocks s) with
    | Ok tbl =>
        Out (Ok tt) (set_blocks_to_flush [] (set_hive_blocks tbl s))
            [Query (INSERT_blocks (blocks_to_flush s))]
    | Raise e => Out (Raise e) s [Query (INSERT_blocks (blocks_to_flush s))]
    end.
Proof.
  unfold _flush_blocks, mbind, M_bind, bind, get, emit, modify, lift.
  cbn. rewrite (foldl_snoc _ []). cbn [app].
  destruct (insert_blocks (blocks_to_flush s) (hive_blocks s));
    cbn; destruct s; reflexivity.
Qed.

(** A flush that returns has appended the staged headers to the table
    and emptied the buffer. *)
Lemma _flush_blocks_returns {W} (s : state W) :
  res (_flush_blocks s) = Ok tt ->
  insertable (blocks_to_flush s) (hive_blocks s)
  /\ hive_blocks (post (_flush_blocks s)) = hive_blocks s ++ blocks_to_flush s
  /\ blocks_to_flush (post (_flush_blocks s)) = [].
Proof.
  rewrite _flush_blocks_run.
  destruct (insert_blocks (blocks_to_flush s) (hive_blocks s)) as [tbl|e] eqn:Hins;
    [|discriminate].
  apply insert_blocks_ok in Hins as [-> Hok]. intros _. repeat split; apply Hok.
Qed.



(** When the headers were staged in ascending [num] order and the table
    accepts them, the flush is as the specification has it. *)
Lemma _flush_blocks_ascending {W} (s : state W) :
  ascending (map h_num (blocks_to_flush s)) = true ->
  insertable (blocks_to_flush s) (hive_blocks s) ->
  flush_in_ascending_order s.
Proof.
  intros Hasc Hok. exists (blocks_to_flush s).
  assert (insert_blocks (blocks_to_flush s) (hive_blocks s)
          = Ok (hive_blocks s ++ blocks_to_flush s)) as Hins
    by (apply insert_blocks_ok; split; [reflexivity|exact Hok]).
  rewrite _flush_blocks_run, Hins.
  repeat split; [reflexivity|exact Hasc].
Qed.


(** ** [int(s, 16)] on hexadecimal digits, and [_push] *)

Ltac each_ascii c :=
  destruct c as [[] [] [] [] [] [] [] []].

Lemma hex_digit_plain c d :
  hex_digit c = Some d ->
  0 <= d < 16
  /\ is_space c = false
  /\ Ascii.eqb c "_" = false
  /\ Ascii.eqb c "x" = false
  /\ Ascii.eqb c "X" = false
  /\ Ascii.eqb c "+" = false
  /\ Ascii.eqb c "-" = false.
Proof.
  each_ascii c; cbv; intros H; try discriminate H;
    injection H as <-; repeat split; congruence.
Qed.

Lemma hex_run_digits s : forall acc digits n,
  hex_value s acc = Some n ->
  hex_run s acc digits false = Some (n, (digits + String.length s)%nat, EmptyString).
Proof.
  induction s as [|c s IH]; intros acc digits n H; cbn in *.
  - injection H as <-. rewrite Nat.add_0_r. reflexivity.
  - destruct (hex_digit c) as [d|] eqn:Hd; [|discriminate].
    apply hex_digit_plain in Hd as (_ & _ & -> & _).
    rewrite (IH _ (S digits) n H). do 3 f_equal. lia.
Qed.

Lemma int16_hex c s n :
  hex_value (String c s) 0 = Some n -> int16 (String c s) = Ok n.
Proof.
  intros H. pose proof H as H0. cbn in H0.
  destruct (hex_digit c) as [d|] eqn:Hd; [|discriminate].
  pose proof (hex_digit_plain _ _ Hd) as (_ & Hsp & Hus & _ & _ & Hplus & Hminus).
  unfold int16. cbn [skip_spaces]. rewrite Hsp.
  cbn [skip_sign]. rewrite Hplus, Hminus.
  assert (skip_prefix (String c s) = String c s) as ->.
  { destruct s as [|c' s']; [reflexivity|].
    cbn in H0. destruct (hex_digit c') eqn:Hd'; [|discriminate].
    apply hex_digit_plain in Hd' as (_ & _ & _ & Hx & HX & _).
    unfold skip_prefix. rewrite Hx, HX, andb_false_r. reflexivity. }
  cbn [starts_with]. rewrite Hus.
  rewrite (hex_run_digits _ _ 0%nat n H). cbn. f_equal. lia.
Qed.

Lemma unhexlify_hex_value bytes : forall t acc,
  unhexlify t = Some bytes ->
  hex_value t acc = Some (foldl (fun a b => a * 256 + b) acc bytes)
  /\ Forall (fun b => 0 <= b < 256) bytes.
Proof.
  induction bytes as [|b bytes IH]; intros t acc H.
  - destruct t as [|c1 [|c2 rest]]; cbn in H; [split; [reflexivity|constructor]|discriminate|].
    destruct (hex_digit c1), (hex_digit c2), (unhexlify rest); discriminate.
  - destruct t as [|c1 [|c2 rest]]; cbn in H; [discriminate..|].
    destruct (hex_digit c1) as [hi|] eqn:H1; [|discriminate].
    destruct (hex_digit c2) as [lo|] eqn:H2; [|discriminate].
    destruct (unhexlify rest) as [bs|] eqn:Hr; [|discriminate].
    injection H as <- <-.
    destruct (IH rest (16 * (16 * acc + hi) + lo) Hr) as [Hv Hb].
    pose proof (hex_digit_plain _ _ H1) as [? _].
    pose proof (hex_digit_plain _ _ H2) as [? _].
    split.
    + cbn [hex_value foldl]. rewrite H1, H2, Hv. do 2 f_equal. lia.
    + constructor; [lia|assumption].
Qed.

Lemma num_of_hash_int16 hash n :
  num_of_hash hash = Some n ->
  int16 (String.substring 0 8 hash) = Ok n /\ 0 <= n < 2 ^ 32.
Proof.
  unfold num_of_hash. intros H.
  destruct (unhexlify (String.substring 0 8 hash)) as [bytes|] eqn:Hu; [|discriminate].
  destruct bytes as [|b0 [|b1 [|b2 [|b3 [|]]]]]; try discriminate H.
  injection H as <-.
  destruct (unhexlify_hex_value _ _ 0 Hu) as [Hv Hb].
  repeat match goal with H : Forall _ (_ :: _) |- _ => inversion_clear H end.
  split; [|lia].
  destruct (String.substring 0 8 hash) as [|c t]; [discriminate Hu|].
  rewrite (int16_hex _ _ _ Hv). cbn. f_equal. lia.
Qed.

Lemma _push_run {W} (block : block) (s : state W) num :
  int16 (String.substring 0 8 (block_id block)) = Ok num ->
  _push block s
  = Out (Ok num)
        (set_blocks_to_flush
           (blocks_to_flush s ++
            [{| h_num := num;
                h_hash := block_id block;
                h_prev := previous block;
                h_txs := len (transactions block);
                h_ops := sum (map (fun tx => len (operations tx)) (transactions block));
                h_date := timestamp block |}]) s)
        [].
Proof.
  intros H. unfold _push, mbind, M_bind, bind, lift, modify. cbn. rewrite H.
  reflexivity.
Qed.

Lemma _push_raise {W} (block : block) (s : state W) e :
  int16 (String.substring 0 8 (block_id block)) = Raise e ->
  _push block s = Out (Raise e) s [].
Proof.
  intros H. unfold _push, mbind, M_bind, bind, lift, modify. cbn. rewrite H.
  reflexivity.
Qed.

(** C9. When the first 8 characters of [block_id] are hexadecimal digits,
    [_push] returns the big-endian 32-bit integer they spell and stages a
    header with that [num] and with [hash = block_id]; the flush sends
    that header in its insert, and a flush that returns has written it
    to [hive_blocks]. *)
Theorem _push_num_big_endian {W} (block : block) (s : state W) (n : Z) :
  num_of_hash (block_id block) = Some n ->
  let o := _push block s in
  res o = Ok n
  /\ (exists staged,
        blocks_to_flush (post o) = blocks_to_flush s ++ [staged]
        /\ h_num staged = n
        /\ h_hash staged = block_id block
        /\ evs (_flush_blocks (post o))
           = [Query (INSERT_blocks (blocks_to_flush s ++ [staged]))]
        /\ (res (_flush_blocks (post o)) = Ok tt ->
            staged ∈ hive_blocks (post (_flush_blocks (post o)))))
  /\ 0 <= n < 2 ^ 32.
Proof.
  intros H. apply num_of_hash_int16 in H as [H Hn]. cbv zeta.
  rewrite (_push_run _ _ _ H). cbn [res post]. split; [reflexivity|]. split; [|exact Hn].
  eexists. split; [reflexivity|]. split; [reflexivity|]. split; [reflexivity|].
  split.
  - rewrite _flush_blocks_run. cbn [blocks_to_flush set_blocks_to_flush].
    destruct (insert_blocks _ _); reflexivity.
  - intros Hret. apply _flush_blocks_returns in Hret as (_ & -> & _).
    cbn [blocks_to_flush set_blocks_to_flush].
    rewrite !elem_of_app, list_elem_of_singleton. auto.
Qed.

Lemma _push_num_big_endian_witness :
  num_of_hash (block_id block_1f4) = Some 500
  /\ res (_push block_1f4 fresh) = Ok 500
  /\ res (_flush_blocks (post (_push block_1f4 fresh))) = Ok tt
  /\ exists staged,
       h_num staged = 500
       /\ staged ∈ hive_blocks (post (_flush_blocks (post (_push block_1f4 fresh)))).
Proof.
  split; [reflexivity|].
  destruct (_push_num_big_endian block_1f4 fresh 500 eq_refl)
    as (Hres & (staged & _ & Hnum & _ & _ & Hin) & _).
  split; [exact Hres|]. split; [reflexivity|].
  exists staged. split; [exact Hnum|]. apply Hin. reflexivity.
Defined.

(** The flush after a [_push] can be rejected: over a table that holds a
    block 500 already, the header of block 500 is sent in the insert and
    refused; the table is as it was and the header stays staged. *)
Lemma _push_flush_rejected :
  let o := _flush_blocks (post (_push block_1f4 holds_500)) in
  is_ok (res o) = false
  /\ hive_blocks (post o) = hive_blocks holds_500
  /\ map h_hash (blocks_to_flush (post o)) = [block_id block_1f4].
Proof. vm_compute. repeat split. Qed.

(** ** Reasoning about the monad *)

Section Logic.

Context {W : Type}.
Implicit Types (s : state W) (Ev : event -> Prop).

Lemma bind_run {A B} (m : M W A) (f : A -> M W B) s :
  (m ≫= f) s
  = match res (m s) with
    | Ok a => Out (res (f a (post (m s)))) (post (f a (post (m s))))
                  (evs (m s) ++ evs (f a (post (m s))))
    | Raise e => Out (Raise e) (post (m s)) (evs (m s))
    end.
Proof. reflexivity. Qed.

Lemma bind_run_ok {A B} (m : M W A) (f : A -> M W B) s a :
  res (m s) = Ok a ->
  (m ≫= f) s
  = Out (res (f a (post (m s)))) (post (f a (post (m s))))
        (evs (m s) ++ evs (f a (post (m s)))).
Proof. intros H. rewrite bind_run, H. reflexivity. Qed.

Lemma bind_run_raise {A B} (m : M W A) (f : A -> M W B) s e :
  res (m s) = Raise e ->
  (m ≫= f) s = Out (Raise e) (post (m s)) (evs (m s)).
Proof. intros H. rewrite bind_run, H. reflexivity. Qed.

Lemma wp_conseq {A} (m : M W A) Ev (Q Q' : result A -> state W -> Prop) s :
  wp m Ev Q s -> (forall r s', Q r s' -> Q' r s') -> wp m Ev Q' s.
Proof. intros [? ?] HQ. split; auto. Qed.

Lemma wp_events {A} (m : M W A) (Ev Ev' : event -> Prop) Q s :
  wp m Ev Q s -> (forall e, Ev e -> Ev' e) -> wp m Ev' Q s.
Proof. intros [H ?] HE. split; [|assumption]. eapply Forall_impl; eauto. Qed.

Lemma wp_bind {A B} (m : M W A) (f : A -> M W B) Ev Q s :
  wp m Ev (fun r s' =>
             match r with
             | Ok a => wp (f a) Ev Q s'
             | Raise e => Q (Raise e) s'
             end) s ->
  wp (m ≫= f) Ev Q s.
Proof.
  intros [Hev H]. unfold wp. rewrite bind_run.
  destruct (res (m s)) as [a|e]; cbn [evs res post].
  - destruct H as [Hev' H]. split; [apply Forall_app; auto|assumption].
  - auto.
Qed.

Lemma wp_ret {A} (a : A) Ev (Q : result A -> state W -> Prop) s :
  Q (Ok a) s -> wp (ret a) Ev Q s.
Proof. intros H. split; [constructor|exact H]. Qed.

Lemma wp_raise {A} e Ev (Q : result A -> state W -> Prop) s :
  Q (Raise e) s -> wp (raise e) Ev Q s.
Proof. intros H. split; [constructor|exact H]. Qed.

Lemma wp_lift {A} (r : result A) Ev (Q : result A -> state W -> Prop) s :
  Q r s -> wp (lift r) Ev Q s.
Proof. intros H. split; [constructor|exact H]. Qed.

Lemma wp_get {A} (f : state W -> A) Ev (Q : result A -> state W -> Prop) s :
  Q (Ok (f s)) s -> wp (get f) Ev Q s.
Proof. intros H. split; [constructor|exact H]. Qed.

Lemma wp_modify (g : state W -> state W) Ev (Q : result unit -> state W -> Prop) s :
  Q (Ok tt) (g s) -> wp (modify g) Ev Q s.
Proof. intros H. split; [constructor|exact H]. Qed.

Lemma wp_emit e Ev (Q : result unit -> state W -> Prop) s :
  Ev e -> Q (Ok tt) s -> wp (emit e) Ev Q s.
Proof. intros He H. split; [repeat constructor; exact He|exact H]. Qed.

Lemma wp_log level fmt args Ev (Q : result unit -> state W -> Prop) s :
  Ev (Log level fmt args) -> Q (Ok tt) s -> wp (log level fmt args) Ev Q s.
Proof. apply wp_emit. Qed.

Lemma wp_py_assert b msg Ev (Q : result unit -> state W -> Prop) s :
  (b = true -> Q (Ok tt) s) ->
  (b = false -> Q (Raise (AssertionError msg)) s) ->
  wp (py_assert b msg) Ev Q s.
Proof.
  intros Ht Hf. unfold py_assert. destruct b; [apply wp_ret|apply wp_raise]; auto.
Qed.

Lemma call_run ext {R} (c : extE R) s :
  call ext c s
  = Out (ext R c (world s)).1 (set_world (ext R c (world s)).2 s) [Call c].
Proof. unfold call. destruct (ext R c (world s)); reflexivity. Qed.

Lemma wp_call ext {R} (c : extE R) Ev (Q : result R -> state W -> Prop) s :
  Ev (Call c) -> (forall r w, Q r (set_world w s)) -> wp (call ext c) Ev Q s.
Proof.
  intros He H. unfold wp. rewrite call_run. cbn.
  split; [repeat constructor; exact He|apply H].
Qed.

Lemma wp_try {A} (m : M W A) Ev (Q : result (result A) -> state W -> Prop) s :
  wp m Ev (fun r s' => Q (Ok r) s') s -> wp (try m) Ev Q s.
Proof. intros H. exact H. Qed.

(** A loop keeps [Inv] (on its local variables and the state) as long as
    its body does; a raising body leaves the loop at once. *)
Lemma wp_for_fold {A B} (body : A -> B -> M W B) Ev
    (Inv : B -> state W -> Prop) (Q : result B -> state W -> Prop) l :
  (forall x acc s, x ∈ l -> Inv acc s ->
     wp (body x acc) Ev
        (fun r s' => match r with
                     | Ok acc' => Inv acc' s'
                     | Raise e => Q (Raise e) s'
                     end) s) ->
  (forall acc s, Inv acc s -> Q (Ok acc) s) ->
  forall acc s, Inv acc s -> wp (for_fold body l acc) Ev Q s.
Proof.
  intros Hbody Hend. induction l as [|x l IH]; intros acc s HI; cbn [for_fold].
  - apply wp_ret, Hend, HI.
  - apply wp_bind. eapply wp_conseq.
    + apply Hbody; [left|exact HI].
    + intros [acc'|e] s' H; [|exact H].
      apply IH; [|exact H]. intros y acc0 s0 Hy. apply Hbody. right. exact Hy.
Qed.

Lemma wp_for_each {A} (body : A -> M W unit) Ev
    (Inv : state W -> Prop) (Q : result unit -> state W -> Prop) l :
  (forall x s, x ∈ l -> Inv s ->
     wp (body x) Ev
        (fun r s' => match r with
                     | Ok _ => Inv s'
                     | Raise e => Q (Raise e) s'
                     end) s) ->
  (forall s, Inv s -> Q (Ok tt) s) ->
  forall s, Inv s -> wp (for_each body l) Ev Q s.
Proof.
  intros Hbody Hend s HI. unfold for_each.
  apply (wp_for_fold _ Ev (fun _ => Inv)); [|intros []; apply Hend|exact HI].
  intros x [] s0 Hx HI0. apply Hbody; assumption.
Qed.

End Logic.

(** One step of symbolic execution on a [wp] goal. *)
Ltac wp_step :=
  lazymatch goal with
  | |- wp (_ ≫= _) _ _ _ => apply wp_bind
  | |- wp (ret _) _ _ _ => apply wp_ret
  | |- wp (raise _) _ _ _ => apply wp_raise
  | |- wp (lift ?r) _ _ _ => apply wp_lift; destruct r eqn:?
  | |- wp (get _) _ _ _ => apply wp_get
  | |- wp (modify _) _ _ _ => apply wp_modify
  | |- wp (emit _) _ _ _ => apply wp_emit
  | |- wp (log _ _ _) _ _ _ => apply wp_log
  | |- wp (py_assert _ _) _ _ _ => apply wp_py_assert; intros ?
  | |- wp (call _ _) _ _ _ => apply wp_call; [|intros [?|?] ?]
  | |- wp (try _) _ _ _ => apply wp_try
  | |- wp (if ?b then _ else _) _ _ _ => destruct b eqn:?
  | |- wp (match ?x with _ => _ end) _ _ _ => destruct x eqn:?
  end.

Ltac wp_simpl :=
  cbn [blocks_to_flush ops_stats _head_block_date hive_blocks world
       set_blocks_to_flush set_ops_stats set_head_block_date set_hive_blocks
       set_world].

Ltac wp_steps := repeat (wp_step; wp_simpl).

(** ** Reasoning about whole traces *)

Section TraceLogic.

Context {W : Type}.
Implicit Types (s : state W).

Lemma wpt_bind {A B} (m : M W A) (f : A -> M W B) Q s :
  wpt m (fun r s' t =>
           match r with
           | Ok a => wpt (f a) (fun r' s'' t' => Q r' s'' (t ++ t')) s'
           | Raise e => Q (Raise e) s' t
           end) s ->
  wpt (m ≫= f) Q s.
Proof.
  unfold wpt. rewrite bind_run. destruct (res (m s)); cbn [res post evs]; auto.
Qed.

Lemma wpt_conseq {A} (m : M W A) (Q Q' : result A -> state W -> list event -> Prop) s :
  wpt m Q s -> (forall r s' t, Q r s' t -> Q' r s' t) -> wpt m Q' s.
Proof. unfold wpt. auto. Qed.

Lemma wpt_any {A} (m : M W A) (Q : result A -> state W -> list event -> Prop) s :
  (forall r s' t, Q r s' t) -> wpt m Q s.
Proof. unfold wpt. auto. Qed.

Lemma wpt_run {A} (m : M W A) (Q : result A -> state W -> list event -> Prop) s :
  Q (res (m s)) (post (m s)) (evs (m s)) -> wpt m Q s.
Proof. auto. Qed.

Lemma wpt_ret {A} (a : A) (Q : result A -> state W -> list event -> Prop) s :
  Q (Ok a) s [] -> wpt (ret a) Q s.
Proof. auto. Qed.

Lemma wpt_raise {A} e (Q : result A -> state W -> list event -> Prop) s :
  Q (Raise e) s [] -> wpt (raise e) Q s.
Proof. auto. Qed.

Lemma wpt_lift {A} (r : result A) (Q : result A -> state W -> list event -> Prop) s :
  Q r s [] -> wpt (lift r) Q s.
Proof. auto. Qed.

Lemma wpt_get {A} (f : state W -> A) (Q : result A -> state W -> list event -> Prop) s :
  Q (Ok (f s)) s [] -> wpt (get f) Q s.
Proof. auto. Qed.

Lemma wpt_modify (g : state W -> state W) (Q : result unit -> state W -> list event -> Prop) s :
  Q (Ok tt) (g s) [] -> wpt (modify g) Q s.
Proof. auto. Qed.

Lemma wpt_emit e (Q : result unit -> state W -> list event -> Prop) s :
  Q (Ok tt) s [e] -> wpt (emit e) Q s.
Proof. auto. Qed.

Lemma wpt_log level fmt args (Q : result unit -> state W -> list event -> Prop) s :
  Q (Ok tt) s [Log level fmt args] -> wpt (log level fmt args) Q s.
Proof. auto. Qed.

Lemma wpt_py_assert b msg (Q : result unit -> state W -> list event -> Prop) s :
  (b = true -> Q (Ok tt) s []) ->
  (b = false -> Q (Raise (AssertionError msg)) s []) ->
  wpt (py_assert b msg) Q s.
Proof. unfold wpt, py_assert. destruct b; cbn; auto. Qed.

Lemma wpt_call ext {R} (c : extE R) (Q : result R -> state W -> list event -> Prop) s :
  (forall r w, ext R c (world s) = (r, w) -> Q r (set_world w s) [Call c]) ->
  wpt (call ext c) Q s.
Proof.
  intros H. unfold wpt. rewrite call_run. cbn. apply H, surjective_pairing.
Qed.

Lemma wpt_try {A} (m : M W A) (Q : result (result A) -> state W -> list event -> Prop) s :
  wpt m (fun r s' t => Q (Ok r) s' t) s -> wpt (try m) Q s.
Proof. auto. Qed.

End TraceLogic.

Ltac wpt_step :=
  lazymatch goal with
  | |- wpt (_ ≫= _) _ _ => apply wpt_bind
  | |- wpt (ret _) _ _ => apply wpt_ret
  | |- wpt (raise _) _ _ => apply wpt_raise
  | |- wpt (lift ?r) _ _ => apply wpt_lift; destruct r eqn:?
  | |- wpt (get _) _ _ => apply wpt_get
  | |- wpt (modify _) _ _ => apply wpt_modify
  | |- wpt (emit _) _ _ => apply wpt_emit
  | |- wpt (log _ _ _) _ _ => apply wpt_log
  | |- wpt (py_assert _ _) _ _ => apply wpt_py_assert; intros ?
  | |- wpt (call _ _) _ _ => apply wpt_call; intros [?|?] ? ?
  | |- wpt (try _) _ _ => apply wpt_try
  | |- wpt (if ?b then _ else _) _ _ => destruct b eqn:?
  | |- wpt (match ?x with _ => _ end) _ _ => destruct x eqn:?
  end.

Ltac wpt_simpl :=
  cbn [blocks_to_flush ops_stats _head_block_date hive_blocks world
       set_blocks_to_flush set_ops_stats set_head_block_date set_hive_blocks
       set_world app].

(** ** The head-date rule *)

Section HeadDate.

Context {W : Type} (ext : forall R, extE R -> W -> result R * W).
Context (py_repr : json -> string).

Ltac dated :=
  lazymatch goal with
  | |- dated_with _ _ =>
      let d := fresh in let H := fresh in
      intros d H; cbn in H; first [discriminate H | injection H as <-]; congruence
  | |- _ => try assumption; try congruence
  end.

Lemma dispatch_dates tag is_initial_sync num tx_idx operation json_ops s :
  _head_block_date s = Some tag ->
  wp (dispatch ext is_initial_sync num tx_idx operation json_ops)
     (dated_with tag) (fun _ s' => _head_block_date s' = Some tag) s.
Proof.
  intros Hd. unfold dispatch, count_op. wp_steps; dated.
Qed.

Lemma second_scan_dates tag is_initial_sync num block s :
  _head_block_date s = Some tag ->
  wp (second_scan ext is_initial_sync num block)
     (dated_with tag) (fun _ s' => _head_block_date s' = Some tag) s.
Proof.
  intros Hd. unfold second_scan.
  apply (wp_for_fold _ _ (fun _ s' => _head_block_date s' = Some tag));
    [|auto|exact Hd].
  intros [tx_idx tx] json_ops s0 _ Hd0.
  apply (wp_for_fold _ _ (fun _ s' => _head_block_date s' = Some tag));
    [|auto|exact Hd0].
  intros operation acc s1 _ Hd1.
  eapply wp_conseq; [apply dispatch_dates, Hd1|].
  intros [?|?] ? ?; assumption.
Qed.

Lemma votes_dates tag (vote_ops : list (string * json)) s :
  _head_block_date s = Some tag ->
  wp (for_each (fun '(k, v) =>
                  date ← get _head_block_date;
                  call ext (Votes_effective_comment_vote_op k v date)) vote_ops)
     (dated_with tag) (fun _ s' => _head_block_date s' = Some tag) s.
Proof.
  intros Hd.
  apply (wp_for_each _ _ (fun s' => _head_block_date s' = Some tag));
    [|auto|exact Hd].
  intros [k v] s0 _ Hd0. wp_steps; rewrite ?Hd0; dated.
Qed.

Lemma _process_dates block vops is_initial_sync s :
  wp (_process ext py_repr block vops is_initial_sync)
     (dated_with match _head_block_date s with
                 | Some date => date
                 | None => timestamp block
                 end)
     (fun r s' => forall num, r = Ok num ->
                  _head_block_date s' = Some (timestamp block)) s.
Proof.
  unfold _process, _push.
  wp_step; wp_simpl. wp_step; wp_simpl. wp_step; [|discriminate].
  wp_step; wp_simpl. wp_step; wp_simpl.
  wp_step; wp_simpl. wp_step; wp_simpl.
  apply wp_get; wp_simpl.
  destruct (_head_block_date s) as [d|] eqn:E;
    [apply wp_bind, wp_ret|apply wp_bind, wp_modify]; wp_simpl.
  all: match goal with
       | |- wp _ (dated_with ?tag) _ ?st =>
           assert (_head_block_date st = Some tag) as H1 by (wp_simpl; congruence);
           remember st as s1 eqn:Es1; clear Es1 E
       end.
  all: repeat first
         [ progress (wp_simpl; rewrite ?H1)
         | wp_step
         | eapply wp_conseq;
           [first [apply second_scan_dates|apply votes_dates]; wp_simpl; eassumption|];
           clear H1; intros [?|?] ? H1 ].
  all: dated.
Qed.

Lemma processed_head_date blocks s :
  processed ext py_repr blocks s ->
  _head_block_date s = timestamp <$> last blocks.
Proof.
  induction 1 as [s H|blocks s block vops is_initial_sync num s' _ _ Hres Hs'].
  - exact H.
  - rewrite last_snoc, Hs'. cbn.
    exact (proj2 (_process_dates block vops is_initial_sync s) num Hres).
Qed.

(** C3. After [_process] has returned for [blocks], every call that
    [_process] makes with a date while processing the next [block]
    ([Accounts.register], the dispatched operations, the virtual-op
    aggregates) carries the timestamp of the last of [blocks]; for the
    very first block it carries that block's own timestamp.  When
    [_process] returns, the cached head date is [block]'s timestamp. *)
Theorem head_date_lag blocks s block vops is_initial_sync :
  processed ext py_repr blocks s ->
  let o := _process ext py_repr block vops is_initial_sync s in
  let tag := match last blocks with
             | Some previous_block => timestamp previous_block
             | None => timestamp block
             end in
  (forall e date, e ∈ evs o -> event_date e = Some date -> date = Some tag)
  /\ (forall num, res o = Ok num ->
        _head_block_date (post o) = Some (timestamp block)).
Proof.
  intros Hp. apply processed_head_date in Hp. cbv zeta.
  destruct (_process_dates block vops is_initial_sync s) as [Hev Hpost].
  rewrite Hp in Hev. split; [|exact Hpost].
  intros e date He Hdate. rewrite Forall_forall in Hev.
  destruct (last blocks); exact (Hev e He date Hdate).
Qed.

End HeadDate.

Lemma head_date_lag_witness :
  processed quiet no_repr [block_1] after_block_1
  /\ (forall e date,
        e ∈ evs (_process quiet no_repr block_2 ∅ true after_block_1) ->
        event_date e = Some date -> date = Some (timestamp block_1))
  /\ (forall num,
        res (_process quiet no_repr block_2 ∅ true after_block_1) = Ok num ->
        _head_block_date (post (_process quiet no_repr block_2 ∅ true after_block_1))
        = Some (timestamp block_2)).
Proof.
  assert (processed quiet no_repr [block_1] after_block_1) as Hp.
  { apply (processed_next quiet no_repr [] fresh block_1 ∅ true 1);
      [constructor|..]; reflexivity. }
  split; [exact Hp|].
  exact (head_date_lag quiet no_repr [block_1] after_block_1 block_2 ∅ true Hp).
Defined.

(** Block 2 is processed and its transfer carries block 1's timestamp. *)
Example block_2_after_block_1 :
  res (_process quiet no_repr block_2 ∅ true after_block_1) = Ok 2
  /\ evs (_process quiet no_repr block_2 ∅ true after_block_1)
     = [Call (Accounts_register [] (Some (timestamp block_1)));
        Call (Payments_op_transfer
                (JDict [("from", JStr "alice"); ("to", JStr "bob")]) 0 2
                (Some (timestamp block_1)));
        Call (CustomOp_process_ops [JDict [("id", JStr "follow")]] 2
                (Some (timestamp block_1)))].
Proof. split; vm_compute; reflexivity. Qed.

(** ** Pass ordering *)

Lemma hashable_eqb_refl x :
  (forall l, x <> JList l) -> (forall kvs, x <> JDict kvs) -> hashable_eqb x x = true.
Proof.
  intros Hl Hd. destruct x as [|b|n|t|l|kvs]; cbn.
  - reflexivity.
  - destruct b; reflexivity.
  - apply Z.eqb_refl.
  - apply String.eqb_refl.
  - destruct (Hl l eq_refl).
  - destruct (Hd kvs eq_refl).
Qed.

Lemma set_add_mem x names names' :
  set_add x names = Ok names' ->
  set_mem x names' = true
  /\ (forall n, set_mem n names = true -> set_mem n names' = true).
Proof.
  unfold set_add, set_mem. intros H.
  assert (hashable_eqb x x = true) as Hx.
  { apply hashable_eqb_refl; intros ? ->; discriminate H. }
  assert (names' = if existsb (hashable_eqb x) names then names else names ++ [x]) as ->.
  { destruct x; try discriminate H; injection H as <-; reflexivity. }
  destruct (existsb (hashable_eqb x) names) eqn:E.
  - auto.
  - split.
    + rewrite existsb_app. cbn. rewrite Hx. apply orb_true_iff. right. reflexivity.
    + intros n Hn. rewrite existsb_app, Hn. reflexivity.
Qed.

Lemma scan_account_names_mem operation names names' :
  scan_account_names operation names = Ok names' ->
  (forall n, set_mem n names = true -> set_mem n names' = true)
  /\ (forall name, new_account_name operation = Some name ->
        set_mem name names' = true).
Proof.
  unfold scan_account_names, new_account_name, mbind, result_bind.
  repeat match goal with
         | |- context [if ?a == ?b then _ else _] =>
             destruct (a == b) eqn:?; cbn [orb]
         end;
    repeat match goal with
           | |- context [match subscript ?v ?k with _ => _ end] =>
               destruct (subscript v k) eqn:?; cbn [to_option]
           end;
    intros H; try discriminate H;
    try (injection H as <-; split; [auto|discriminate]);
    apply set_add_mem in H as [? ?]; (split; [assumption|]);
    intros name Hname; injection Hname as <-; assumption.
Qed.

Lemma fold_scan_mem ops : forall names names',
  fold_result scan_account_names ops names = Ok names' ->
  (forall n, set_mem n names = true -> set_mem n names' = true)
  /\ (forall operation name, operation ∈ ops ->
        new_account_name operation = Some name -> set_mem name names' = true).
Proof.
  induction ops as [|operation ops IH]; intros names names' H; cbn in H.
  - injection H as <-. split; [auto|]. intros ? ? Hin. inversion Hin.
  - unfold mbind, result_bind in H.
    destruct (scan_account_names operation names) as [names1|] eqn:E; [|discriminate].
    apply scan_account_names_mem in E as [Hmono Hnew].
    apply IH in H as [Hmono' Hrest]. split; [auto|].
    intros op name Hin Hname. apply elem_of_cons in Hin as [->|Hin]; eauto.
Qed.

Lemma fold_txs_mem (txs : list (Z * transaction)) : forall names names',
  fold_result (fun '(tx_idx, tx) account_names =>
                 fold_result scan_account_names (operations tx) account_names)
              txs names = Ok names' ->
  (forall n, set_mem n names = true -> set_mem n names' = true)
  /\ (forall tx_idx tx operation name,
        (tx_idx, tx) ∈ txs -> operation ∈ operations tx ->
        new_account_name operation = Some name -> set_mem name names' = true).
Proof.
  induction txs as [|[i tx] txs IH]; intros names names' H; cbn in H.
  - injection H as <-. split; [auto|]. intros ? ? ? ? Hin. inversion Hin.
  - unfold mbind, result_bind in H.
    destruct (fold_result scan_account_names (operations tx) names)
      as [names1|] eqn:E; [|discriminate].
    apply fold_scan_mem in E as [Hmono Hnew].
    apply IH in H as [Hmono' Hrest]. split; [auto|].
    intros j tx' op name Hin Hop Hname.
    apply elem_of_cons in Hin as [[= -> ->]|Hin]; eauto.
Qed.

Lemma first_scan_registers_all block names :
  first_scan block = Ok names -> registers_all block names.
Proof.
  unfold first_scan, registers_all, enumerate.
  intros H tx operation name Htx Hop Hname.
  apply fold_txs_mem in H as [_ H].
  apply list_elem_of_lookup in Htx as [i Hi].
  apply (H (Z.of_nat i) tx operation name); [|assumption..].
  apply (elem_of_lookup_imap_2 (fun i x => (Z.of_nat i, x))), Hi.
Qed.
Section PassOrdering.

Context {W : Type} (ext : forall R, extE R -> W -> result R * W).
Context (py_repr : json -> string).

Lemma _process_trace block vops is_initial_sync s :
  wpt (_process ext py_repr block vops is_initial_sync)
      (fun _ _ t =>
         t = []
         \/ exists account_names date rest,
              first_scan block = Ok account_names
              /\ t = Call (Accounts_register account_names date) :: rest) s.
Proof.
  unfold _process, _push.
  repeat (wpt_step; wpt_simpl); auto.
  all: try (apply wpt_any; intros [?|?] ? ?; [apply wpt_any; intros|]).
  all: right; eauto.
Qed.

(** C4. In the events of [_process] on any block, whatever is
    dispatched to a sub-processor comes after the one call of
    [Accounts.register], and that call was given every account that a
    [pow], [pow2], [account_create], [account_create_with_delegation] or
    [create_claimed_account] operation of the block introduces. *)
Theorem pass_ordering block vops is_initial_sync s pre e rest :
  evs (_process ext py_repr block vops is_initial_sync s) = pre ++ e :: rest ->
  is_dispatch e = true ->
  exists account_names date pre',
    pre = Call (Accounts_register account_names date) :: pre'
    /\ registers_all block account_names.
Proof.
  intros Hev He.
  destruct (_process_trace block vops is_initial_sync s)
    as [Hnil|(names & date & rest' & Hscan & Hreg)].
  - rewrite Hnil in Hev. destruct pre; discriminate Hev.
  - rewrite Hreg in Hev. destruct pre as [|e0 pre'].
    + injection Hev as <- _. discriminate He.
    + injection Hev as <- _. exists names, date, pre'.
      split; [reflexivity|]. apply first_scan_registers_all, Hscan.
Qed.

End PassOrdering.

Lemma pass_ordering_witness :
  set_mem (JStr "alice") [JStr "alice"] = true
  /\ exists account_names date pre',
       [Call (Accounts_register [JStr "alice"] (Some (timestamp block_1)))]
       = Call (Accounts_register account_names date) :: pre'
       /\ registers_all block_1 account_names.
Proof.
  split; [reflexivity|].
  apply (pass_ordering quiet no_repr block_1 ∅ true fresh
           [Call (Accounts_register [JStr "alice"] (Some (timestamp block_1)))]
           (Call (Posts_comment_op
                    (JDict [("author", JStr "alice"); ("permlink", JStr "hello")])
                    (Some (timestamp block_1))))
           []); reflexivity.
Defined.

(** ** The batch driver *)

Section Batch.

Context {W : Type} (ext : forall R, extE R -> W -> result R * W).
Context (py_repr : json -> string).

Lemma dispatch_frame tbl is_initial_sync num tx_idx operation json_ops s :
  hive_blocks s = tbl ->
  wp (dispatch ext is_initial_sync num tx_idx operation json_ops)
     no_batch_end (fun _ s' => hive_blocks s' = tbl) s.
Proof.
  intros Hd. unfold dispatch, count_op. wp_steps; solve [reflexivity|assumption].
Qed.

Lemma second_scan_frame tbl is_initial_sync num block s :
  hive_blocks s = tbl ->
  wp (second_scan ext is_initial_sync num block)
     no_batch_end (fun _ s' => hive_blocks s' = tbl) s.
Proof.
  intros Hd. unfold second_scan.
  apply (wp_for_fold _ _ (fun _ s' => hive_blocks s' = tbl)); [|auto|exact Hd].
  intros [tx_idx tx] json_ops s0 _ Hd0.
  apply (wp_for_fold _ _ (fun _ s' => hive_blocks s' = tbl)); [|auto|exact Hd0].
  intros operation acc s1 _ Hd1.
  eapply wp_conseq; [apply dispatch_frame, Hd1|].
  intros [?|?] ? ?; assumption.
Qed.

Lemma votes_frame tbl (vote_ops : list (string * json)) s :
  hive_blocks s = tbl ->
  wp (for_each (fun '(k, v) =>
                  date ← get _head_block_date;
                  call ext (Votes_effective_comment_vote_op k v date)) vote_ops)
     no_batch_end (fun _ s' => hive_blocks s' = tbl) s.
Proof.
  intros Hd.
  apply (wp_for_each _ _ (fun s' => hive_blocks s' = tbl)); [|auto|exact Hd].
  intros [k v] s0 _ Hd0. wp_steps; solve [reflexivity|assumption].
Qed.

(** [_process] ends no batch and leaves [hive_blocks] alone. *)
Lemma _process_frame block vops is_initial_sync s :
  wp (_process ext py_repr block vops is_initial_sync)
     no_batch_end (fun _ s' => hive_blocks s' = hive_blocks s) s.
Proof.
  enough (forall tbl, hive_blocks s = tbl ->
            wp (_process ext py_repr block vops is_initial_sync)
               no_batch_end (fun _ s' => hive_blocks s' = tbl) s) as H
    by exact (H _ eq_refl).
  intros tbl H1. unfold _process, _push.
  repeat first
    [ progress wp_simpl
    | wp_step
    | eapply wp_conseq;
      [first [apply second_scan_frame|apply votes_frame]; wp_simpl; eassumption|];
      clear H1; intros [?|?] ? H1 ].
  all: solve [reflexivity|assumption].
Qed.

Lemma process_each_frame blocks vops is_initial_sync : forall last_num s,
  wp (process_each ext py_repr blocks vops is_initial_sync last_num)
     no_batch_end
     (fun r s' => hive_blocks s' = hive_blocks s
                  /\ exists num raised, r = Ok (num, raised)) s.
Proof.
  induction blocks as [|block blocks IH]; intros last_num s; cbn [process_each].
  - apply wp_ret. eauto.
  - apply wp_bind, wp_try.
    eapply wp_conseq; [apply _process_frame|]. cbn beta.
    intros [num|e] s' Hs'.
    + eapply wp_conseq; [apply IH|]. cbn beta. intros r s'' [? ?].
      split; [congruence|assumption].
    + apply wp_ret. eauto.
Qed.

(** What a batch does, in full: the transaction is opened, the blocks
    go through [_process] one after the other, and then either the
    first failure is logged and raised again, or the batch is flushed
    and, when nothing raises on the way, committed. *)
Lemma process_multi_trace blocks vops is_initial_sync s :
  let each := process_each ext py_repr blocks vops is_initial_sync 0 s in
  wpt (process_multi ext py_repr blocks vops is_initial_sync)
      (fun r s' t =>
         match res each with
         | Ok (last_num, Some e) =>
             r = Raise e /\ s' = post each
             /\ t = Query START_TRANSACTION :: evs each
                    ++ [Log ERROR "exception encountered block %d" [LInt (last_num + 1)]]
         | Ok (_, None) =>
             forall stats, r = Ok stats ->
               t = Query START_TRANSACTION :: evs each
                   ++ [Call PostDataCache_flush; Call Tags_flush; Call Votes_flush;
                       Query (INSERT_blocks (blocks_to_flush (post each)));
                       Call (Follow_flush false); Query COMMIT]
               /\ hive_blocks s' = hive_blocks (post each) ++ blocks_to_flush (post each)
               /\ blocks_to_flush s' = []
         | Raise _ => False
         end) s.
Proof.
  cbv zeta. unfold process_multi.
  wpt_step. wpt_step. wpt_simpl. wpt_step. apply wpt_run.
  destruct (process_each_frame blocks vops is_initial_sync 0 s) as (_ & _ & n & raised & Hres).
  rewrite Hres. destruct raised as [e|].
  - repeat (wpt_step; wpt_simpl). auto.
  - repeat first
      [ wpt_step; wpt_simpl
      | apply wpt_run; rewrite _flush_blocks_run;
        destruct (insert_blocks _ _) as [?tbl|?e] eqn:Hins;
        [apply insert_blocks_ok in Hins as [-> _]|];
        cbn [res post evs]; wpt_simpl ].
    all: intros stats Hstats; try discriminate Hstats.
    repeat split.
Qed.


(** C7. When [process_multi] returns, its events are: the opening of the
    transaction, the processing of the blocks (which ends no batch), and
    then, in this order and with nothing in between,
    [PostDataCache.flush], [Tags.flush], [Votes.flush], the insert of the
    staged headers, [Follow.flush(trx=False)] and [COMMIT]. *)
Theorem process_multi_flush_order blocks vops is_initial_sync s stats :
  res (process_multi ext py_repr blocks vops is_initial_sync s) = Ok stats ->
  exists processing staged,
    evs (process_multi ext py_repr blocks vops is_initial_sync s)
    = Query START_TRANSACTION :: processing
      ++ [Call PostDataCache_flush; Call Tags_flush; Call Votes_flush;
          Query (INSERT_blocks staged); Call (Follow_flush false); Query COMMIT]
    /\ Forall no_batch_end processing.
Proof.
  intros Hres.
  pose proof (process_multi_trace blocks vops is_initial_sync s) as H.
  cbv zeta in H. unfold wpt in H.
  destruct (process_each_frame blocks vops is_initial_sync 0 s) as (Hev & _).
  destruct (res (process_each ext py_repr blocks vops is_initial_sync 0 s))
    as [[last_num [e|]]|]; [| |destruct H].
  - destruct H as [H _]. congruence.
  - destruct (H stats Hres) as (Ht & _). eauto.
Qed.

(** No partial commit: when [_process] raises for a block of the batch,
    [process_multi] logs, raises the same exception, ends no batch (no
    flusher, no insert of staged headers, no [COMMIT]) and leaves
    [hive_blocks], hence [head_num()], as it was. *)
Lemma process_multi_no_partial_commit blocks vops is_initial_sync s last_num e :
  res (process_each ext py_repr blocks vops is_initial_sync 0 s)
  = Ok (last_num, Some e) ->
  let o := process_multi ext py_repr blocks vops is_initial_sync s in
  res o = Raise e
  /\ last (evs o)
     = Some (Log ERROR "exception encountered block %d" [LInt (last_num + 1)])
  /\ Forall no_batch_end (evs o)
  /\ hive_blocks (post o) = hive_blocks s
  /\ head_of (hive_blocks (post o)) = head_of (hive_blocks s).
Proof.
  intros Hres.
  pose proof (process_multi_trace blocks vops is_initial_sync s) as H.
  cbv zeta in H. unfold wpt in H. rewrite Hres in H. destruct H as (Hr & Hs & Ht).
  destruct (process_each_frame blocks vops is_initial_sync 0 s) as (Hev & Htbl & _).
  cbv zeta. rewrite Hr, Hs, Ht, Htbl. repeat split.
  - rewrite app_comm_cons. apply last_snoc.
  - constructor; [reflexivity|]. apply Forall_app. split; [exact Hev|].
    repeat constructor.
Qed.

End Batch.

(** C2. A batch that starts at block 500, on a database whose head is
    499, and whose block 500 fails in [Posts.comment_op]: the exception
    is raised again, nothing is flushed or committed and the head stays
    at 499, but the height that is logged is 1, not 500. *)
Theorem process_multi_logs_height_1 :
  let o := process_multi posts_down no_repr [block_500] ∅ true head_499 in
  int16 (String.substring 0 8 (block_id block_500)) = Ok 500
  /\ res (_process posts_down no_repr block_500 ∅ true head_499)
     = Raise (Failure "database error")
  /\ res o = Raise (Failure "database error")
  /\ last (evs o) = Some (Log ERROR "exception encountered block %d" [LInt 1])
  /\ Forall no_batch_end (evs o)
  /\ head_of (hive_blocks (post o)) = 499.
Proof.
  cbv zeta. split; [vm_compute; reflexivity|]. split; [vm_compute; reflexivity|].
  assert (res (process_each posts_down no_repr [block_500] ∅ true 0 head_499)
          = Ok (0, Some (Failure "database error"))) as Heach
    by (vm_compute; reflexivity).
  destruct (process_multi_no_partial_commit posts_down no_repr [block_500] ∅ true
              head_499 0 (Failure "database error") Heach)
    as (Hres & Hlog & Hev & _ & Hhead).
  split; [exact Hres|]. split; [exact Hlog|]. split; [exact Hev|].
  rewrite Hhead. vm_compute. reflexivity.
Qed.

Lemma process_multi_flush_order_witness :
  exists processing staged,
    evs (process_multi quiet no_repr [block_1; block_2] ∅ true fresh)
    = Query START_TRANSACTION :: processing
      ++ [Call PostDataCache_flush; Call Tags_flush; Call Votes_flush;
          Query (INSERT_blocks staged); Call (Follow_flush false); Query COMMIT]
    /\ Forall no_batch_end processing.
Proof.
  eapply (process_multi_flush_order quiet no_repr [block_1; block_2] ∅ true fresh).
  vm_compute. reflexivity.
Defined.

(** ** Fork recovery *)

Section ForkRecovery.

Context {W : Type} (ext : forall R, extE R -> W -> result R * W).

(** [head_num()] reads the table and changes nothing. *)
Lemma head_num_run (s : state W) :
  head_num s = Out (Ok (head_of (hive_blocks s))) s [Query SELECT_head_num].
Proof. reflexivity. Qed.

Lemma walk_back_step hive_head cursor to_pop :
  walk_back ext hive_head cursor to_pop
  = if Z_lt_dec (hive_head - cursor) 25 then
      hive_block ← _get cursor;
      steem_block ← call ext (steem_get_block cursor);
      steem_hash ← lift (subscript steem_block "block_id");
      if hash_eq (h_hash hive_block) steem_hash then ret (cursor, to_pop)
      else walk_back ext hive_head (cursor - 1) (to_pop ++ [hive_block])
    else raise (AssertionError "fork too deep").
Proof.
  rewrite walk_back_equation_1. destruct (Z_lt_dec (hive_head - cursor) 25); reflexivity.
Qed.


Lemma select_block_num cursor tbl row :
  select_block cursor tbl = Some row -> h_num row = cursor /\ row ∈ tbl.
Proof.
  unfold select_block. intros H. apply find_some in H as [Hin Heq].
  split; [lia|]. apply list_elem_of_In, Hin.
Qed.

(** The walk back: where it stops, what it collected, what it emitted. *)
Lemma walk_back_spec hive_head tbl n : forall cursor to_pop s,
  (Z.to_nat (25 - (hive_head - cursor)) <= n)%nat ->
  cursor <= hive_head ->
  Forall (fun b => cursor < h_num b) to_pop ->
  hive_blocks s = tbl ->
  wp (walk_back ext hive_head cursor to_pop) (walk_event hive_head)
     (fun r s' =>
        hive_blocks s' = tbl
        /\ match r with
           | Ok (cursor', to_pop') =>
               cursor' <= cursor
               /\ hive_head - cursor' < 25
               /\ Forall (fun b => cursor' < h_num b) to_pop'
               /\ is_Some (select_block cursor' tbl)
           | Raise _ => True
           end) s.
Proof.
  induction n as [|n IH]; intros cursor to_pop s Hn Hc Hpop Htbl;
    rewrite walk_back_step; destruct (Z_lt_dec (hive_head - cursor) 25) as [Hlt|Hge];
    try (apply wp_raise; auto); [lia|].
  unfold _get.
  wp_steps; try solve [repeat split; auto; discriminate].
  all: match goal with H : select_block _ _ = Some _ |- _ =>
         rewrite Htbl in H; pose proof (select_block_num _ _ _ H) as [Hnum _] end.
  - split; [reflexivity|split; [reflexivity|]]. cbn. intros c [= <-]. lia.
  - repeat split; try assumption; try lia; eauto.
  - eapply wp_conseq; [apply IH|].
    + lia.
    + lia.
    + apply Forall_app. split.
      * eapply Forall_impl; [exact Hpop|]. cbn beta. intros; lia.
      * repeat constructor. lia.
    + wp_simpl. exact Htbl.
    + cbn beta. intros [[c' tp']|e] s' [? H]; [|auto].
      split; [assumption|]. destruct H as (? & ? & ? & ?). repeat split; auto; lia.
Qed.

Lemma delete_block_keeps num tbl row :
  row ∈ tbl -> h_num row <> num -> row ∈ delete_block num tbl.
Proof.
  unfold delete_block. rewrite !list_elem_of_In, filter_In. intros ? ?.
  split; [assumption|]. apply negb_true_iff, Z.eqb_neq. assumption.
Qed.

Lemma max_num_upper tbl row :
  row ∈ tbl -> exists m, max_num tbl = Some m /\ h_num row <= m.
Proof.
  induction tbl as [|r tbl IH]; intros Hin; [inversion Hin|].
  unfold max_num. cbn [foldr]. fold (max_num tbl).
  apply elem_of_cons in Hin as [->|Hin].
  - destruct (max_num tbl) as [m|]; eexists; split; try reflexivity; lia.
  - destruct (IH Hin) as (m & -> & ?). eexists; split; [reflexivity|lia].
Qed.

Lemma head_of_upper tbl row : row ∈ tbl -> h_num row <= head_of tbl.
Proof.
  intros Hin. unfold head_of. destruct (max_num_upper _ _ Hin) as (m & -> & ?).
  assumption.
Qed.

(** [_pop] deletes nothing at or below a cursor that all of its blocks
    are above. *)
Lemma _pop_spec hive_head tbl cursor to_pop s :
  Forall (fun b => cursor < h_num b) to_pop ->
  keeps_below tbl cursor s ->
  wp (_pop ext to_pop)
     (fun e => is_last_irreversible e = false /\ compared_within hive_head e)
     (fun _ s' => keeps_below tbl cursor s') s.
Proof.
  intros Hpop Hkeep. unfold _pop.
  assert (forall e, compared_at e = None -> compared_within hive_head e) as Hnone.
  { intros e He c Hc. congruence. }
  wp_step. wp_step; [auto|]. wp_simpl. wp_step.
  eapply wp_conseq.
  { apply (wp_for_each _ _ (keeps_below tbl cursor)
             (fun _ s' => keeps_below tbl cursor s')); [|auto|exact Hkeep].
    intros block s0 Hin Hs0. rewrite Forall_forall in Hpop. specialize (Hpop _ Hin).
    unfold head_num.
    wp_steps; auto.
    all: intros row Hrow Hle; wp_simpl; apply delete_block_keeps; [auto|lia]. }
  cbn beta. intros [[]|e] s' Hs'; [|exact Hs'].
  wp_steps; auto.
Qed.

(** [verify_head] compares only less than 25 blocks below the head, and
    leaves a head that is at most 24 lower. *)
Lemma verify_head_bound s :
  wp (verify_head ext) (compared_within (head_of (hive_blocks s)))
     (fun _ s' => head_of (hive_blocks s) - 24 <= head_of (hive_blocks s')) s.
Proof.
  set (hive_head := head_of (hive_blocks s)).
  assert (forall e, compared_at e = None -> compared_within hive_head e) as Hnone.
  { intros e He c Hc. congruence. }
  unfold verify_head, head_num.
  wp_step. wp_step. wp_step; [apply Hnone; reflexivity|]. wp_simpl.
  wp_step. wp_step. wp_simpl. wp_step. wp_simpl.
  fold (head_of (hive_blocks s)). fold hive_head.
  wp_step; [wp_step; wp_simpl; fold hive_head; lia|].
  wp_step.
  eapply wp_conseq; [eapply wp_events|].
  { apply (walk_back_spec hive_head (hive_blocks s) (Z.to_nat 25));
      [lia|lia|constructor|reflexivity]. }
  { intros e (_ & _ & He). exact He. }
  cbn beta. intros [[cursor to_pop]|e] s' [Htbl H];
    [|rewrite Htbl; fold hive_head; lia].
  destruct H as (Hc & Hdepth & Hpop & [row Hrow]).
  apply select_block_num in Hrow as [Hnum Hin].
  assert (forall s2 : state W, keeps_below (hive_blocks s) cursor s2 ->
            hive_head - 24 <= head_of (hive_blocks s2)) as Hhead.
  { intros s2 Hs2. pose proof (head_of_upper _ _ (Hs2 row Hin ltac:(lia))). lia. }
  assert (keeps_below (hive_blocks s) cursor s') as Hkeep.
  { intros r Hr _. rewrite Htbl. exact Hr. }
  wp_step; [wp_step; auto|].
  repeat first
    [ progress wp_simpl
    | wp_step
    | eapply wp_conseq;
      [eapply wp_events;
       [apply (_pop_spec hive_head (hive_blocks s) cursor); [exact Hpop|]
       |intros e0 [_ He0]; exact He0]
      |cbn beta; intros ? ? ?] ].
  all: try solve [apply Hnone; reflexivity]; auto.
Qed.

(** All of [verify_head], case by case. *)
Lemma verify_head_trace s :
  let hive_head := head_of (hive_blocks s) in
  let walk := walk_back ext hive_head hive_head [] s in
  wpt (verify_head ext)
      (fun r s' t =>
         if hive_head =? 0 then
           r = Ok tt /\ s' = s /\ t = [Query SELECT_head_num]
         else
           match res walk with
           | Raise e =>
               r = Raise e /\ s' = post walk
               /\ t = Query SELECT_head_num :: evs walk
           | Ok (cursor, to_pop) =>
               if hive_head =? cursor then
                 r = Ok tt /\ s' = post walk
                 /\ t = Query SELECT_head_num :: evs walk
               else
                 let asked :=
                   Query SELECT_head_num :: evs walk
                   ++ [Log ERROR "[FORK] depth is %d; popping blocks %d - %d"
                         [LInt (hive_head - cursor); LInt (cursor + 1);
                          LInt hive_head];
                       Call steem_last_irreversible] in
                 let answer := ext Z steem_last_irreversible (world (post walk)) in
                 let asking := set_world answer.2 (post walk) in
                 match answer.1 with
                 | Raise e => r = Raise e /\ s' = asking /\ t = asked
                 | Ok fork_limit =>
                     if cursor <? fork_limit then
                       r = res (_pop ext to_pop asking)
                       /\ s' = post (_pop ext to_pop asking)
                       /\ t = asked ++ evs (_pop ext to_pop asking)
                     else
                       r = Raise (AssertionError
                                    "not proceeding until head is irreversible")
                       /\ s' = asking /\ t = asked
                 end
           end) s.
Proof.
  cbv zeta. unfold verify_head, head_num.
  do 5 (wpt_step; wpt_simpl). fold (head_of (hive_blocks s)).
  wpt_step. wpt_simpl.
  destruct (head_of (hive_blocks s) =? 0) eqn:E0; wpt_simpl; [wpt_step; auto|].
  wpt_step. apply wpt_run.
  destruct (res (walk_back _ _ _ _ _)) as [[cursor to_pop]|e]; [|auto].
  wpt_simpl.
  destruct (head_of (hive_blocks s) =? cursor) eqn:Ec; wpt_simpl;
    [try wpt_step; rewrite app_nil_r; auto|].
  wpt_step. wpt_step. wpt_simpl. wpt_step.
  apply wpt_call. intros r w Hext. rewrite Hext. cbn [fst snd].
  destruct r as [fork_limit|e]; [|auto].
  wpt_step. wpt_step; wpt_simpl.
  - apply wpt_run. rewrite H. rewrite <- app_assoc. auto.
  - rewrite H. auto.
Qed.

Lemma walk_back_facts s :
  let hive_head := head_of (hive_blocks s) in
  let walk := walk_back ext hive_head hive_head [] s in
  Forall (walk_event hive_head) (evs walk)
  /\ hive_blocks (post walk) = hive_blocks s.
Proof.
  cbv zeta.
  destruct (walk_back_spec (head_of (hive_blocks s)) (hive_blocks s) (Z.to_nat 25)
              (head_of (hive_blocks s)) [] s) as (Hev & Htbl & _);
    [lia|lia|constructor|reflexivity|].
  split; assumption.
Qed.

(** While every block from the cursor down to 24 below the head
    diverges, the walk ends in "fork too deep". *)
Lemma walk_back_deep hive_head tbl n : forall cursor to_pop s,
  (Z.to_nat (25 - (hive_head - cursor)) <= n)%nat ->
  cursor <= hive_head ->
  hive_blocks s = tbl ->
  (forall c, hive_head - 25 < c <= cursor -> diverges_at ext tbl c) ->
  wpt (walk_back ext hive_head cursor to_pop)
      (fun r s' _ => r = Raise (AssertionError "fork too deep")
                     /\ hive_blocks s' = tbl) s.
Proof.
  induction n as [|n IH]; intros cursor to_pop s Hn Hc Htbl Hdiv;
    rewrite walk_back_step; destruct (Z_lt_dec (hive_head - cursor) 25) as [Hlt|Hge];
    try (apply wpt_raise; auto); [lia|].
  destruct (Hdiv cursor ltac:(lia)) as (row & Hrow & Hup).
  unfold _get. do 5 (wpt_step; wpt_simpl). rewrite Htbl, Hrow.
  wpt_step. wpt_step. apply wpt_call. intros r w Hext.
  destruct (Hup (world s)) as (steem_block & steem_hash & Hb & Hh & Hne).
  rewrite Hext in Hb. cbn in Hb. subst r.
  wpt_step. apply wpt_lift. rewrite Hh, Hne.
  eapply wpt_conseq; [apply IH; wpt_simpl; try assumption; try lia|auto].
  intros c Hc'. apply Hdiv. lia.
Qed.

(** A delete in a trace that starts with delete-free events lies past them. *)
Lemma pop_after_prefix (asked popping pre rest : list event) e :
  Forall (fun e => is_pop e = false) asked ->
  asked ++ popping = pre ++ e :: rest ->
  is_pop e = true ->
  exists pre', pre = asked ++ pre'.
Proof.
  revert pre. induction asked as [|a asked IH]; intros pre Hno Heq He.
  - exists pre. reflexivity.
  - inversion_clear Hno as [|? ? Ha Hno']. destruct pre as [|p pre].
    + injection Heq as <- _. congruence.
    + injection Heq as <- Heq. destruct (IH pre Hno' Heq He) as [pre' ->].
      exists pre'. reflexivity.
Qed.

Lemma no_pop_in (t pre rest : list event) e :
  Forall (fun e => is_pop e = false) t ->
  t = pre ++ e :: rest -> is_pop e = true -> False.
Proof.
  intros Hno -> He. apply Forall_app in Hno as [_ Hno].
  inversion_clear Hno. congruence.
Qed.

Lemma walk_back_match hive_head cursor to_pop s row steem_block steem_hash :
  hive_head - cursor < 25 ->
  select_block cursor (hive_blocks s) = Some row ->
  (ext json (steem_get_block cursor) (world s)).1 = Ok steem_block ->
  subscript steem_block "block_id" = Ok steem_hash ->
  hash_eq (h_hash row) steem_hash = true ->
  wpt (walk_back ext hive_head cursor to_pop)
      (fun r s' t =>
         r = Ok (cursor, to_pop)
         /\ hive_blocks s' = hive_blocks s
         /\ t = [Query (SELECT_block cursor); Call (steem_get_block cursor)]) s.
Proof.
  intros Hlt Hrow Hb Hh Heq.
  rewrite walk_back_step. destruct (Z_lt_dec (hive_head - cursor) 25); [|lia].
  unfold _get. do 5 (wpt_step; wpt_simpl). rewrite Hrow.
  wpt_step. wpt_step. apply wpt_call. intros r w Hext.
  rewrite Hext in Hb. cbn in Hb. subst r.
  wpt_step. apply wpt_lift. rewrite Hh, Heq. wpt_step. auto.
Qed.

Lemma seqZ_cases (P : Z -> Prop) lo n :
  Forall P (seqZ lo n) -> forall c, lo <= c < lo + n -> P c.
Proof.
  rewrite Forall_forall. intros H c Hc. apply H, elem_of_seqZ. exact Hc.
Qed.

(** C5. [verify_head] compares hashes only at cursors less than 25 below
    the head (the assertion comes first in each round of the walk); when
    local and upstream diverge at every block from the head down to 24
    below it, it raises "fork too deep" and deletes nothing; and
    whatever it does, the head it leaves is at most 24 below the head it
    found. *)
Theorem verify_head_depth_bound s :
  let o := verify_head ext s in
  let hive_head := head_of (hive_blocks s) in
  Forall (compared_within hive_head) (evs o)
  /\ (hive_head <> 0 ->
      (forall cursor, hive_head - 25 < cursor <= hive_head ->
                      diverges_at ext (hive_blocks s) cursor) ->
      res o = Raise (AssertionError "fork too deep")
      /\ hive_blocks (post o) = hive_blocks s)
  /\ hive_head - head_of (hive_blocks (post o)) <= 24.
Proof.
  cbv zeta. destruct (verify_head_bound s) as [Hev Hhead].
  split; [exact Hev|]. split; [|lia].
  intros Hne Hdiv.
  pose proof (verify_head_trace s) as H. cbv zeta in H. unfold wpt in H.
  apply Z.eqb_neq in Hne. rewrite Hne in H.
  pose proof (walk_back_deep (head_of (hive_blocks s)) (hive_blocks s) (Z.to_nat 25)
                (head_of (hive_blocks s)) [] s
                ltac:(lia) ltac:(lia) eq_refl Hdiv) as [Hres Htbl].
  rewrite Hres in H. destruct H as (-> & -> & _). split; [reflexivity|exact Htbl].
Qed.

(** C6. In [verify_head]: a delete happens only after upstream was asked
    for its last irreversible height and the cursor was below it; when
    blocks must be popped and the cursor is not below that height, the
    call raises "not proceeding until head is irreversible" and deletes
    nothing; when the head's hash matches upstream's, the call returns
    after that one comparison, without a delete and without asking for
    the last irreversible height. *)
Theorem verify_head_irreversible_guard s :
  let o := verify_head ext s in
  let hive_head := head_of (hive_blocks s) in
  let walk := walk_back ext hive_head hive_head [] s in
  (forall pre e rest,
     evs o = pre ++ e :: rest -> is_pop e = true ->
     Exists (fun e' => is_last_irreversible e' = true) pre
     /\ exists cursor to_pop fork_limit,
          res walk = Ok (cursor, to_pop)
          /\ (ext Z steem_last_irreversible (world (post walk))).1 = Ok fork_limit
          /\ cursor < fork_limit)
  /\ (forall cursor to_pop fork_limit,
        hive_head <> 0 ->
        res walk = Ok (cursor, to_pop) ->
        cursor <> hive_head ->
        (ext Z steem_last_irreversible (world (post walk))).1 = Ok fork_limit ->
        fork_limit <= cursor ->
        res o = Raise (AssertionError "not proceeding until head is irreversible")
        /\ Forall (fun e => is_pop e = false) (evs o)
        /\ hive_blocks (post o) = hive_blocks s)
  /\ (forall row steem_block steem_hash,
        hive_head <> 0 ->
        select_block hive_head (hive_blocks s) = Some row ->
        (ext json (steem_get_block hive_head) (world s)).1 = Ok steem_block ->
        subscript steem_block "block_id" = Ok steem_hash ->
        hash_eq (h_hash row) steem_hash = true ->
        res o = Ok tt
        /\ evs o = [Query SELECT_head_num; Query (SELECT_block hive_head);
                    Call (steem_get_block hive_head)]
        /\ hive_blocks (post o) = hive_blocks s).
Proof.
  cbv zeta.
  pose proof (verify_head_trace s) as H. cbv zeta in H. unfold wpt in H.
  destruct (walk_back_facts s) as [Hwalk Htbl]. cbv zeta in Hwalk, Htbl.
  set (hive_head := head_of (hive_blocks s)) in *.
  set (walk := walk_back ext hive_head hive_head [] s) in *.
  assert (Forall (fun e => is_pop e = false) (Query SELECT_head_num :: evs walk))
    as Hquiet.
  { constructor; [reflexivity|]. eapply Forall_impl; [exact Hwalk|].
    intros e [He _]. exact He. }
  assert (forall cursor,
            Forall (fun e => is_pop e = false)
              (Query SELECT_head_num :: evs walk
               ++ [Log ERROR "[FORK] depth is %d; popping blocks %d - %d"
                     [LInt (hive_head - cursor); LInt (cursor + 1); LInt hive_head];
                   Call steem_last_irreversible])) as Hasked.
  { intros cursor. rewrite app_comm_cons. apply Forall_app. split; [exact Hquiet|].
    repeat constructor. }
  split; [|split].
  - intros pre e rest Hev He.
    destruct (hive_head =? 0) eqn:E0.
    { destruct H as (_ & _ & Ht). rewrite Ht in Hev. exfalso.
      eapply no_pop_in; [|exact Hev|exact He]. repeat constructor. }
    destruct (res walk) as [[cursor to_pop]|err] eqn:Hres.
    2:{ destruct H as (_ & _ & Ht). rewrite Ht in Hev. exfalso.
        eapply no_pop_in; [exact Hquiet|exact Hev|exact He]. }
    destruct (hive_head =? cursor) eqn:Ec.
    { destruct H as (_ & _ & Ht). rewrite Ht in Hev. exfalso.
      eapply no_pop_in; [exact Hquiet|exact Hev|exact He]. }
    destruct ((ext Z steem_last_irreversible (world (post walk))).1)
      as [fork_limit|err] eqn:Hlib.
    2:{ destruct H as (_ & _ & Ht). rewrite Ht in Hev. exfalso.
        eapply no_pop_in; [apply Hasked|exact Hev|exact He]. }
    destruct (cursor <? fork_limit) eqn:Hlt.
    2:{ destruct H as (_ & _ & Ht). rewrite Ht in Hev. exfalso.
        eapply no_pop_in; [apply Hasked|exact Hev|exact He]. }
    destruct H as (_ & _ & Ht). rewrite Ht in Hev.
    apply pop_after_prefix in Hev as [pre' ->]; [|apply Hasked|exact He].
    split.
    + apply Exists_app. left. rewrite app_comm_cons. apply Exists_app. right.
      right. left. reflexivity.
    + exists cursor, to_pop, fork_limit. repeat split. lia.
  - intros cursor to_pop fork_limit Hne Hres Hc Hlib Hle.
    apply Z.eqb_neq in Hne. rewrite Hne, Hres in H.
    assert ((hive_head =? cursor) = false) as Ec by (apply Z.eqb_neq; congruence).
    rewrite Ec, Hlib in H.
    assert ((cursor <? fork_limit) = false) as Hlt by (apply Z.ltb_ge; exact Hle).
    rewrite Hlt in H. destruct H as (-> & -> & ->).
    split; [reflexivity|]. split; [apply Hasked|exact Htbl].
  - intros row steem_block steem_hash Hne Hrow Hb Hh Heq.
    pose proof (walk_back_match hive_head hive_head [] s row steem_block steem_hash
                  ltac:(lia) Hrow Hb Hh Heq) as (Hres & Htbl' & Hev).
    fold walk in Hres, Htbl', Hev.
    apply Z.eqb_neq in Hne. rewrite Hne, Hres, Z.eqb_refl in H.
    destruct H as (-> & -> & ->). rewrite Hev. repeat split. exact Htbl'.
Qed.

End ForkRecovery.

Ltac diverges_here c :=
  exists (header_of c (local_hash c));
  split; [vm_compute; reflexivity|];
  intros [];
  exists (JDict [("block_id", JStr ("upstream-" +:+ pretty c))]),
         (JStr ("upstream-" +:+ pretty c));
  split; [vm_compute; reflexivity|];
  split; vm_compute; reflexivity.

(** The too-deep fork of the specification: head 1000, last common block 970. *)
Lemma verify_head_depth_bound_witness :
  head_of (hive_blocks head_1000) = 1000
  /\ res (verify_head (upstream 970 990) head_1000)
     = Raise (AssertionError "fork too deep")
  /\ hive_blocks (post (verify_head (upstream 970 990) head_1000))
     = hive_blocks head_1000.
Proof.
  assert (head_of (hive_blocks head_1000) = 1000) as Hhead by (vm_compute; reflexivity).
  split; [exact Hhead|].
  pose proof (verify_head_depth_bound (upstream 970 990) head_1000) as (_ & H & _).
  apply H; rewrite Hhead; [discriminate|].
  intros cursor Hc.
  apply (seqZ_cases (diverges_at (upstream 970 990) (hive_blocks head_1000)) 976 25);
    [|lia].
  let l := eval vm_compute in (seqZ 976 25) in change (seqZ 976 25) with l.
  repeat match goal with
         | |- Forall _ [] => constructor
         | |- Forall _ (?c :: _) => constructor; [diverges_here c|]
         end.
Defined.

(** The non-irreversible fork of the specification: head 1000, last
    common block 995, upstream's last irreversible block 990. *)
Lemma verify_head_irreversible_guard_witness :
  res (verify_head (upstream 995 990) head_1000)
  = Raise (AssertionError "not proceeding until head is irreversible")
  /\ Forall (fun e => is_pop e = false) (evs (verify_head (upstream 995 990) head_1000))
  /\ hive_blocks (post (verify_head (upstream 995 990) head_1000))
     = hive_blocks head_1000.
Proof.
  pose proof (verify_head_irreversible_guard (upstream 995 990) head_1000)
    as (_ & H & _).
  apply (H 995 (map (fun num => header_of num (local_hash num))
                    [1000; 999; 998; 997; 996]) 990).
  - vm_compute. discriminate.
  - vm_compute. reflexivity.
  - vm_compute. discriminate.
  - vm_compute. reflexivity.
  - lia.
Defined.

(** The micro-fork of the specification: head 1000, last common block
    998, which upstream holds irreversible: blocks 1000 and 999 are
    popped and the head is 998. *)
Example verify_head_micro_fork :
  let o := verify_head (upstream 998 1000) head_1000 in
  res o = Ok tt /\ head_of (hive_blocks (post o)) = 998.
Proof. split; vm_compute; reflexivity. Qed.

(** * Further properties *)

(** ** Counters: the algebra of [merge_ops_stats] *)

Lemma merge_ops_stats_lookup (od1 od2 : gmap string Z) k :
  merge_ops_stats od1 (Some od2) !! k
  = union_with (fun a b => Some (a + b)) (od1 !! k) (od2 !! k).
Proof.
  unfold merge_ops_stats.
  apply (map_fold_weak_ind
           (fun (acc : gmap string Z) (m : gmap string Z) =>
              acc !! k = union_with (fun a b => Some (a + b)) (od1 !! k) (m !! k))).
  - rewrite lookup_empty. destruct (od1 !! k); reflexivity.
  - intros i x m acc Hi IH.
    destruct (decide (i = k)) as [->|Hne].
    + rewrite lookup_insert_eq. rewrite Hi in IH.
      destruct (acc !! k) as [c|] eqn:Hacc; rewrite lookup_insert_eq;
        destruct (od1 !! k); cbn in *; congruence.
    + rewrite (lookup_insert_ne m) by done.
      destruct (acc !! i); rewrite lookup_insert_ne by done; exact IH.
Qed.

(** X1. Merging counters is commutative and associative, and the empty
    map is neutral: the totals do not depend on the order in which the
    per-block statistics are merged. *)
Theorem merge_ops_stats_monoid (a b c : gmap string Z) :
  merge_ops_stats a (Some b) = merge_ops_stats b (Some a)
  /\ merge_ops_stats (merge_ops_stats a (Some b)) (Some c)
     = merge_ops_stats a (Some (merge_ops_stats b (Some c)))
  /\ merge_ops_stats a (Some ∅) = a
  /\ merge_ops_stats ∅ (Some a) = a.
Proof.
  repeat split; apply map_eq; intros k; rewrite ?merge_ops_stats_lookup,
    ?lookup_empty; destruct (a !! k), (b !! k), (c !! k); cbn; f_equal; lia.
Qed.

(** ** The virtual-ops preparer: how it composes *)

Lemma append_payouts_lookup (c1 c2 : gmap string (list json)) key :
  append_payouts c1 c2 !! key
  = union_with (fun l1 l2 => Some (l1 ++ l2)) (c1 !! key) (c2 !! key).
Proof. unfold append_payouts. apply lookup_union_with. Qed.

Lemma append_payouts_assoc (c1 c2 c3 : gmap string (list json)) :
  append_payouts (append_payouts c1 c2) c3 = append_payouts c1 (append_payouts c2 c3).
Proof.
  apply map_eq. intros key. rewrite !append_payouts_lookup.
  destruct (c1 !! key), (c2 !! key), (c3 !! key); cbn; rewrite <- ?app_assoc;
    reflexivity.
Qed.

Lemma append_payouts_empty_r (c : gmap string (list json)) : append_payouts c ∅ = c.
Proof.
  apply map_eq. intros key. rewrite append_payouts_lookup, lookup_empty.
  destruct (c !! key); reflexivity.
Qed.

Lemma append_payouts_empty_l (c : gmap string (list json)) : append_payouts ∅ c = c.
Proof.
  apply map_eq. intros key. rewrite append_payouts_lookup, lookup_empty.
  destruct (c !! key); reflexivity.
Qed.

Lemma append_payouts_singleton (c : gmap string (list json)) key entry :
  match c !! key with
  | Some l => <[key := l ++ [entry]]> c
  | None => <[key := [entry]]> c
  end = append_payouts c (<[key := [entry]]> ∅).
Proof.
  apply map_eq. intros k. rewrite append_payouts_lookup.
  destruct (decide (key = k)) as [->|Hne].
  - rewrite (lookup_insert_eq ∅). destruct (c !! k) eqn:E; rewrite lookup_insert_eq;
      reflexivity.
  - rewrite (lookup_insert_ne ∅), lookup_empty by done.
    destruct (c !! key); rewrite lookup_insert_ne by done; destruct (c !! k);
      reflexivity.
Qed.

(** What one virtual operation does to the accumulated maps is what it
    does to empty maps, appended. *)
Lemma prepare_vop_acc py_repr vop vote_ops comment_payout_ops :
  prepare_vop py_repr vop (vote_ops, comment_payout_ops)
  = match prepare_vop py_repr vop ([], ∅) with
    | Ok (_, c) => Ok (vote_ops, append_payouts comment_payout_ops c)
    | Raise e => Raise e
    end.
Proof.
  unfold prepare_vop, dict_append, mbind, result_bind.
  repeat match goal with
         | |- context [if ?a == ?b then _ else _] => destruct (a == b)
         end;
    repeat match goal with
           | |- context [match subscript ?v ?k with _ => _ end] =>
               destruct (subscript v k)
           end;
    try reflexivity;
    rewrite ?lookup_empty, ?append_payouts_empty_r;
    try reflexivity;
    rewrite <- append_payouts_singleton;
    destruct (comment_payout_ops !! _); reflexivity.
Qed.

Lemma fold_prepare_acc py_repr vopsList : forall vote_ops comment_payout_ops,
  fold_result (prepare_vop py_repr) vopsList (vote_ops, comment_payout_ops)
  = match fold_result (prepare_vop py_repr) vopsList ([], ∅) with
    | Ok (_, c) => Ok (vote_ops, append_payouts comment_payout_ops c)
    | Raise e => Raise e
    end.
Proof.
  induction vopsList as [|vop l IH]; intros vo cpo; cbn [fold_result].
  - rewrite append_payouts_empty_r. reflexivity.
  - unfold mbind, result_bind.
    rewrite (prepare_vop_acc py_repr vop vo cpo).
    destruct (prepare_vop py_repr vop ([], ∅)) as [[v1 c1]|e] eqn:E; [|reflexivity].
    rewrite (IH vo), (IH v1).
    destruct (fold_result (prepare_vop py_repr) l ([], ∅)) as [[v2 c2]|e];
      [|reflexivity].
    rewrite append_payouts_assoc. reflexivity.
Qed.

Lemma fold_result_app {A B} (body : A -> B -> result B) l1 l2 acc :
  fold_result body (l1 ++ l2) acc
  = match fold_result body l1 acc with
    | Ok acc' => fold_result body l2 acc'
    | Raise e => Raise e
    end.
Proof.
  revert acc. induction l1 as [|x l1 IH]; intros acc; cbn; [reflexivity|].
  unfold mbind, result_bind. destruct (body x acc); [apply IH|reflexivity].
Qed.

(** Whenever [prepare_vops] returns, the effective-votes map is empty. *)
Lemma prepare_vops_no_votes py_repr vopsList date vote_ops comment_payout_ops :
  prepare_vops py_repr vopsList date = Ok (vote_ops, comment_payout_ops) ->
  vote_ops = [].
Proof.
  unfold prepare_vops. rewrite fold_prepare_acc.
  destruct (fold_result (prepare_vop py_repr) vopsList ([], ∅)) as [[? ?]|];
    congruence.
Qed.

(** X2. [prepare_vops] on a concatenation: it raises what the first part
    raises, else what the second part raises, else it returns an empty
    effective-votes map and, per [author/permlink] key, the payout
    entries of the first part followed by those of the second. *)
Theorem prepare_vops_app py_repr (l1 l2 : list operation) (date : option string) :
  prepare_vops py_repr (l1 ++ l2) date
  = match prepare_vops py_repr l1 date, prepare_vops py_repr l2 date with
    | Ok (_, c1), Ok (_, c2) => Ok ([], append_payouts c1 c2)
    | Ok _, Raise e => Raise e
    | Raise e, _ => Raise e
    end.
Proof.
  unfold prepare_vops. rewrite fold_result_app.
  destruct (fold_result (prepare_vop py_repr) l1 ([], ∅)) as [[v1 c1]|e] eqn:E1;
    [|reflexivity].
  pose proof (prepare_vops_no_votes py_repr l1 date v1 c1 E1) as ->.
  rewrite fold_prepare_acc.
  destruct (fold_result (prepare_vop py_repr) l2 ([], ∅)) as [[v2 c2]|e];
    reflexivity.
Qed.

(** ** What [_process] never does *)

Section Never.

Context {W : Type} (ext : forall R, extE R -> W -> result R * W).
Context (py_repr : json -> string).

Lemma second_scan_wp (Ev : event -> Prop) is_initial_sync num block s :
  (forall tx_idx operation json_ops s0,
     wp (dispatch ext is_initial_sync num tx_idx operation json_ops)
        Ev (fun _ _ => True) s0) ->
  wp (second_scan ext is_initial_sync num block) Ev (fun _ _ => True) s.
Proof.
  intros Hd. unfold second_scan.
  apply (wp_for_fold _ _ (fun _ _ => True)); [|auto|exact I].
  intros [tx_idx tx] json_ops s0 _ _.
  apply (wp_for_fold _ _ (fun _ _ => True)); [|auto|exact I].
  intros operation acc s1 _ _.
  eapply wp_conseq; [apply Hd|]. intros [?|?] ? ?; exact I.
Qed.

(** The second scan only calls [Accounts.dirty], [Posts] and [Payments]. *)
Lemma dispatch_scan_calls is_initial_sync num tx_idx operation json_ops s :
  wp (dispatch ext is_initial_sync num tx_idx operation json_ops)
     (fun e => is_scan_call e = true) (fun _ _ => True) s.
Proof. unfold dispatch, count_op. wp_steps; auto. Qed.

Lemma dispatch_initial num tx_idx operation json_ops s :
  wp (dispatch ext true num tx_idx operation json_ops)
     (fun e => is_dirty_call e = false /\ is_hived_call e = false)
     (fun _ _ => True) s.
Proof.
  unfold dispatch, count_op. cbn [negb]. wp_steps; auto.
Qed.

Lemma votes_wp (Ev : event -> Prop) (vote_ops : list (string * json)) s :
  (forall k v date, Ev (Call (Votes_effective_comment_vote_op k v date))) ->
  wp (for_each (fun '(k, v) =>
                  date ← get _head_block_date;
                  call ext (Votes_effective_comment_vote_op k v date)) vote_ops)
     Ev (fun _ _ => True) s.
Proof.
  intros HEv.
  apply (wp_for_each _ _ (fun _ => True)); [|auto|exact I].
  intros [k v] s0 _ _. wp_steps; auto.
Qed.

(** X3. In live sync ([is_initial_sync = False]) [_process] never calls
    [Votes.effective_comment_vote_op]: the effective-votes map that
    [prepare_vops] returns is always empty. *)
Theorem live_sync_never_votes block vops s :
  Forall (fun e => is_vote_call e = false)
         (evs (_process ext py_repr block vops false s)).
Proof.
  enough (wp (_process ext py_repr block vops false)
             (fun e => is_vote_call e = false) (fun _ _ => True) s) as [H _]
    by exact H.
  unfold _process, _push.
  repeat first
    [ progress wp_simpl
    | match goal with
      | H : prepare_vops _ _ _ = Ok (?g, _)
        |- wp (for_each _ ?g ≫= _) _ _ _ =>
          apply prepare_vops_no_votes in H; subst g;
          unfold for_each; cbn [for_fold]
      end
    | wp_step
    | eapply wp_conseq;
      [eapply wp_events;
       [apply second_scan_wp; intros; apply dispatch_scan_calls
       |intros e He; destruct e as [? []| |]; (reflexivity || discriminate He)]
      |intros [?|?] ? ?] ].
  all: auto.
Qed.

(** X4. During the initial sync ([is_initial_sync = True]) [_process]
    never marks an account dirty and never asks [hived] for virtual
    operations. *)
Theorem initial_sync_never_dirty block vops s :
  Forall (fun e => is_dirty_call e = false /\ is_hived_call e = false)
         (evs (_process ext py_repr block vops true s)).
Proof.
  enough (wp (_process ext py_repr block vops true)
             (fun e => is_dirty_call e = false /\ is_hived_call e = false)
             (fun _ _ => True) s) as [H _]
    by exact H.
  unfold _process, _push.
  repeat first
    [ progress wp_simpl
    | wp_step
    | eapply wp_conseq;
      [first [apply second_scan_wp; intros; apply dispatch_initial
             |apply votes_wp; intros; split; reflexivity]
      |intros [?|?] ? ?] ].
  all: auto.
Qed.

End Never.

(** ** The second scan: counters and deferred custom JSON *)

Section SecondScan.

Context {W : Type} (ext : forall R, extE R -> W -> result R * W).

Lemma wp_for_fold_rest {A B} (body : A -> B -> M W B) Ev
    (Inv : list A -> B -> state W -> Prop) (Q : result B -> state W -> Prop) :
  (forall x rest acc s, Inv (x :: rest) acc s ->
     wp (body x acc) Ev
        (fun r s' => match r with
                     | Ok acc' => Inv rest acc' s'
                     | Raise e => Q (Raise e) s'
                     end) s) ->
  (forall acc s, Inv [] acc s -> Q (Ok acc) s) ->
  forall l acc s, Inv l acc s -> wp (for_fold body l acc) Ev Q s.
Proof.
  intros Hbody Hend. induction l as [|x l IH]; intros acc s HI; cbn [for_fold].
  - apply wp_ret, Hend, HI.
  - apply wp_bind. eapply wp_conseq; [apply Hbody, HI|].
    intros [acc'|e] s' H; [apply IH, H|exact H].
Qed.

Lemma counter_bump (stats : gmap string Z) op_type t :
  counter (match stats !! op_type with
           | Some c => <[op_type := c + 1]> stats
           | None => <[op_type := 1]> stats
           end) t
  = counter stats t + (if op_type == t then 1 else 0).
Proof.
  unfold counter. destruct (String.eqb_spec op_type t) as [->|Hne].
  - destruct (stats !! t) eqn:E; rewrite lookup_insert_eq; cbn; lia.
  - destruct (stats !! op_type); rewrite lookup_insert_ne by done; lia.
Qed.

Lemma counted_single operation t :
  counted t [operation]
  = if type operation == "custom_json_operation" then 0
    else if type operation == t then 1 else 0.
Proof.
  unfold counted, occurrences, len. cbn [List.filter].
  destruct (String.eqb_spec t "custom_json_operation") as [->|Hne].
  - destruct (type operation == "custom_json_operation"); reflexivity.
  - destruct (String.eqb_spec (type operation) "custom_json_operation") as [E|E].
    + rewrite E. destruct (String.eqb_spec "custom_json_operation" t); [congruence|].
      reflexivity.
    + destruct (type operation == t); reflexivity.
Qed.

Lemma payloads_single operation :
  payloads_of [operation]
  = if type operation == "custom_json_operation" then [value operation] else [].
Proof.
  unfold payloads_of. cbn [List.filter].
  destruct (type operation == "custom_json_operation"); reflexivity.
Qed.

Lemma dispatch_spec is_initial_sync num tx_idx operation json_ops s :
  wp (dispatch ext is_initial_sync num tx_idx operation json_ops)
     (fun e => is_scan_call e = true)
     (fun r s' =>
        forall l, r = Ok l ->
          l = json_ops ++ payloads_of [operation]
          /\ forall t, counter (ops_stats s') t
                       = counter (ops_stats s) t + counted t [operation]) s.
Proof.
  unfold dispatch, count_op.
  wp_steps; auto.
  all: intros l [= <-].
  all: repeat match goal with
              | H : negb _ = true |- _ => apply negb_true_iff in H
              | H : negb _ = false |- _ => apply negb_false_iff in H
              end.
  all: rewrite payloads_single;
    split; [|intros t; rewrite counted_single, ?counter_bump].
  all: destruct (type operation == "custom_json_operation") eqn:Ec;
    try discriminate; rewrite ?app_nil_r; try reflexivity; try lia.
  all: exfalso;
    repeat match goal with
           | H : (_ == _) = true |- _ => apply String.eqb_eq in H
           end; congruence.
Qed.

(** [enumerate] keeps the elements. *)
Lemma enumerate_snd {A} (l : list A) : map snd (enumerate l) = l.
Proof.
  unfold enumerate.
  enough (forall f : nat -> Z, map snd (imap (fun i x => (f i, x)) l) = l) as H
    by apply (H Z.of_nat).
  induction l as [|x l IH]; intros f; cbn; [reflexivity|].
  f_equal. apply (IH (f ∘ S)).
Qed.

Lemma payloads_of_app l1 l2 : payloads_of (l1 ++ l2) = payloads_of l1 ++ payloads_of l2.
Proof. unfold payloads_of. rewrite List.filter_app, List.map_app. reflexivity. Qed.

Lemma counted_app t l1 l2 : counted t (l1 ++ l2) = counted t l1 + counted t l2.
Proof.
  unfold counted, occurrences, len. rewrite List.filter_app, List.length_app.
  destruct (t == "custom_json_operation"); lia.
Qed.

Lemma payloads_of_cons x l : payloads_of (x :: l) = payloads_of [x] ++ payloads_of l.
Proof. apply (payloads_of_app [x] l). Qed.

Lemma counted_cons t x l : counted t (x :: l) = counted t [x] + counted t l.
Proof. apply (counted_app t [x] l). Qed.

Lemma scan_txs_spec is_initial_sync num (txs : list (Z * transaction)) s :
  wp (for_fold
        (fun '(tx_idx, tx) json_ops =>
           for_fold (dispatch ext is_initial_sync num tx_idx) (operations tx) json_ops)
        txs [])
     (fun e => is_scan_call e = true)
     (fun r s' =>
        forall l, r = Ok l ->
          l = payloads_of (concat (map operations (map snd txs)))
          /\ forall t, counter (ops_stats s') t
                       = counter (ops_stats s) t
                         + counted t (concat (map operations (map snd txs)))) s.
Proof.
  set (target := fun t => counter (ops_stats s) t
                          + counted t (concat (map operations (map snd txs)))).
  apply (wp_for_fold_rest _ _
           (fun rest acc s' =>
              acc ++ payloads_of (concat (map operations (map snd rest)))
              = payloads_of (concat (map operations (map snd txs)))
              /\ forall t, counter (ops_stats s') t
                           + counted t (concat (map operations (map snd rest)))
                           = target t)).
  - intros [tx_idx tx] rest acc s0 [Hacc Hcount]. cbn [map snd concat] in *.
    apply (wp_for_fold_rest _ _
             (fun ops acc' s' =>
                acc' ++ payloads_of (ops ++ concat (map operations (map snd rest)))
                = payloads_of (concat (map operations (map snd txs)))
                /\ forall t, counter (ops_stats s') t
                             + counted t (ops ++ concat (map operations (map snd rest)))
                             = target t)); [| |split; assumption].
    + intros operation ops acc' s1 [Hacc' Hcount'].
      eapply wp_conseq; [apply dispatch_spec|].
      intros [l|e] s' H; [|intros ? [=]].
      destruct (H l eq_refl) as [-> Hc]. split.
      * cbn [app] in Hacc'. rewrite payloads_of_cons in Hacc'.
        rewrite <- Hacc', app_assoc. reflexivity.
      * intros t. specialize (Hcount' t). cbn [app] in Hcount'.
        rewrite counted_cons in Hcount'. rewrite Hc. lia.
    + intros acc' s1 [? ?]. split; assumption.
  - intros acc s0 [Hacc Hcount] l [= <-]. cbn in Hacc, Hcount.
    rewrite app_nil_r in Hacc. split; [exact Hacc|].
    intros t. specialize (Hcount t). unfold target in Hcount.
    assert (counted t [] = 0) as E0
      by (unfold counted, occurrences; destruct (t == _); reflexivity).
    rewrite E0 in Hcount. lia.
  - split; [reflexivity|]. intros t. reflexivity.
Qed.

Lemma second_scan_spec is_initial_sync num block s :
  wp (second_scan ext is_initial_sync num block)
     (fun e => is_scan_call e = true)
     (fun r s' =>
        forall l, r = Ok l ->
          l = custom_json_payloads block
          /\ forall t, counter (ops_stats s') t
                       = counter (ops_stats s) t
                         + counted t (all_operations block)) s.
Proof.
  pose proof (scan_txs_spec is_initial_sync num (enumerate (transactions block)) s)
    as H.
  rewrite enumerate_snd in H. exact H.
Qed.

End SecondScan.

(** ** Reasoning about the phases of a trace *)

Lemma accepts_app {E Q : Type} (step : Q -> E -> Q -> Prop) q t1 q1 t2 q2 :
  accepts step q t1 q1 -> accepts step q1 t2 q2 -> accepts step q (t1 ++ t2) q2.
Proof.
  revert q. induction t1 as [|e t1 IH]; intros q; cbn.
  - intros ->. auto.
  - intros (q0 & Hs & H) H2. exists q0. split; [exact Hs|]. apply IH; assumption.
Qed.

(** While every event keeps the phase, the phase is kept. *)
Lemma accepts_stay {E Q : Type} (step : Q -> E -> Q -> Prop) q t :
  Forall (fun e => step q e q) t -> accepts step q t q.
Proof.
  induction 1 as [|e t He _ IH]; cbn; [reflexivity|]. exists q. auto.
Qed.

Section Phases.

Context {W Q : Type} (step : Q -> event -> Q -> Prop).
Implicit Types (s : state W) (q : Q).

Lemma wpa_bind {A B} (m : M W A) (f : A -> M W B) P s q :
  wpa m step (fun r s' q' =>
                match r with
                | Ok a => wpa (f a) step P s' q'
                | Raise e => P (Raise e) s' q'
                end) s q ->
  wpa (m ≫= f) step P s q.
Proof.
  intros (q1 & Hacc & H). unfold wpa. rewrite bind_run.
  destruct (res (m s)) as [a|e]; cbn [evs res post].
  - destruct H as (q2 & Hacc' & H). exists q2. split; [|exact H].
    eapply accepts_app; eassumption.
  - exists q1. auto.
Qed.

Lemma wpa_conseq {A} (m : M W A) (P P' : result A -> state W -> Q -> Prop) s q :
  wpa m step P s q -> (forall r s' q', P r s' q' -> P' r s' q') -> wpa m step P' s q.
Proof. intros (q' & ? & ?) HP. exists q'. auto. Qed.

Lemma wpa_silent {A} (m : M W A) (P : result A -> state W -> Q -> Prop) s q :
  evs (m s) = [] -> P (res (m s)) (post (m s)) q -> wpa m step P s q.
Proof. intros E H. exists q. rewrite E. split; [reflexivity|exact H]. Qed.

Lemma wpa_ret {A} (a : A) (P : result A -> state W -> Q -> Prop) s q :
  P (Ok a) s q -> wpa (ret a) step P s q.
Proof. intros H. exists q. split; [reflexivity|exact H]. Qed.

Lemma wpa_raise {A} e (P : result A -> state W -> Q -> Prop) s q :
  P (Raise e) s q -> wpa (raise e) step P s q.
Proof. intros H. exists q. split; [reflexivity|exact H]. Qed.

Lemma wpa_lift {A} (r : result A) (P : result A -> state W -> Q -> Prop) s q :
  P r s q -> wpa (lift r) step P s q.
Proof. intros H. exists q. split; [reflexivity|exact H]. Qed.

Lemma wpa_get {A} (f : state W -> A) (P : result A -> state W -> Q -> Prop) s q :
  P (Ok (f s)) s q -> wpa (get f) step P s q.
Proof. intros H. exists q. split; [reflexivity|exact H]. Qed.

Lemma wpa_modify (g : state W -> state W) (P : result unit -> state W -> Q -> Prop) s q :
  P (Ok tt) (g s) q -> wpa (modify g) step P s q.
Proof. intros H. exists q. split; [reflexivity|exact H]. Qed.

Lemma wpa_emit e (P : result unit -> state W -> Q -> Prop) s q q1 :
  step q e q1 -> P (Ok tt) s q1 -> wpa (emit e) step P s q.
Proof. intros Hs H. exists q1. split; [exists q1; split; [exact Hs|reflexivity]|exact H]. Qed.

Lemma wpa_call ext {R} (c : extE R) (P : result R -> state W -> Q -> Prop) s q q1 :
  step q (Call c) q1 -> (forall r w, P r (set_world w s) q1) ->
  wpa (call ext c) step P s q.
Proof.
  intros Hs H. unfold wpa. rewrite call_run. cbn [evs res post].
  exists q1. split; [exists q1; split; [exact Hs|reflexivity]|apply H].
Qed.

(** A program all of whose events keep the phase [q] stays in it. *)
Lemma wpa_of_wp {A} (m : M W A) (Ev : event -> Prop) (P : result A -> state W -> Prop) s q :
  wp m Ev P s -> (forall e, Ev e -> step q e q) ->
  wpa m step (fun r s' q' => q' = q /\ P r s') s q.
Proof.
  intros [Hev H] Hstay. exists q. split; [|auto].
  induction Hev as [|e t He _ IH]; cbn; [reflexivity|].
  exists q. auto.
Qed.

End Phases.

Ltac wpa_step :=
  lazymatch goal with
  | |- wpa (_ ≫= _) _ _ _ _ => apply wpa_bind
  | |- wpa (ret _) _ _ _ _ => apply wpa_ret
  | |- wpa (raise _) _ _ _ _ => apply wpa_raise
  | |- wpa (lift ?r) _ _ _ _ => apply wpa_lift; destruct r eqn:?
  | |- wpa (get _) _ _ _ _ => apply wpa_get
  | |- wpa (modify _) _ _ _ _ => apply wpa_modify
  | |- wpa (if ?b then _ else _) _ _ _ _ => destruct b eqn:?
  | |- wpa (match ?x with _ => _ end) _ _ _ _ => destruct x eqn:?
  end.

(** ** Custom JSON is handled after the second scan *)

Section Deferred.

Context {W : Type} (ext : forall R, extE R -> W -> result R * W).
Context (py_repr : json -> string).

Lemma custom_step_after block t q' :
  accepts (custom_step block) true t q' ->
  q' = true
  /\ Forall (fun e => is_custom_call e = false /\ is_scan_call e = false) t.
Proof.
  induction t as [|e t IH]; cbn [accepts].
  - intros <-. split; [reflexivity|constructor].
  - intros (q1 & Hs & H).
    assert (q1 = true /\ is_custom_call e = false /\ is_scan_call e = false)
      as (-> & Hc & Hsc).
    { destruct e as [R c| |]; cbn in Hs |- *; [|subst; auto..].
      destruct c; cbn in Hs |- *;
        try (destruct Hs as [-> Hs];
             first [discriminate (Hs eq_refl)|repeat split; reflexivity]).
      destruct Hs as [[=] _]. }
    destruct (IH H) as [-> Hall]. split; [reflexivity|]. constructor; auto.
Qed.

Lemma custom_step_called block t : forall q q' pre l n date rest,
  accepts (custom_step block) q t q' ->
  t = pre ++ Call (CustomOp_process_ops l n date) :: rest ->
  l = custom_json_payloads block /\ l <> [] /\ block_num block = Ok n
  /\ Forall (fun e => is_custom_call e = false) pre
  /\ Forall (fun e => is_custom_call e = false /\ is_scan_call e = false) rest.
Proof.
  induction t as [|e t IH]; intros q q' pre l n date rest Hacc Ht.
  - destruct pre; discriminate Ht.
  - cbn [accepts] in Hacc. destruct Hacc as (q1 & Hs & Hacc).
    destruct pre as [|e0 pre]; cbn [app] in Ht; injection Ht as -> ->.
    + cbn in Hs. destruct Hs as (-> & -> & -> & Hne & Hn).
      apply custom_step_after in Hacc as [_ Hall]. repeat split; auto.
    + destruct (IH _ _ _ _ _ _ _ Hacc eq_refl) as (? & ? & ? & Hpre & ?).
      repeat split; auto. constructor; [|exact Hpre].
      destruct e0 as [R c| |]; [|reflexivity..].
      destruct c; try reflexivity.
      cbn in Hs. destruct Hs as (-> & -> & _).
      apply custom_step_after in Hacc as [_ Hall].
      apply Forall_app in Hall as [_ Hall]. apply Forall_cons in Hall as [[[=] _] _].
Qed.

Lemma custom_step_delivered block t : forall q,
  accepts (custom_step block) q t true -> q = false ->
  exists pre n date rest,
    block_num block = Ok n
    /\ t = pre ++ Call (CustomOp_process_ops (custom_json_payloads block) n date) :: rest.
Proof.
  induction t as [|e t IH]; intros q Hacc ->; cbn [accepts] in Hacc.
  - discriminate Hacc.
  - destruct Hacc as (q1 & Hs & Hacc).
    assert ((exists n date, block_num block = Ok n /\
               e = Call (CustomOp_process_ops (custom_json_payloads block) n date))
            \/ q1 = false) as [(n & date & Hn & ->) | ->].
    { destruct e as [R c| |]; cbn in Hs; [|auto..].
      destruct c; try (destruct Hs as [-> _]; auto; fail).
      destruct Hs as (_ & _ & -> & _ & Hn). left. eauto. }
    + exists [], n, date, t. auto.
    + destruct (IH _ Hacc eq_refl) as (pre & n & date & rest & Hn & ->).
      exists (e :: pre), n, date, rest. auto.
Qed.

Lemma scan_stays block e :
  is_scan_call e = true -> custom_step block false e false.
Proof.
  destruct e as [R c| |]; [|discriminate..].
  destruct c; cbn; intros [=]; auto.
Qed.

Lemma _process_phases block vops is_initial_sync s :
  wpa (_process ext py_repr block vops is_initial_sync) (custom_step block)
      (fun r _ q' => forall num, r = Ok num ->
                       block_num block = Ok num
                       /\ (custom_json_payloads block <> [] -> q' = true)) s false.
Proof.
  unfold _process, _push.
  repeat first [wpa_step | progress wp_simpl]; try discriminate.
  all: eapply wpa_call; [split; [reflexivity|intros [=]]|intros [?|?] ?];
    [|discriminate].
  all: apply wpa_bind; eapply wpa_conseq;
    [eapply wpa_of_wp; [apply second_scan_spec|apply scan_stays]|].
  all: intros [l|e] s' q' [-> Hl]; [|discriminate].
  all: destruct (Hl l eq_refl) as [-> _]; clear Hl.
  all: destruct (custom_json_payloads block) as [|op json_ops] eqn:Hp.
  all: repeat first
    [ progress wp_simpl
    | match goal with
      | |- wpa (for_each _ _) _ _ _ ?q =>
          eapply wpa_conseq;
          [apply (wpa_of_wp _ _ (fun e => custom_step block q e q));
           [apply votes_wp; intros; split; [reflexivity|intros [=]]|auto]
          |intros [?|?] ? ? [-> _]]
      end
    | wpa_step
    | eapply wpa_call;
      [cbn [custom_step is_scan_call]; repeat split;
       first [reflexivity|discriminate|exact Heqr|exact (eq_sym Hp)|intros [=]]
      |intros [?|?] ?] ].
  all: intros num Hr; try discriminate Hr.
  all: injection Hr as <-; split; [exact Heqr|intros Hne].
  all: first [reflexivity|destruct Hne; reflexivity].
Qed.

(** X5. Whenever [_process] calls [CustomOp.process_ops], it passes the
    payloads of all [custom_json_operation]s of the block, in block
    order, and the block's number; the list is not empty; it is the only
    such call; and no operation of the block is dispatched after it. *)
Theorem custom_json_deferred block vops is_initial_sync s pre l n date rest :
  evs (_process ext py_repr block vops is_initial_sync s)
  = pre ++ Call (CustomOp_process_ops l n date) :: rest ->
  l = custom_json_payloads block /\ l <> [] /\ block_num block = Ok n
  /\ Forall (fun e => is_custom_call e = false) pre
  /\ Forall (fun e => is_custom_call e = false /\ is_scan_call e = false) rest.
Proof.
  destruct (_process_phases block vops is_initial_sync s) as (q' & Hacc & _).
  intros Ht. eapply custom_step_called; eassumption.
Qed.

(** X6. When [_process] returns for a block that holds a
    [custom_json_operation], it has called [CustomOp.process_ops] with
    the payloads of all of them and the number it returns. *)
Theorem custom_json_delivered block vops is_initial_sync s num :
  res (_process ext py_repr block vops is_initial_sync s) = Ok num ->
  custom_json_payloads block <> [] ->
  exists pre date rest,
    evs (_process ext py_repr block vops is_initial_sync s)
    = pre ++ Call (CustomOp_process_ops (custom_json_payloads block) num date) :: rest.
Proof.
  intros Hres Hne.
  destruct (_process_phases block vops is_initial_sync s) as (q' & Hacc & Hq).
  destruct (Hq num Hres) as [Hnum Hq']. rewrite (Hq' Hne) in Hacc.
  destruct (custom_step_delivered _ _ _ Hacc eq_refl)
    as (pre & n & date & rest & Hn & Ht).
  exists pre, date, rest. rewrite Ht. congruence.
Qed.
End Deferred.

Lemma custom_json_deferred_witness :
  [JDict [("id", JStr "follow")]] = custom_json_payloads block_2
  /\ [JDict [("id", JStr "follow")]] <> []
  /\ block_num block_2 = Ok 2
  /\ Forall (fun e => is_custom_call e = false)
            [Call (Accounts_register [] (Some "2016-03-24T16:05:00"));
             Call (Payments_op_transfer
                     (JDict [("from", JStr "alice"); ("to", JStr "bob")]) 0 2
                     (Some "2016-03-24T16:05:00"))]
  /\ Forall (fun e => is_custom_call e = false /\ is_scan_call e = false)
            [Call (hived_get_virtual_operations 2)].
Proof.
  apply (custom_json_deferred quiet no_repr block_2 ∅ false after_block_1
           _ _ 2 (Some "2016-03-24T16:05:00") _).
  vm_compute. reflexivity.
Defined.

Lemma custom_json_delivered_witness :
  exists pre date rest,
    evs (_process quiet no_repr block_2 ∅ false after_block_1)
    = pre ++ Call (CustomOp_process_ops (custom_json_payloads block_2) 2 date) :: rest.
Proof.
  apply (custom_json_delivered quiet no_repr block_2 ∅ false after_block_1 2).
  - vm_compute. reflexivity.
  - vm_compute. discriminate.
Defined.

(** ** The second scan counts operations *)

Section Counting.

Context {W : Type} (ext : forall R, extE R -> W -> result R * W).

(** X7. When the second scan of [_process] gets through a block, the
    counter of every operation type other than [custom_json_operation]
    has grown by the number of operations of that type in the block,
    and the counter of [custom_json_operation] is where it was. *)
Theorem second_scan_counts is_initial_sync num block s json_ops :
  res (second_scan ext is_initial_sync num block s) = Ok json_ops ->
  forall op_type,
    counter (ops_stats (post (second_scan ext is_initial_sync num block s))) op_type
    = counter (ops_stats s) op_type + counted op_type (all_operations block).
Proof.
  intros Hres.
  destruct (second_scan_spec ext is_initial_sync num block s) as [_ H].
  destruct (H json_ops Hres) as [_ Hc]. exact Hc.
Qed.

End Counting.

(** ** Staged headers *)

Section Staging.

Context {W : Type} (ext : forall R, extE R -> W -> result R * W).
Context (py_repr : json -> string).

Lemma dispatch_buffer buf is_initial_sync num tx_idx operation json_ops s :
  blocks_to_flush s = buf ->
  wp (dispatch ext is_initial_sync num tx_idx operation json_ops)
     (fun _ => True) (fun _ s' => blocks_to_flush s' = buf) s.
Proof.
  intros Hd. unfold dispatch, count_op. wp_steps; solve [exact I|assumption].
Qed.

Lemma second_scan_buffer buf is_initial_sync num block s :
  blocks_to_flush s = buf ->
  wp (second_scan ext is_initial_sync num block)
     (fun _ => True) (fun _ s' => blocks_to_flush s' = buf) s.
Proof.
  intros Hd. unfold second_scan.
  apply (wp_for_fold _ _ (fun _ s' => blocks_to_flush s' = buf)); [|auto|exact Hd].
  intros [tx_idx tx] json_ops s0 _ Hd0.
  apply (wp_for_fold _ _ (fun _ s' => blocks_to_flush s' = buf)); [|auto|exact Hd0].
  intros operation acc s1 _ Hd1.
  eapply wp_conseq; [apply dispatch_buffer, Hd1|].
  intros [?|?] ? ?; assumption.
Qed.

Lemma votes_buffer buf (vote_ops : list (string * json)) s :
  blocks_to_flush s = buf ->
  wp (for_each (fun '(k, v) =>
                  date ← get _head_block_date;
                  call ext (Votes_effective_comment_vote_op k v date)) vote_ops)
     (fun _ => True) (fun _ s' => blocks_to_flush s' = buf) s.
Proof.
  intros Hd.
  apply (wp_for_each _ _ (fun s' => blocks_to_flush s' = buf)); [|auto|exact Hd].
  intros [k v] s0 _ Hd0. wp_steps; solve [exact I|assumption].
Qed.

Lemma staged_ok block num :
  block_num block = Ok num ->
  exists h, stage block = Ok h /\ h_num h = num /\ staged block = [h].
Proof.
  intros H. unfold staged, stage. unfold block_num in H. rewrite H. cbn.
  eexists. repeat split.
Qed.

(** [_process] appends to the buffer the header of its block, if [_push]
    got that far, and nothing else. *)
Lemma _process_buffer block vops is_initial_sync s :
  wp (_process ext py_repr block vops is_initial_sync)
     (fun _ => True)
     (fun r s' => blocks_to_flush s' = blocks_to_flush s ++ staged block
                  /\ forall num, r = Ok num -> block_num block = Ok num) s.
Proof.
  assert (staged block
          = match block_num block with
            | Ok num => [{| h_num := num;
                            h_hash := block_id block;
                            h_prev := previous block;
                            h_txs := len (transactions block);
                            h_ops := sum (map (fun tx => len (operations tx))
                                              (transactions block));
                            h_date := timestamp block |}]
            | Raise _ => []
            end) as Hstaged.
  { unfold staged, stage, block_num. destruct (int16 _); reflexivity. }
  unfold _process, _push. fold (block_num block).
  destruct (block_num block) as [num|e] eqn:Hpush; rewrite Hstaged; clear Hstaged.
  2:{ wp_steps; try discriminate.
      all: split; [rewrite app_nil_r; reflexivity|discriminate]. }
  set (buf := blocks_to_flush s ++ _).
  repeat first
    [ progress wp_simpl
    | wp_step
    | eapply wp_conseq;
      [first [apply (second_scan_buffer buf)|apply (votes_buffer buf)];
       wp_simpl; first [reflexivity|eassumption]|];
      intros [?|?] ? ? ].
  all: try exact I.
  all: split; [first [assumption|reflexivity]|congruence].
Qed.

(** What the loop of [process_multi] leaves in the buffer: the headers of
    the blocks it went through, the failing one included if [_push] got
    that far. *)
Lemma process_each_buffer blocks vops is_initial_sync : forall last_num s,
  wp (process_each ext py_repr blocks vops is_initial_sync last_num)
     (fun _ => True)
     (fun r s' =>
        match r with
        | Ok (_, None) =>
            blocks_to_flush s' = blocks_to_flush s ++ flat_map staged blocks
            /\ Forall (fun block => is_ok (block_num block) = true) blocks
        | Ok (_, Some _) =>
            exists done block rest,
              blocks = done ++ block :: rest
              /\ Forall (fun block => is_ok (block_num block) = true) done
              /\ blocks_to_flush s'
                 = blocks_to_flush s ++ flat_map staged done ++ staged block
        | Raise _ => False
        end) s.
Proof.
  induction blocks as [|block blocks IH]; intros last_num s; cbn [process_each].
  - apply wp_ret. cbn. rewrite app_nil_r. auto.
  - apply wp_bind, wp_try.
    eapply wp_conseq; [apply _process_buffer|]. cbn beta.
    intros [num|e] s' [Hbuf Hnum].
    + eapply wp_conseq; [apply IH|]. cbn beta.
      assert (is_ok (block_num block) = true) as Hok
        by (rewrite (Hnum num eq_refl); reflexivity).
      intros [[n [e|]]|] s'' H; [| |exact H].
      * destruct H as (done & b & rest & -> & Hdone & Hs'').
        exists (block :: done), b, rest. split; [reflexivity|].
        split; [constructor; assumption|].
        rewrite Hs'', Hbuf. cbn [flat_map]. rewrite <- !app_assoc. reflexivity.
      * destruct H as [Hs'' Hall]. split; [|constructor; assumption].
        rewrite Hs'', Hbuf. cbn [flat_map]. rewrite <- !app_assoc. reflexivity.
    + apply wp_ret. exists [], block, blocks. split; [reflexivity|].
      split; [constructor|]. rewrite Hbuf. reflexivity.
Qed.

Lemma flat_map_staged blocks :
  Forall (fun block => is_ok (block_num block) = true) blocks ->
  Forall2 (fun block h => stage block = Ok h) blocks (flat_map staged blocks).
Proof.
  induction 1 as [|block blocks Hok _ IH]; cbn [flat_map]; [constructor|].
  destruct (block_num block) as [num|] eqn:Hn; [|discriminate Hok].
  destruct (staged_ok _ _ Hn) as (h & Hst & _ & ->). constructor; assumption.
Qed.

(** X8. When [process_multi] returns, the one [INSERT] it sent holds the
    headers that were staged before the call followed by one header per
    block of the batch, in batch order; these rows are appended to
    [hive_blocks], and the buffer is empty. *)
Theorem process_multi_persists blocks vops is_initial_sync s stats :
  res (process_multi ext py_repr blocks vops is_initial_sync s) = Ok stats ->
  let o := process_multi ext py_repr blocks vops is_initial_sync s in
  exists headers,
    Forall2 (fun block h => stage block = Ok h) blocks headers
    /\ Query (INSERT_blocks (blocks_to_flush s ++ headers)) ∈ evs o
    /\ hive_blocks (post o) = hive_blocks s ++ blocks_to_flush s ++ headers
    /\ blocks_to_flush (post o) = [].
Proof.
  intros Hres. cbv zeta.
  pose proof (process_multi_trace ext py_repr blocks vops is_initial_sync s) as H.
  cbv zeta in H. unfold wpt in H.
  destruct (process_each_frame ext py_repr blocks vops is_initial_sync 0 s)
    as (_ & Htbl & _).
  destruct (process_each_buffer blocks vops is_initial_sync 0 s) as [_ Hbuf].
  destruct (res (process_each ext py_repr blocks vops is_initial_sync 0 s))
    as [[last_num [e|]]|]; [| |destruct H].
  - destruct H as [H _]. congruence.
  - destruct (H stats Hres) as (Ht & Hpost & Hempty). destruct Hbuf as [Hbuf Hall].
    exists (flat_map staged blocks). split; [apply flat_map_staged, Hall|].
    split; [|split; [|exact Hempty]].
    + rewrite Ht, Hbuf. right. apply elem_of_app. right.
      do 3 right. left.
    + rewrite Hpost, Htbl, Hbuf. reflexivity.
Qed.

(** X9. When the loop of [process_multi] stops at a block for which
    [_process] raises, [process_multi] raises the same exception and
    leaves in the buffer, after what was there, the headers of the
    blocks before the failing one and, if [_push] got that far, the
    header of the failing block: the buffer is not reset, and
    [hive_blocks] is as it was. *)
Theorem process_multi_failure_keeps_staged blocks vops is_initial_sync s last_num e :
  res (process_each ext py_repr blocks vops is_initial_sync 0 s)
  = Ok (last_num, Some e) ->
  let o := process_multi ext py_repr blocks vops is_initial_sync s in
  res o = Raise e
  /\ exists done block rest headers,
       blocks = done ++ block :: rest
       /\ Forall2 (fun block h => stage block = Ok h) done headers
       /\ blocks_to_flush (post o) = blocks_to_flush s ++ headers ++ staged block
       /\ hive_blocks (post o) = hive_blocks s.
Proof.
  intros Hres. cbv zeta.
  pose proof (process_multi_trace ext py_repr blocks vops is_initial_sync s) as H.
  cbv zeta in H. unfold wpt in H. rewrite Hres in H. destruct H as (Hr & Hs & _).
  destruct (process_each_frame ext py_repr blocks vops is_initial_sync 0 s)
    as (_ & Htbl & _).
  destruct (process_each_buffer blocks vops is_initial_sync 0 s) as [_ Hbuf].
  rewrite Hres in Hbuf. destruct Hbuf as (done & block & rest & -> & Hdone & Hbuf).
  split; [exact Hr|].
  exists done, block, rest, (flat_map staged done).
  split; [reflexivity|]. split; [apply flat_map_staged, Hdone|].
  rewrite Hs. split; assumption.
Qed.

(** X10. [process], the single-block entry point, never writes to
    [hive_blocks]: whatever happens, the table is as it was and the
    header of the block, if [_push] got that far, is left in the buffer;
    the number returned is the one read off [block_id]. *)
Theorem process_stages_only block s :
  let o := process ext py_repr block s in
  hive_blocks (post o) = hive_blocks s
  /\ blocks_to_flush (post o) = blocks_to_flush s ++ staged block
  /\ forall num, res o = Ok num -> block_num block = Ok num.
Proof.
  cbv zeta.
  enough (wp (process ext py_repr block) (fun _ => True)
             (fun r s' => hive_blocks s' = hive_blocks s
                          /\ blocks_to_flush s' = blocks_to_flush s ++ staged block
                          /\ forall num, r = Ok num -> block_num block = Ok num) s)
    as [_ H] by exact H.
  unfold process. wp_step.
  pose proof (_process_frame ext py_repr block ∅ false s) as [_ Htbl].
  pose proof (_process_buffer block ∅ false s) as [_ [Hbuf Hnum]].
  split; [apply Forall_forall; auto|].
  destruct (res (_process ext py_repr block ∅ false s)) as [num|e].
  - wp_steps; auto. all: repeat split; auto; discriminate.
  - repeat split; auto.
Qed.

End Staging.

Lemma second_scan_counts_witness :
  counter (ops_stats (post (second_scan quiet true 2 block_2 after_block_1)))
          "transfer_operation"
  = counter (ops_stats after_block_1) "transfer_operation"
    + counted "transfer_operation" (all_operations block_2).
Proof.
  apply (second_scan_counts quiet true 2 block_2 after_block_1
           [JDict [("id", JStr "follow")]]).
  vm_compute. reflexivity.
Defined.

Lemma process_multi_persists_witness :
  exists headers,
    Forall2 (fun block h => stage block = Ok h) [block_1; block_2] headers
    /\ Query (INSERT_blocks (blocks_to_flush fresh ++ headers))
       ∈ evs (process_multi quiet no_repr [block_1; block_2] ∅ true fresh)
    /\ hive_blocks (post (process_multi quiet no_repr [block_1; block_2] ∅ true fresh))
       = hive_blocks fresh ++ blocks_to_flush fresh ++ headers
    /\ blocks_to_flush (post (process_multi quiet no_repr [block_1; block_2] ∅ true fresh))
       = [].
Proof.
  eapply (process_multi_persists quiet no_repr [block_1; block_2] ∅ true fresh).
  vm_compute. reflexivity.
Defined.

Lemma process_multi_failure_keeps_staged_witness :
  res (process_multi posts_down no_repr [block_500] ∅ true head_499)
  = Raise (Failure "database error")
  /\ exists done block rest headers,
       [block_500] = done ++ block :: rest
       /\ Forall2 (fun block h => stage block = Ok h) done headers
       /\ blocks_to_flush (post (process_multi posts_down no_repr [block_500] ∅ true
                                   head_499))
          = blocks_to_flush head_499 ++ headers ++ staged block
       /\ hive_blocks (post (process_multi posts_down no_repr [block_500] ∅ true
                               head_499))
          = hive_blocks head_499.
Proof.
  apply (process_multi_failure_keeps_staged posts_down no_repr [block_500] ∅ true
           head_499 0 (Failure "database error")).
  vm_compute. reflexivity.
Defined.

Lemma process_stages_only_witness : block_num block_2 = Ok 2.
Proof.
  apply (process_stages_only quiet no_repr block_2 after_block_1).
  vm_compute. reflexivity.
Defined.

(** ** Fork recovery: what is left of the table *)

Section Recovery.

Context {W : Type} (ext : forall R, extE R -> W -> result R * W).

Lemma wp_call_ext {R} (c : extE R) (Ev : event -> Prop)
    (Q : result R -> state W -> Prop) s :
  Ev (Call c) ->
  (forall r w, ext R c (world s) = (r, w) -> Q r (set_world w s)) ->
  wp (call ext c) Ev Q s.
Proof.
  intros He H. unfold wp. rewrite call_run. cbn.
  split; [repeat constructor; exact He|apply H, surjective_pairing].
Qed.

Lemma max_num_attained tbl m :
  max_num tbl = Some m -> exists row, row ∈ tbl /\ h_num row = m.
Proof.
  revert m. induction tbl as [|r tbl IH]; intros m; [discriminate|].
  unfold max_num. cbn [foldr]. fold (max_num tbl).
  destruct (max_num tbl) as [m'|] eqn:E; intros [= <-].
  - destruct (Z.max_spec (h_num r) m') as [[_ ->]|[_ ->]].
    + destruct (IH _ eq_refl) as (row & ? & ?). exists row. split; [right|]; assumption.
    + exists r. split; [left|reflexivity].
  - exists r. split; [left|reflexivity].
Qed.

Lemma rows_upto_elem row cursor tbl :
  row ∈ rows_upto cursor tbl <-> row ∈ tbl /\ h_num row <= cursor.
Proof.
  unfold rows_upto. rewrite !list_elem_of_In, filter_In, Z.leb_le. reflexivity.
Qed.

Lemma head_rows_upto cursor tbl row :
  row ∈ tbl -> h_num row = cursor -> head_of (rows_upto cursor tbl) = cursor.
Proof.
  intros Hin Hnum.
  assert (row ∈ rows_upto cursor tbl) as Hrow by (apply rows_upto_elem; split; [auto|lia]).
  unfold head_of. destruct (max_num_upper _ _ Hrow) as (m & Hm & Hle). rewrite Hm.
  destruct (max_num_attained _ _ Hm) as (top & Htop & <-).
  apply rows_upto_elem in Htop as [_ ?]. lia.
Qed.

Lemma delete_rows_upto cursor tbl :
  delete_block cursor (rows_upto cursor tbl) = rows_upto (cursor - 1) tbl.
Proof.
  unfold delete_block, rows_upto. induction tbl as [|r tbl IH]; [reflexivity|].
  cbn [List.filter].
  destruct (Z.leb_spec (h_num r) cursor), (Z.leb_spec (h_num r) (cursor - 1));
    cbn [List.filter]; try lia.
  - destruct (Z.eqb_spec (h_num r) cursor); [lia|]. cbn [negb]. f_equal. exact IH.
  - destruct (Z.eqb_spec (h_num r) cursor); [|lia]. cbn [negb]. exact IH.
  - exact IH.
Qed.

Lemma rows_upto_head tbl : rows_upto (head_of tbl) tbl = tbl.
Proof.
  assert (forall c, Forall (fun r => h_num r <= c) tbl -> rows_upto c tbl = tbl) as H.
  { intros c. unfold rows_upto. induction 1 as [|r l Hr _ IH]; [reflexivity|].
    cbn [List.filter]. destruct (Z.leb_spec (h_num r) c); [|lia]. f_equal. exact IH. }
  apply H, Forall_forall. intros r Hr. apply head_of_upper, Hr.
Qed.

(** What the walk back collects: the rows at the numbers counted down
    from where it starts to just above where it stops. *)
Lemma walk_back_collects hive_head tbl n : forall cursor to_pop s,
  (Z.to_nat (25 - (hive_head - cursor)) <= n)%nat ->
  hive_blocks s = tbl ->
  wp (walk_back ext hive_head cursor to_pop) (fun _ => True)
     (fun r s' =>
        forall cursor' to_pop', r = Ok (cursor', to_pop') ->
          cursor' <= cursor
          /\ (exists row, row ∈ tbl /\ h_num row = cursor')
          /\ exists popped,
               to_pop' = to_pop ++ popped
               /\ map h_num popped = descending cursor (Z.to_nat (cursor - cursor'))
               /\ Forall (fun row => row ∈ tbl) popped) s.
Proof.
  induction n as [|n IH]; intros cursor to_pop s Hn Htbl;
    rewrite walk_back_step; destruct (Z_lt_dec (hive_head - cursor) 25) as [Hlt|Hge];
    try (apply wp_raise; discriminate); [lia|].
  unfold _get.
  wp_steps; try solve [exact I|discriminate].
  all: match goal with H : select_block _ _ = Some _ |- _ =>
         rewrite Htbl in H; pose proof (select_block_num _ _ _ H) as [Hnum Hin] end.
  - intros c' tp' [= <- <-]. split; [lia|]. split; [eauto|].
    exists []. rewrite app_nil_r, Z.sub_diag. repeat split. constructor.
  - eapply wp_conseq; [apply IH; [lia|wp_simpl; exact Htbl]|].
    cbn beta. intros r s' H c' tp' Hr.
    destruct (H c' tp' Hr) as (Hle & Hrow & popped & -> & Hnums & Hall).
    split; [lia|]. split; [exact Hrow|].
    exists (h :: popped). rewrite <- app_assoc. split; [reflexivity|].
    split; [|constructor; assumption].
    replace (Z.to_nat (cursor - c')) with (S (Z.to_nat (cursor - 1 - c'))) by lia.
    cbn [map descending]. rewrite Hnum, Hnums. reflexivity.
Qed.

(** [_pop] on rows numbered down from the head to just above [cursor]:
    the assertion holds at every row, and what is left of the table are
    its rows up to [cursor]. *)
Lemma _pop_descending tbl cursor to_pop s :
  db_answers ext ->
  map h_num to_pop = descending (cursor + len to_pop) (length to_pop) ->
  Forall (fun row => row ∈ tbl) to_pop ->
  hive_blocks s = rows_upto (cursor + len to_pop) tbl ->
  wp (_pop ext to_pop) (fun _ => True)
     (fun r s' => r = Ok tt /\ hive_blocks s' = rows_upto cursor tbl) s.
Proof.
  intros Hdb Hnums Hall Htbl. unfold _pop, for_each.
  wp_step. wp_step; [exact I|]. wp_step.
  eapply wp_conseq.
  { apply (wp_for_fold_rest _ _
             (fun rest (_ : unit) s' =>
                map h_num rest = descending (cursor + len rest) (length rest)
                /\ Forall (fun row => row ∈ tbl) rest
                /\ hive_blocks s' = rows_upto (cursor + len rest) tbl)
             (fun r s' =>
                match r with
                | Ok _ => hive_blocks s' = rows_upto cursor tbl
                | Raise _ => False
                end)); [| |repeat split; assumption].
    - intros x rest [] s0 (Hn & Ha & Ht).
      cbn [map length descending] in Hn. injection Hn as Hx Hn.
      apply Forall_cons in Ha as [Hin Ha].
      assert (len (x :: rest) = len rest + 1) as Hlen
        by (unfold len; cbn [length]; lia).
      rewrite Hlen in Hx, Hn, Ht. rewrite <- Hx in Ht.
      assert (head_of (hive_blocks s0) = h_num x) as Hhead
        by (rewrite Ht; apply (head_rows_upto _ _ x); auto).
      unfold head_num.
      repeat first
        [ progress wp_simpl
        | apply wp_call_ext; [exact I|intros [?|?] ? ?]
        | wp_step ].
      all: try exact I.
      all: try (exfalso;
                match goal with
                | H : ext _ (DB_query ?q ?p) ?w = (Raise _, _) |- _ =>
                    let Hc := fresh in
                    destruct (Hdb q p w) as [Hc _]; rewrite H in Hc; discriminate Hc
                | H : ext _ (DB_query_col ?q ?p) ?w = (Raise _, _) |- _ =>
                    let Hc := fresh in
                    destruct (Hdb q p w) as [_ Hc]; rewrite H in Hc; discriminate Hc
                end).
      all: try match goal with
               | H : (_ =? _) = false |- _ =>
                   fold (head_of (hive_blocks s0)) in H;
                   rewrite Hhead, Z.eqb_refl in H; discriminate H
               end.
      all: split; [rewrite Hn; f_equal; lia|split; [exact Ha|]].
      all: rewrite Ht, delete_rows_upto; f_equal; lia.
    - intros [] s0 (_ & _ & Ht). cbn in Ht. rewrite Z.add_0_r in Ht. exact Ht. }
  cbn beta. intros [[]|e] s' Hs'; [|destruct Hs'].
  wp_steps; auto.
Qed.

Lemma descending_length hi k : length (descending hi k) = k.
Proof. revert hi. induction k as [|k IH]; intros hi; cbn; [reflexivity|]. f_equal. apply IH. Qed.

(** X11. Fork recovery succeeds and is exact: when the walk back of
    [verify_head] stops at [cursor], upstream's last irreversible block
    is above [cursor] and the statements of [_pop] are answered, then
    [verify_head] returns (the assertion "can only pop head block" holds
    at every popped block), the table holds exactly the rows it had up
    to [cursor], and [cursor] is the new head. *)
Theorem verify_head_recovers s cursor to_pop fork_limit :
  let o := verify_head ext s in
  let hive_head := head_of (hive_blocks s) in
  let walk := walk_back ext hive_head hive_head [] s in
  db_answers ext ->
  hive_head <> 0 ->
  res walk = Ok (cursor, to_pop) ->
  (ext Z steem_last_irreversible (world (post walk))).1 = Ok fork_limit ->
  cursor < fork_limit ->
  res o = Ok tt
  /\ hive_blocks (post o) = rows_upto cursor (hive_blocks s)
  /\ head_of (hive_blocks (post o)) = cursor.
Proof.
  cbv zeta. intros Hdb Hne Hres Hlib Hlt.
  pose proof (verify_head_trace ext s) as H. cbv zeta in H. unfold wpt in H.
  destruct (walk_back_facts ext s) as [_ Htbl]. cbv zeta in Htbl.
  destruct (walk_back_collects (head_of (hive_blocks s)) (hive_blocks s) (Z.to_nat 25)
              (head_of (hive_blocks s)) [] s ltac:(lia) eq_refl) as [_ Hwalk].
  destruct (Hwalk _ _ Hres) as (Hle & (row & Hrow & Hnum) & popped & -> & Hnums & Hall).
  cbn [app] in *.
  apply Z.eqb_neq in Hne. rewrite Hne, Hres in H.
  assert (head_of (rows_upto cursor (hive_blocks s)) = cursor) as Hhead
    by (apply (head_rows_upto _ _ row); assumption).
  destruct (head_of (hive_blocks s) =? cursor) eqn:Ec.
  - apply Z.eqb_eq in Ec. destruct H as (-> & -> & _).
    rewrite Htbl. rewrite <- Ec. rewrite rows_upto_head. repeat split.
  - rewrite Hlib in H. apply Z.ltb_lt in Hlt. rewrite Hlt in H.
    destruct H as (-> & -> & _).
    assert (len popped = head_of (hive_blocks s) - cursor) as Hlen.
    { unfold len. rewrite <- (length_map h_num), Hnums, descending_length. lia. }
    destruct (_pop_descending (hive_blocks s) cursor popped
                (set_world
                   (ext Z steem_last_irreversible
                      (world (post (walk_back ext (head_of (hive_blocks s))
                                      (head_of (hive_blocks s)) [] s)))).2
                   (post (walk_back ext (head_of (hive_blocks s))
                            (head_of (hive_blocks s)) [] s)))
                Hdb) as (_ & Hr & Hpost).
    + rewrite Hnums. f_equal; [lia|].
      rewrite <- (length_map h_num popped), Hnums, descending_length. reflexivity.
    + exact Hall.
    + wp_simpl. rewrite Htbl. replace (cursor + len popped) with (head_of (hive_blocks s)) by lia.
      symmetry. apply rows_upto_head.
    + rewrite Hr, Hpost. repeat split. exact Hhead.
Qed.

End Recovery.

(** The micro-fork again: head 1000, last common block 998. *)
Lemma verify_head_recovers_witness :
  res (verify_head (upstream 998 1000) head_1000) = Ok tt
  /\ hive_blocks (post (verify_head (upstream 998 1000) head_1000))
     = rows_upto 998 (hive_blocks head_1000)
  /\ head_of (hive_blocks (post (verify_head (upstream 998 1000) head_1000))) = 998.
Proof.
  apply (verify_head_recovers (upstream 998 1000) head_1000 998
           (map (fun num => header_of num (local_hash num)) [1000; 999]) 1000).
  - intros sql param w. split; reflexivity.
  - vm_compute. discriminate.
  - vm_compute. reflexivity.
  - vm_compute. reflexivity.
  - lia.
Defined.

(** ** The cached head date and the table *)

Section Restart.

Context {W : Type} (ext : forall R, extE R -> W -> result R * W).
Context (py_repr : json -> string).

Lemma process_each_dates blocks vops is_initial_sync : forall last_num s,
  wp (process_each ext py_repr blocks vops is_initial_sync last_num)
     (fun _ => True)
     (fun r s' =>
        forall num, r = Ok (num, None) ->
          _head_block_date s'
          = match last blocks with
            | Some block => Some (timestamp block)
            | None => _head_block_date s
            end) s.
Proof.
  induction blocks as [|block blocks IH]; intros last_num s; cbn [process_each].
  - apply wp_ret. reflexivity.
  - apply wp_bind, wp_try.
    eapply wp_conseq; [eapply wp_events; [apply _process_dates|auto]|]. cbn beta.
    intros [num|e] s' Hs'.
    + eapply wp_conseq; [apply IH|]. cbn beta. intros r s'' H n Hr.
      rewrite (H n Hr), (Hs' num eq_refl).
      destruct blocks as [|b blocks]; [reflexivity|].
      change (last (block :: b :: blocks)) with (last (b :: blocks)).
      destruct (last (b :: blocks)) eqn:E; [reflexivity|].
      apply last_None in E. discriminate E.
    + apply wp_ret. discriminate.
Qed.

Lemma process_multi_date blocks vops is_initial_sync s :
  let each := process_each ext py_repr blocks vops is_initial_sync 0 s in
  wp (process_multi ext py_repr blocks vops is_initial_sync) (fun _ => True)
     (fun r s' => forall stats, r = Ok stats ->
                    _head_block_date s' = _head_block_date (post each)
                    /\ exists num, res each = Ok (num, None)) s.
Proof.
  cbv zeta. unfold process_multi, _flush_blocks.
  wp_step. wp_step; [exact I|]. wp_simpl. wp_step.
  split; [apply Forall_forall; auto|].
  destruct (res (process_each _ _ _ _ _ _ _)) as [[num [e|]]|e] eqn:Hres.
  - wp_steps; try exact I; discriminate.
  - wp_steps; try exact I; try discriminate.
    intros stats _. split; [reflexivity|eauto].
  - discriminate.
Qed.

Lemma head_date_run (s : state W) :
  head_date s
  = Out (Ok match max_num (hive_blocks s) with
            | Some n =>
                match select_block n (hive_blocks s) with
                | Some r => h_date r
                | None => ""
                end
            | None => ""
            end) s [Query SELECT_head_date].
Proof. reflexivity. Qed.

Lemma max_num_is tbl row :
  row ∈ tbl -> (forall r, r ∈ tbl -> h_num r <= h_num row) ->
  max_num tbl = Some (h_num row).
Proof.
  intros Hin Hmax. destruct (max_num_upper _ _ Hin) as (m & Hm & Hle).
  destruct (max_num_attained _ _ Hm) as (top & Htop & <-).
  rewrite Hm. f_equal. specialize (Hmax _ Htop). lia.
Qed.

Lemma select_block_last tbl row :
  (forall r, r ∈ tbl -> h_num r < h_num row) ->
  select_block (h_num row) (tbl ++ [row]) = Some row.
Proof.
  unfold select_block. induction tbl as [|r tbl IH]; intros Hlt; cbn [app List.find].
  - rewrite Z.eqb_refl. reflexivity.
  - destruct (Z.eqb_spec (h_num r) (h_num row)) as [E|_].
    + specialize (Hlt r ltac:(left)). lia.
    + apply IH. intros r' Hr'. apply Hlt. right. exact Hr'.
Qed.

Lemma staged_rows blocks row :
  row ∈ flat_map staged blocks ->
  exists block, block ∈ blocks /\ block_num block = Ok (h_num row).
Proof.
  induction blocks as [|b blocks IH]; cbn [flat_map]; [inversion 1|].
  intros [Hin|Hin]%elem_of_app.
  - exists b. split; [left|]. unfold staged, stage in Hin. unfold block_num.
    destruct (int16 _) as [num|]; cbn in Hin; [|inversion Hin].
    apply list_elem_of_singleton in Hin as ->. reflexivity.
  - destruct (IH Hin) as (block & ? & ?). exists block. split; [right|]; assumption.
Qed.

(** X12. After a batch that [process_multi] has committed and whose last
    block carries the highest number, table and cache agree:
    [head_num()] is that number, [head_date()] is the block's timestamp,
    which is also the cached class attribute [_head_block_date]; an
    instance made then by [Blocks()] gets from [__init__] an attribute
    [_head_block_date] of the same value, and the class attributes and
    the table stay as they are. *)
Theorem head_date_cache_agrees blocks block vops is_initial_sync s stats num :
  res (process_multi ext py_repr (blocks ++ [block]) vops is_initial_sync s)
  = Ok stats ->
  block_num block = Ok num ->
  (forall row, row ∈ hive_blocks s ++ blocks_to_flush s -> h_num row < num) ->
  (forall b n, b ∈ blocks -> block_num b = Ok n -> n < num) ->
  timestamp block <> "" ->
  let s' := post (process_multi ext py_repr (blocks ++ [block]) vops
                    is_initial_sync s) in
  res (head_num s') = Ok num
  /\ res (head_date s') = Ok (timestamp block)
  /\ _head_block_date s' = Some (timestamp block)
  /\ res (__init__ s') = Ok (_head_block_date s')
  /\ post (__init__ s') = s'.
Proof.
  intros Hres Hnum Hold Hnew Hdate. cbv zeta.
  pose proof (process_multi_trace ext py_repr (blocks ++ [block]) vops is_initial_sync s)
    as H.
  cbv zeta in H. unfold wpt in H.
  destruct (process_multi_date (blocks ++ [block]) vops is_initial_sync s) as [_ Hd].
  destruct (Hd stats Hres) as (Hd' & n & Heach). clear Hd.
  destruct (process_each_frame ext py_repr (blocks ++ [block]) vops is_initial_sync 0 s)
    as (_ & Htbl & _).
  destruct (process_each_buffer ext py_repr (blocks ++ [block]) vops is_initial_sync 0 s)
    as [_ Hbuf].
  destruct (process_each_dates (blocks ++ [block]) vops is_initial_sync 0 s)
    as [_ Hlast].
  rewrite Heach in H, Hbuf. specialize (Hlast n Heach). rewrite last_snoc in Hlast.
  destruct (H stats Hres) as (_ & Hpost & _). destruct Hbuf as [Hbuf _].
  rewrite Htbl, Hbuf in Hpost. rewrite flat_map_app in Hpost. cbn [flat_map] in Hpost.
  destruct (staged_ok _ _ Hnum) as (h & Hst & Hh & Hstaged).
  rewrite Hstaged, app_nil_r, !app_assoc in Hpost.
  set (o := process_multi ext py_repr (blocks ++ [block]) vops is_initial_sync s) in *.
  assert (h_date h = timestamp block) as Hhd.
  { unfold stage in Hst. destruct (int16 _); cbn in Hst; [|discriminate].
    injection Hst as <-. reflexivity. }
  assert (forall r, r ∈ (hive_blocks s ++ blocks_to_flush s) ++ flat_map staged blocks ->
                    h_num r < h_num h) as Hlt.
  { intros r [Hr|Hr]%elem_of_app; rewrite Hh; [apply Hold, Hr|].
    destruct (staged_rows _ _ Hr) as (b & Hb & Hbn). eapply Hnew; eassumption. }
  assert (max_num (hive_blocks (post o)) = Some num) as Hmax.
  { rewrite Hpost, <- Hh. apply max_num_is.
    - apply elem_of_app. right. left.
    - intros r [Hr|Hr]%elem_of_app; [specialize (Hlt r Hr); lia|].
      apply list_elem_of_singleton in Hr as ->. lia. }
  assert (select_block num (hive_blocks (post o)) = Some h) as Hsel.
  { rewrite Hpost, <- Hh. apply select_block_last, Hlt. }
  assert (_head_block_date (post o) = Some (timestamp block)) as Hcache
    by (rewrite Hd'; exact Hlast).
  assert (head_date (post o)
          = Out (Ok (timestamp block)) (post o) [Query SELECT_head_date]) as Hrun.
  { rewrite head_date_run, Hmax, Hsel, Hhd. reflexivity. }
  split; [rewrite head_num_run; unfold head_of; rewrite Hmax; reflexivity|].
  split; [rewrite Hrun; reflexivity|]. split; [exact Hcache|].
  unfold __init__. rewrite bind_run, Hrun. cbn [res post evs].
  destruct (String.eqb_spec (timestamp block) "") as [E|_]; [contradiction|].
  cbn. rewrite Hcache. split; reflexivity.
Qed.

End Restart.

Lemma head_date_cache_agrees_witness :
  let s' := post (process_multi quiet no_repr ([block_1] ++ [block_2]) ∅ true fresh) in
  res (head_num s') = Ok 2
  /\ res (head_date s') = Ok (timestamp block_2)
  /\ _head_block_date s' = Some (timestamp block_2)
  /\ res (__init__ s') = Ok (_head_block_date s')
  /\ post (__init__ s') = s'.
Proof.
  eapply (head_date_cache_agrees quiet no_repr [block_1] block_2 ∅ true fresh _ 2).
  - vm_compute. reflexivity.
  - vm_compute. reflexivity.
  - intros row Hrow. inversion Hrow.
  - intros b n Hb Hn. apply list_elem_of_singleton in Hb as ->.
    vm_compute in Hn. injection Hn as <-. lia.
  - discriminate.
Defined.

(** ** Range planning *)

Ltac plan_cases :=
  repeat match goal with
         | |- context [match ?x with _ => _ end] =>
             match type of x with
             | option Z => destruct x
             | bool => destruct x eqn:?
             end
         | H : context [match ?x with _ => _ end] |- _ =>
             match type of x with
             | option Z => destruct x
             | bool => destruct x eqn:?
             end
         end.

(** X13. A round of the planning never raises: where [run] compares,
    subtracts or takes the minimum of bounds and limits, none of them is
    [None]. *)
Theorem run_round_returns self last_imported_block next_block :
  is_ok (run_round self last_imported_block next_block) = true.
Proof.
  destruct self as [T L lb0 ub0 mocks], next_block as [[l|] [u|]].
  all: unfold run_round, massive_limit, test_cap, truthy, py_lt, py_gt, py_ge, py_sub,
         py_min; cbn.
  all: destruct T as [T|], L as [L|]; cbn.
  all: repeat match goal with
         | |- context [if ?b then _ else _] => destruct b eqn:?; cbn
         end; try reflexivity.
  all: exfalso; rewrite ?andb_false_r, ?andb_true_r in *; cbn in *; congruence.
Qed.

Ltac plan_run :=
  unfold run_round, massive_limit, test_cap, truthy, py_lt, py_gt, py_ge, py_sub,
    py_min; cbn;
  repeat match goal with
         | |- context [if ?b then _ else _] => destruct b eqn:?; cbn
         end.

Ltac plan_arith :=
  repeat match goal with
         | H : negb _ = true |- _ => apply negb_true_iff in H
         | H : negb _ = false |- _ => apply negb_false_iff in H
         | H : _ && _ = true |- _ => apply andb_true_iff in H as [? ?]
         | H : _ && _ = false |- _ => apply andb_false_iff in H as [?|?]
         | H : (_ =? _) = true |- _ => apply Z.eqb_eq in H
         | H : (_ =? _) = false |- _ => apply Z.eqb_neq in H
         | H : (_ <? _) = true |- _ => apply Z.ltb_lt in H
         | H : (_ <? _) = false |- _ => apply Z.ltb_ge in H
         | H : (_ >? _) = true |- _ => apply Z.gtb_lt in H
         | H : (_ >? _) = false |- _ => rewrite Z.gtb_ltb in H; apply Z.ltb_ge in H
         | H : (_ >=? _) = true |- _ => rewrite Z.geb_leb in H; apply Z.leb_le in H
         | H : (_ >=? _) = false |- _ => rewrite Z.geb_leb in H; apply Z.leb_gt in H
         | H : Some _ = Some _ |- _ => injection H as H
         | H : context [if ?b then _ else _] |- _ =>
             destruct b eqn:?; try discriminate H
         end.

(** X14. The massive mode is entered only with two bounds that are more
    than 100 apart.  With [test_max_block] set, the head is below it and
    the upper bound is at most it.  With [test_last_block_for_massive]
    set and a full range offered, the lower bound is the one offered, it
    is at most that limit, and if it is below the limit the upper bound
    is at most the limit too. *)
Theorem run_round_massive self last_imported_block next_block lbound ubound self' :
  run_round self last_imported_block next_block = Ok (MASSIVE lbound ubound, self') ->
  exists l u,
    lbound = Some l /\ ubound = Some u /\ u - l > 100
    /\ (forall T, _last_block_to_process self = Some T -> T <> 0 ->
          last_imported_block < T /\ u <= T)
    /\ (forall L, _last_block_for_massive_sync self = Some L -> L <> 0 ->
          truthy next_block.1 = true -> truthy next_block.2 = true ->
          next_block.1 = Some l /\ l <= L /\ (l < L -> u <= L)).
Proof.
  destruct self as [T L lb0 ub0 mocks], next_block as [[l|] [u|]].
  all: destruct T as [T|], L as [L|].
  all: plan_run; intros [= <- <- <-]; try discriminate.
  all: eexists _, _; split; [reflexivity|]; split; [reflexivity|].
  all: cbn [_last_block_to_process _last_block_for_massive_sync fst snd truthy].
  all: plan_arith; subst.
  all: split; [lia|]; split.
  all: try (intros ? [= <-] ?); try (intros ? [=] ?).
  all: try (intros; discriminate).
  all: intros; plan_arith; repeat split; try reflexivity; try lia.
Qed.

(** X15. With [test_max_block] set, a round returns from [run] exactly
    when the head has reached it; otherwise the upper bound it leaves is
    at most [test_max_block], and when no lower bound is offered the
    range is made up from the head to [test_max_block] and
    [_were_mocks_after_db_blocks] is set. *)
Theorem run_round_test_cap self last_imported_block next_block T r self' :
  _last_block_to_process self = Some T -> T <> 0 ->
  run_round self last_imported_block next_block = Ok (r, self') ->
  (r = RETURN <-> T <= last_imported_block)
  /\ (r <> RETURN ->
      (exists u, _ubound self' = Some u /\ u <= T)
      /\ (truthy next_block.1 = false ->
          _lbound self' = Some (last_imported_block + 1)
          /\ _ubound self' = Some T
          /\ _were_mocks_after_db_blocks self' = true)).
Proof.
  destruct self as [T0 L lb0 ub0 mocks], next_block as [[l|] [u|]].
  all: cbn [_last_block_to_process]; intros [= ->] HT.
  all: destruct L as [L|].
  all: plan_run; intros [= <- <-]; try discriminate.
  all: cbn [_ubound _lbound _were_mocks_after_db_blocks set_ubound set_lbound
            set_were_mocks fst snd truthy].
  all: plan_arith; subst.
  all: try (exfalso; lia).
  all: split; [split; [try discriminate; intros; lia|intros; try reflexivity; lia]|].
  all: intros Hr; try (destruct Hr; reflexivity).
  all: split; [eexists; split; [reflexivity|lia]|].
  all: intros; plan_arith; try discriminate; try lia; try contradiction.
  all: repeat split; reflexivity.
Qed.

Lemma run_round_massive_witness :
  exists l u,
    Some 1 = Some l /\ Some 500 = Some u /\ u - l > 100
    /\ (forall T, Some 1000 = Some T -> T <> 0 -> 0 < T /\ u <= T)
    /\ (forall L, Some 500 = Some L -> L <> 0 ->
          truthy (Some 1) = true -> truthy (Some 800) = true ->
          Some 1 = Some l /\ l <= L /\ (l < L -> u <= L)).
Proof.
  apply (run_round_massive test_plan 0 (Some 1, Some 800) (Some 1) (Some 500)
           (set_ubound (Some 500) (set_lbound (Some 1) test_plan))).
  vm_compute. reflexivity.
Defined.

Lemma run_round_test_cap_witness :
  let self' :=
    set_were_mocks true (set_ubound (Some 1000) (set_lbound (Some 1) test_plan)) in
  (MASSIVE (Some 1) (Some 1000) = RETURN <-> 1000 <= 0)
  /\ (MASSIVE (Some 1) (Some 1000) <> RETURN ->
      (exists u, _ubound self' = Some u /\ u <= 1000)
      /\ (truthy (@None Z, @None Z).1 = false ->
          _lbound self' = Some (0 + 1)
          /\ _ubound self' = Some 1000
          /\ _were_mocks_after_db_blocks self' = true)).
Proof.
  apply (run_round_test_cap test_plan 0 (None, None) 1000
           (MASSIVE (Some 1) (Some 1000))
           (set_were_mocks true (set_ubound (Some 1000) (set_lbound (Some 1) test_plan))));
    [reflexivity|discriminate|vm_compute; reflexivity].
Defined.

(** ** Periodic actions *)

Lemma _periodic_actions_period block_num :
  _periodic_actions (block_num + 1200) = _periodic_actions block_num.
Proof.
  unfold _periodic_actions.
  replace ((block_num + 1200) mod 1200) with (block_num mod 1200)
    by (rewrite <- (Z.mod_add block_num 1 1200) by lia; f_equal; lia).
  replace ((block_num + 1200) mod 200) with (block_num mod 200)
    by (rewrite <- (Z.mod_add block_num 6 200) by lia; f_equal; lia).
  reflexivity.
Qed.

Lemma started_shift action lo n :
  0 <= n ->
  _periodic_actions (lo + n) = _periodic_actions lo ->
  started action (lo + 1) n = started action lo n.
Proof.
  intros Hn Hper. unfold started.
  assert (seqZ lo (n + 1) = lo :: seqZ (lo + 1) n) as Hcons.
  { rewrite seqZ_cons by lia. do 2 f_equal; lia. }
  assert (seqZ lo (n + 1) = seqZ lo n ++ [lo + n]) as Hsnoc.
  { rewrite seqZ_app by lia. cbn. reflexivity. }
  pose proof (f_equal (fun l => count_occ periodic_eq_dec
                                  (concat (map _periodic_actions l)) action)
                (eq_trans (eq_sym Hcons) Hsnoc)) as H.
  cbn beta in H. rewrite map_app, concat_app in H. cbn [map concat] in H.
  rewrite ?app_nil_r in H. rewrite !count_occ_app, Hper in H. lia.
Qed.

(** X16. Over any 1200 consecutive block numbers [_periodic_actions]
    starts [PayoutStats.generate] once, [Mentions.refresh] once, and
    [update_communities_posts_and_rank] five times, not six: on a
    multiple of 1200 the [elif] of the multiples of 200 is not reached. *)
Theorem periodic_actions_per_hour lo :
  started PayoutStats_generate lo 1200 = 1%nat
  /\ started Mentions_refresh lo 1200 = 1%nat
  /\ started update_communities_posts_and_rank lo 1200 = 5%nat.
Proof.
  assert (forall action, started action lo 1200 = started action 0 1200) as H.
  { intros action. pattern lo. apply Z.bi_induction.
    - intros x y ->. reflexivity.
    - reflexivity.
    - intros n. unfold Z.succ.
      rewrite (started_shift action n 1200 ltac:(lia) (_periodic_actions_period n)).
      reflexivity. }
  rewrite !H. repeat split; vm_compute; reflexivity.
Qed.

(** ** The consumer of massive sync *)

Section SyncLogic.

Context {B T V Q : Type} (sext : forall R, syncE B T R -> V -> result R * V).
Context (step : Q -> sync_event B T -> Q -> Prop).
Implicit Types (f : frame V) (q : Q).

Lemma sync_bind_run {A A'} (m : Sync B T V A) (k : A -> Sync B T V A') f :
  (m ≫= k) f
  = match outcome (m f) with
    | Ok a => Ran (outcome (k a (left_in (m f)))) (left_in (k a (left_in (m f))))
                  (did (m f) ++ did (k a (left_in (m f))))
    | Raise e => Ran (Raise e) (left_in (m f)) (did (m f))
    end.
Proof. reflexivity. Qed.

Lemma sync_call_run {R} (c : syncE B T R) f :
  sync_call sext c f
  = Ran (sext R c (sync_world f)).1 (Frame (rate f) (sext R c (sync_world f)).2)
        [Did c (sext R c (sync_world f)).1].
Proof. unfold sync_call. destruct (sext R c (sync_world f)); reflexivity. Qed.

Lemma swpa_bind {A A'} (m : Sync B T V A) (k : A -> Sync B T V A') P f q :
  swpa m step (fun r f' q' =>
                 match r with
                 | Ok a => swpa (k a) step P f' q'
                 | Raise e => P (Raise e) f' q'
                 end) f q ->
  swpa (m ≫= k) step P f q.
Proof.
  intros (q1 & Hacc & H). unfold swpa. rewrite sync_bind_run.
  destruct (outcome (m f)) as [a|e]; cbn [did outcome left_in].
  - destruct H as (q2 & Hacc' & H). exists q2. split; [|exact H].
    eapply accepts_app; eassumption.
  - exists q1. auto.
Qed.

Lemma swpa_conseq {A} (m : Sync B T V A) (P P' : result A -> frame V -> Q -> Prop) f q :
  swpa m step P f q -> (forall r f' q', P r f' q' -> P' r f' q') -> swpa m step P' f q.
Proof. intros (q' & ? & ?) HP. exists q'. auto. Qed.

Lemma swpa_ret {A} (a : A) (P : result A -> frame V -> Q -> Prop) f q :
  P (Ok a) f q -> swpa (mret a) step P f q.
Proof. intros H. exists q. split; [reflexivity|exact H]. Qed.

Lemma swpa_raise {A} e (P : result A -> frame V -> Q -> Prop) f q :
  P (Raise e) f q -> swpa (sync_raise e) step P f q.
Proof. intros H. exists q. split; [reflexivity|exact H]. Qed.

Lemma swpa_lift {A} (r : result A) (P : result A -> frame V -> Q -> Prop) f q :
  P r f q -> swpa (sync_lift r) step P f q.
Proof. intros H. exists q. split; [reflexivity|exact H]. Qed.

Lemma swpa_get_rate (P : result json -> frame V -> Q -> Prop) f q :
  P (Ok (rate f)) f q -> swpa get_rate step P f q.
Proof. intros H. exists q. split; [reflexivity|exact H]. Qed.

Lemma swpa_set_rate v (P : result unit -> frame V -> Q -> Prop) f q :
  P (Ok tt) (Frame v (sync_world f)) q -> swpa (set_rate v) step P f q.
Proof. intros H. exists q. split; [reflexivity|exact H]. Qed.

Lemma swpa_assert b (P : result unit -> frame V -> Q -> Prop) f q :
  (b = true -> P (Ok tt) f q) ->
  (b = false -> P (Raise (AssertionError "")) f q) ->
  swpa (sync_assert b) step P f q.
Proof.
  intros Ht Hf. exists q. destruct b; (split; [reflexivity|auto]).
Qed.

Lemma swpa_log_exception msg (P : result unit -> frame V -> Q -> Prop) f q q1 :
  step q (Log_exception msg) q1 -> P (Ok tt) f q1 ->
  swpa (log_exception msg) step P f q.
Proof.
  intros Hs H. exists q1. split; [exists q1; split; [exact Hs|reflexivity]|exact H].
Qed.

Lemma swpa_call {R} (c : syncE B T R) (P : result R -> frame V -> Q -> Prop) f q :
  (forall r w, sext R c (sync_world f) = (r, w) ->
     exists q1, step q (Did c r) q1 /\ P r (Frame (rate f) w) q1) ->
  swpa (sync_call sext c) step P f q.
Proof.
  intros H. unfold swpa. rewrite sync_call_run. cbn [did outcome left_in].
  destruct (H _ _ (surjective_pairing _)) as (q1 & Hs & HP).
  exists q1. split; [exists q1; split; [exact Hs|reflexivity]|exact HP].
Qed.

Lemma swpa_try {A} (m : Sync B T V A) (P : result (result A) -> frame V -> Q -> Prop) f q :
  swpa m step (fun r f' q' => P (Ok r) f' q') f q -> swpa (sync_try m) step P f q.
Proof. intros H. exact H. Qed.

End SyncLogic.

Ltac swpa_step :=
  lazymatch goal with
  | |- swpa (_ ≫= _) _ _ _ _ => apply swpa_bind
  | |- swpa (mret _) _ _ _ _ => apply swpa_ret
  | |- swpa (sync_raise _) _ _ _ _ => apply swpa_raise
  | |- swpa (sync_lift ?r) _ _ _ _ => apply swpa_lift; destruct r eqn:?
  | |- swpa get_rate _ _ _ _ => apply swpa_get_rate
  | |- swpa (set_rate _) _ _ _ _ => apply swpa_set_rate
  | |- swpa (sync_assert _) _ _ _ _ => apply swpa_assert; intros ?
  | |- swpa (sync_try _) _ _ _ _ => apply swpa_try
  | |- swpa (if ?b then _ else _) _ _ _ _ => destruct b eqn:?
  | |- swpa (match ?x with _ => _ end) _ _ _ _ => destruct x eqn:?
  end.

(** ** The consumer of massive sync: batches, latch, failure *)

Section ConsumerFacts.

Context {B T V : Type} (sext : forall R, syncE B T R -> V -> result R * V).
Context (longer_than_1s : T -> T -> bool).

Ltac within_event :=
  unfold within; cbn [requested processed_batch broadcast];
  repeat match goal with
         | H : (_ =? _) = true |- _ => apply Z.eqb_eq in H
         end;
  unfold LIMIT_FOR_PROCESSED_BLOCKS in *;
  split; [|split]; intros ? [=]; subst; lia.

Lemma consume_within lbound0 ubound is_debug is_massive_sync n :
  forall lbound num f,
    (Z.to_nat (ubound - lbound + 1) <= n)%nat ->
    lbound0 <= lbound ->
    swpa (consume sext longer_than_1s is_debug is_massive_sync ubound lbound num)
         (fun (_ : unit) e _ => within lbound0 ubound e)
         (fun _ _ _ => True) f tt.
Proof.
  induction n as [|n IH]; intros lbound num f Hn Hlo;
    rewrite consume_equation_1; destruct (Z_le_dec lbound ubound) as [Hle|Hgt];
    unfold consume_unfold_clause_1; try (apply swpa_ret; exact I); [lia|].
  repeat first
    [ apply swpa_call; intros [?|?] ? _; exists tt; (split; [within_event|])
    | swpa_step
    | apply IH; unfold LIMIT_FOR_PROCESSED_BLOCKS; lia ].
  all: exact I.
Qed.


Lemma accepts_forall {E Q} (P : E -> Prop) (q q' : Q) t :
  accepts (fun _ e _ => P e) q t q' -> Forall P t.
Proof.
  revert q. induction t as [|e t IH]; intros q; cbn; [constructor|].
  intros (q1 & He & H). constructor; [exact He|]. eapply IH, H.
Qed.

(** X17. Whatever the collaborators answer, [_block_consumer] asks the
    provider for between 1 and 1000 blocks at a time and never for more
    than the range holds, hands [Blocks.process_multi] batches of
    between 1 and 1000 blocks, and broadcasts only block numbers above
    [lbound] and at most [ubound + 1]. *)
Theorem block_consumer_within is_massive_sync lbound ubound f :
  Forall (within lbound ubound)
         (did (_block_consumer sext longer_than_1s is_massive_sync lbound ubound f)).
Proof.
  enough (swpa (_block_consumer sext longer_than_1s is_massive_sync lbound ubound)
               (fun (_ : unit) e _ => within lbound ubound e)
               (fun _ _ _ => True) f tt) as (q' & H & _)
    by (eapply accepts_forall, H).
  unfold _block_consumer, print_summary.
  repeat first
    [ apply swpa_call; intros [?|?] ? _; exists tt; (split; [within_event|])
    | eapply swpa_log_exception with (q1 := tt); [within_event|]
    | eapply swpa_conseq;
      [apply (consume_within lbound ubound _ _ (Z.to_nat (ubound - lbound + 1)));
       lia|intros [?|?] ? [] _]
    | swpa_step ].
  all: exact I.
Qed.

Lemma batch_sizes_step count :
  1 <= count ->
  batch_sizes count
  = Z.min LIMIT_FOR_PROCESSED_BLOCKS count
    :: batch_sizes (count - Z.min LIMIT_FOR_PROCESSED_BLOCKS count).
Proof.
  intros Hc. unfold batch_sizes, LIMIT_FOR_PROCESSED_BLOCKS.
  destruct (Z_le_gt_dec count 1000) as [Hle|Hgt].
  - rewrite Z.min_r by lia. rewrite Z.sub_diag. cbn [Z.div Z.modulo Z.div_eucl Z.to_nat replicate app Z.eqb].
    destruct (Z.eq_dec count 1000) as [->|Hne]; [reflexivity|].
    rewrite Z.div_small, Z.mod_small by lia. cbn [Z.to_nat replicate app].
    destruct (Z.eqb_spec count 0); [lia|reflexivity].
  - rewrite Z.min_l by lia.
    assert (count / 1000 = (count - 1000) / 1000 + 1) as Hq
      by (rewrite <- Z.div_add by lia; f_equal; lia).
    assert (count mod 1000 = (count - 1000) mod 1000) as Hm
      by (rewrite <- (Z.mod_add (count - 1000) 1 1000) by lia; f_equal; lia).
    rewrite Hq, Hm.
    replace (Z.to_nat ((count - 1000) / 1000 + 1))
      with (S (Z.to_nat ((count - 1000) / 1000)))
      by (pose proof (Z.div_pos (count - 1000) 1000); lia).
    reflexivity.
Qed.

Lemma len_cons {A} (x : A) l : len (x :: l) = 1 + len l.
Proof. unfold len. cbn [length]. lia. Qed.

Ltac answered Hok :=
  lazymatch goal with
  | |- swpa (sync_call _ ?c) _ _ ?f _ =>
      let r := fresh "r" in
      let w := fresh "w" in
      let Hext := fresh "Hext" in
      let H := fresh in
      apply swpa_call; intros r w Hext;
      pose proof (Hok _ c (sync_world f)) as H; rewrite Hext in H; cbn [fst] in H;
      destruct r; [clear H|discriminate H];
      eexists;
      (split;
       [unfold tally; cbn [requested processed_batch fst snd];
        rewrite ?app_nil_r; reflexivity|])
  end.

Lemma consume_batches ubound is_debug is_massive_sync n :
  cooperative sext ->
  forall lbound num f rq pr,
    (Z.to_nat (ubound - lbound + 1) <= n)%nat ->
    printable (rate f) ->
    swpa (consume sext longer_than_1s is_debug is_massive_sync ubound lbound num)
         tally
         (fun r f' q' =>
            let sizes := batch_sizes (Z.max 0 (ubound - lbound + 1)) in
            r = Ok (num + len sizes)
            /\ q' = (rq ++ sizes, pr ++ sizes)
            /\ printable (rate f')) f (rq, pr).
Proof.
  intros (Hok & Hgo & Hget & Hrate).
  induction n as [|n IH]; intros lbound num f rq pr Hn Hpr;
    rewrite consume_equation_1; destruct (Z_le_dec lbound ubound) as [Hle|Hgt];
    unfold consume_unfold_clause_1; try lia.
  1,3: apply swpa_ret; cbv zeta; rewrite Z.max_l by lia;
    change (batch_sizes 0) with (@nil Z); rewrite !app_nil_r, Z.add_0_r; auto.
  repeat first
    [ answered Hok;
      try match goal with
          | H : sext _ can_continue_thread ?w0 = (Ok ?a, _) |- _ =>
              let H' := fresh in
              pose proof (Hgo w0) as H'; rewrite H in H'; cbn [fst] in H';
              injection H' as ->; clear H; cbn [negb]
          | H : sext _ (provider_get ?k) ?w0 = (Ok ?a, _) |- _ =>
              let H' := fresh "Hlen" in
              assert (len a = k) as H'
                by (apply (Hget k w0);
                    [unfold LIMIT_FOR_PROCESSED_BLOCKS; lia|rewrite H; reflexivity]);
              clear H
          | H : sext _ (minmax ?r0 ?k ?el ?lb) ?w0 = (Ok ?a, _) |- _ =>
              let H' := fresh "Hprintable" in
              assert (printable a) as H'
                by (apply (Hrate r0 k el lb w0); rewrite H; reflexivity);
              clear H
          | H : sext _ _ _ = _ |- _ => clear H
          end
    | swpa_step ].
  all: try (exfalso;
            match goal with
            | H : (len _ =? _) = false |- _ =>
                rewrite Hlen, Z.eqb_refl in H; discriminate H
            | H : last _ = None |- _ =>
                apply last_None in H; subst; unfold len, LIMIT_FOR_PROCESSED_BLOCKS in Hlen;
                cbn [length] in Hlen; lia
            end).
  all: eapply swpa_conseq;
    [apply IH; [unfold LIMIT_FOR_PROCESSED_BLOCKS; lia|cbn [rate]; exact Hprintable]|].
  all: cbv zeta; intros r f' q' (-> & -> & Hp).
  all: rewrite (Z.max_r 0 (ubound - lbound + 1)) by lia.
  all: rewrite (batch_sizes_step (ubound - lbound + 1)) by lia.
  all: replace (0 `max` (ubound
                         - (lbound + LIMIT_FOR_PROCESSED_BLOCKS `min` (ubound - lbound + 1))
                             `min` (ubound + 1) + 1))
         with (ubound - lbound + 1
               - LIMIT_FOR_PROCESSED_BLOCKS `min` (ubound - lbound + 1))
         by (unfold LIMIT_FOR_PROCESSED_BLOCKS; lia).
  all: rewrite Hlen, len_cons, <- !app_assoc; cbn [app].
  all: split; [f_equal; lia|split; [reflexivity|exact Hp]].
Qed.


Lemma accepts_tally (t : list (sync_event B T)) : forall rq pr q',
  accepts tally (rq, pr) t q' ->
  q' = (rq ++ omap requested t, pr ++ map len (omap processed_batch t)).
Proof.
  induction t as [|e t IH]; intros rq pr q'; cbn [accepts].
  - intros <-. cbn. rewrite !app_nil_r. reflexivity.
  - intros (q1 & -> & H). apply IH in H as ->. cbn [fst snd omap list_omap].
    destruct (requested e), (processed_batch e); cbn [map];
      rewrite <- ?app_assoc, ?app_nil_r; reflexivity.
Qed.

Lemma sum_app l1 l2 : sum (l1 ++ l2) = sum l1 + sum l2.
Proof. unfold sum. induction l1 as [|x l1 IH]; cbn; [reflexivity|]. rewrite IH. lia. Qed.

Lemma sum_replicate k x : sum (replicate k x) = Z.of_nat k * x.
Proof. unfold sum. induction k as [|k IH]; cbn [replicate foldr]; [reflexivity|]. rewrite IH. lia. Qed.

Lemma batch_sizes_sum count : 0 <= count -> sum (batch_sizes count) = count.
Proof.
  intros Hc. unfold batch_sizes, LIMIT_FOR_PROCESSED_BLOCKS.
  rewrite sum_app, sum_replicate.
  pose proof (Z.div_mod count 1000 ltac:(lia)) as Hdm.
  pose proof (Z.div_pos count 1000 Hc ltac:(lia)).
  rewrite Z2Nat.id by assumption.
  destruct (Z.eqb_spec (count mod 1000) 0) as [E|E]; unfold sum; cbn [foldr]; lia.
Qed.

(** X18. With collaborators that cooperate, [_block_consumer] returns
    the number of batches that cover the range: it asks for full batches
    of 1000 and then for the rest, processes batches of exactly these
    sizes, and their sizes add up to the number of blocks of the range
    (none when [ubound < lbound]). *)
Theorem block_consumer_batches is_massive_sync lbound ubound f :
  cooperative sext ->
  let run := _block_consumer sext longer_than_1s is_massive_sync lbound ubound f in
  let sizes := batch_sizes (Z.max 0 (ubound - lbound + 1)) in
  outcome run = Ok (len sizes)
  /\ omap requested (did run) = sizes
  /\ map len (omap processed_batch (did run)) = sizes
  /\ sum sizes = Z.max 0 (ubound - lbound + 1).
Proof.
  intros Hcoop. cbv zeta.
  enough (swpa (_block_consumer sext longer_than_1s is_massive_sync lbound ubound)
               tally
               (fun r _ q' =>
                  let sizes := batch_sizes (Z.max 0 (ubound - lbound + 1)) in
                  r = Ok (len sizes) /\ q' = (sizes, sizes)) f ([], []))
    as (q' & Hacc & Hr & ->).
  { apply accepts_tally in Hacc. cbn [app] in Hacc. injection Hacc as H1 H2.
    split; [exact Hr|]. split; [congruence|]. split; [congruence|].
    apply batch_sizes_sum. lia. }
  pose proof Hcoop as (Hok & Hgo & Hget & Hrate).
  unfold _block_consumer, print_summary.
  assert (printable (JDict [])) as Hempty by (intros [=]).
  repeat first
    [ answered Hok;
      try match goal with
          | H : sext _ (minmax ?r0 ?k ?el ?lb) ?w0 = (Ok ?a, _) |- _ =>
              let H' := fresh "Hprintable" in
              assert (printable a) as H'
                by (apply (Hrate r0 k el lb w0); rewrite H; reflexivity);
              clear H
          | H : sext _ _ _ = _ |- _ => clear H
          end
    | eapply swpa_conseq;
      [apply (consume_batches ubound _ _ (Z.to_nat (ubound - lbound + 1)) Hcoop
                lbound 0 _ [] []); [lia|cbn [rate]; assumption]
      |cbv zeta; cbn [app]; intros ? ? ? (-> & -> & ?)]
    | swpa_step ].
  all: cbn [rate sync_world] in *.
  all: try (exfalso;
            match goal with
            | Hp : printable ?r, Ht : json_truthy ?r = true,
              Hs : subscript ?r ?k = Raise _ |- _ =>
                let Hk := fresh in
                assert (is_ok (subscript r k) = true) as Hk
                  by (apply (Hp Ht);
                      repeat first [apply list_elem_of_here|apply list_elem_of_further]);
                rewrite Hs in Hk; discriminate Hk
            end).
  all: rewrite Z.add_0_l; split; reflexivity.
Qed.

Ltac latched_call :=
  lazymatch goal with
  | |- swpa (sync_call _ can_continue_thread) _ _ _ _ =>
      apply swpa_call; intros [[|]|?] ? _
  | |- swpa (sync_call _ _) _ _ _ _ =>
      apply swpa_call; intros [?|?] ? _
  end;
  eexists;
  (split;
   [unfold latched;
    cbn [works latch_set requested processed_batch fst snd orb negb];
    rewrite ?Z.add_0_r, ?orb_false_r;
    split; [first [reflexivity|intros [=]]|reflexivity]|]).

Lemma consume_latched ubound is_debug is_massive_sync n :
  forall lbound num f k,
    (Z.to_nat (ubound - lbound + 1) <= n)%nat ->
    swpa (consume sext longer_than_1s is_debug is_massive_sync ubound lbound num)
         latched
         (fun r _ q' => forall num', r = Ok num' -> num' - q'.2 = num - k)
         f (false, k).
Proof.
  induction n as [|n IH]; intros lbound num f k Hn;
    rewrite consume_equation_1; destruct (Z_le_dec lbound ubound) as [Hle|Hgt];
    unfold consume_unfold_clause_1; try lia.
  1,3: apply swpa_ret; intros ? [= <-]; reflexivity.
  repeat first
    [ latched_call
    | progress cbn [negb]
    | eapply swpa_conseq;
      [apply IH; unfold LIMIT_FOR_PROCESSED_BLOCKS; lia
      |intros ? ? [? ?] Hq ? Hr; specialize (Hq _ Hr); cbn [snd] in *; lia]
    | swpa_step ].
  all: intros ? [=]; subst; cbn [snd]; lia.
Qed.

Lemma accepts_latched (t : list (sync_event B T)) : forall s k q',
  accepts latched (s, k) t q' ->
  q'.2 = k + len (omap processed_batch t)
  /\ (s = true -> Forall (fun e => works e = false) t)
  /\ (forall pre e post, t = pre ++ e :: post -> latch_set e = true ->
        Forall (fun e' => works e' = false) post).
Proof.
  induction t as [|e t IH]; intros s k q'; cbn [accepts].
  - intros <-. cbn. split; [unfold len; cbn; lia|]. split; [constructor|].
    intros [|? ?] ? ? [=].
  - intros (q1 & [Hw ->] & H). cbn [fst snd] in *.
    destruct (IH _ _ _ H) as (Hk & Hs & Hpost). split; [|split].
    + rewrite Hk. cbn [omap list_omap]. destruct (processed_batch e).
      * rewrite len_cons. lia.
      * lia.
    + intros ->. constructor.
      * destruct (works e); [discriminate (Hw eq_refl)|reflexivity].
      * apply Hs. reflexivity.
    + intros [|e0 pre] e' post [= <- Ht] Hl.
      * subst t. apply Hs. rewrite Hl. apply orb_true_r.
      * eapply Hpost; eassumption.
Qed.

Lemma _block_consumer_latched is_massive_sync lbound ubound f :
  swpa (_block_consumer sext longer_than_1s is_massive_sync lbound ubound)
       latched
       (fun r _ q' => forall num, r = Ok num -> num = q'.2) f (false, 0).
Proof.
  unfold _block_consumer, print_summary.
  repeat first
    [ latched_call
    | eapply swpa_log_exception;
      [unfold latched; cbn [works latch_set requested processed_batch fst snd];
       rewrite ?Z.add_0_r, ?orb_false_r; split; [intros [=]|reflexivity]|]
    | eapply swpa_conseq;
      [apply (consume_latched ubound _ _ (Z.to_nat (ubound - lbound + 1))); lia
      |intros [?|?] ? [? ?] Hq; cbn [snd] in Hq]
    | swpa_step ].
  all: intros ? [=]; subst; cbn [snd]; specialize (Hq _ eq_refl); lia.
Qed.

(** X19. Once [can_continue_thread()] has answered [False],
    [_block_consumer] asks the provider for nothing more and hands no
    further batch to [Blocks.process_multi]. *)
Theorem block_consumer_latch is_massive_sync lbound ubound f pre e post :
  did (_block_consumer sext longer_than_1s is_massive_sync lbound ubound f)
  = pre ++ e :: post ->
  latch_set e = true ->
  Forall (fun e' => works e' = false) post.
Proof.
  destruct (_block_consumer_latched is_massive_sync lbound ubound f) as (q' & Hacc & _).
  apply accepts_latched in Hacc as (_ & _ & H). apply H.
Qed.

(** X20. When [_block_consumer] returns, the number it returns is the
    number of batches it has handed to [Blocks.process_multi]. *)
Theorem block_consumer_counts is_massive_sync lbound ubound f num :
  outcome (_block_consumer sext longer_than_1s is_massive_sync lbound ubound f)
  = Ok num ->
  num = len (omap processed_batch
               (did (_block_consumer sext longer_than_1s is_massive_sync lbound
                       ubound f))).
Proof.
  intros Hres.
  destruct (_block_consumer_latched is_massive_sync lbound ubound f) as (q' & Hacc & H).
  apply accepts_latched in Hacc as (Hk & _). rewrite (H num Hres), Hk. lia.
Qed.

Ltac failing_call :=
  lazymatch goal with
  | |- swpa (sync_call _ _) _ _ _ _ =>
      apply swpa_call; intros [?|?] ? _
  end;
  eexists;
  (split;
   [unfold failing;
    cbn [batch_failed is_log_exception is_set_exception_thrown is_ok negb];
    first [reflexivity|split; reflexivity]|]).

Lemma consume_failing ubound is_debug is_massive_sync n :
  forall lbound num f,
    (Z.to_nat (ubound - lbound + 1) <= n)%nat ->
    swpa (consume sext longer_than_1s is_debug is_massive_sync ubound lbound num)
         failing
         (fun r _ q' => q' = 0%nat \/ (q' = 1%nat /\ is_ok r = false))
         f 0%nat.
Proof.
  induction n as [|n IH]; intros lbound num f Hn;
    rewrite consume_equation_1; destruct (Z_le_dec lbound ubound) as [Hle|Hgt];
    unfold consume_unfold_clause_1; try lia.
  1,3: apply swpa_ret; left; reflexivity.
  repeat first
    [ failing_call
    | apply IH; unfold LIMIT_FOR_PROCESSED_BLOCKS; lia
    | swpa_step ].
  all: first [left; reflexivity|right; split; reflexivity].
Qed.

Lemma _block_consumer_failing is_massive_sync lbound ubound f :
  swpa (_block_consumer sext longer_than_1s is_massive_sync lbound ubound)
       failing
       (fun r _ q' => q' = 0%nat \/ (q' = 3%nat /\ is_ok r = false)) f 0%nat.
Proof.
  unfold _block_consumer, print_summary.
  repeat first
    [ failing_call
    | eapply swpa_log_exception;
      [unfold failing; cbn [batch_failed is_log_exception];
       first [reflexivity|split; reflexivity]|]
    | eapply swpa_conseq;
      [apply (consume_failing ubound _ _ (Z.to_nat (ubound - lbound + 1))); lia
      |intros [?|?] ? ? [->|[-> Hr]]; try discriminate Hr]
    | swpa_step ].
  all: first [left; reflexivity|right; split; reflexivity].
Qed.

Lemma accepts_failing_from_3 (t : list (sync_event B T)) q' :
  accepts failing 3%nat t q' -> q' = 3%nat.
Proof.
  induction t as [|e t IH]; cbn [accepts]; [intros <-; reflexivity|].
  intros (q1 & [_ ->] & H). apply IH, H.
Qed.

Lemma accepts_failing (t : list (sync_event B T)) : forall q q' pre e post,
  accepts failing q t q' ->
  t = pre ++ e :: post ->
  batch_failed e = true ->
  q' <> 1%nat -> q' <> 2%nat ->
  exists e1 e2 post',
    post = e1 :: e2 :: post'
    /\ is_log_exception e1 = true /\ is_set_exception_thrown e2 = true
    /\ q' = 3%nat.
Proof.
  induction t as [|e0 t IH]; intros q q' pre e post Hacc Ht He H1 H2.
  - destruct pre; discriminate Ht.
  - cbn [accepts] in Hacc. destruct Hacc as (q1 & Hs & Hacc).
    destruct pre as [|e' pre]; cbn [app] in Ht; injection Ht as -> ->.
    + assert (q = 0%nat /\ q1 = 1%nat) as [-> ->].
      { destruct q as [|[|[|q]]]; cbn [failing] in Hs.
        - rewrite He in Hs. auto.
        - destruct Hs as [Hl _]. destruct e as [? c ?|]; [discriminate Hl|discriminate He].
        - destruct Hs as [Hl _]. destruct e as [? c ?|]; [|discriminate He].
          destruct c; discriminate.
        - destruct Hs as [Hf _]. congruence. }
      destruct post as [|e1 post]; cbn [accepts] in Hacc; [congruence|].
      destruct Hacc as (q2 & [Hl ->] & Hacc).
      destruct post as [|e2 post]; cbn [accepts] in Hacc; [congruence|].
      destruct Hacc as (q3 & [Hsig ->] & Hacc).
      apply accepts_failing_from_3 in Hacc. eauto 10.
    + eapply IH; eauto.
Qed.

(** X21. When [Blocks.process_multi] raises, the next thing
    [_block_consumer] does is to write the line of [log.exception], the
    one after is [set_exception_thrown()], and the call does not
    return. *)
Theorem block_consumer_failure is_massive_sync lbound ubound f pre e post :
  did (_block_consumer sext longer_than_1s is_massive_sync lbound ubound f)
  = pre ++ e :: post ->
  batch_failed e = true ->
  exists e1 e2 post',
    post = e1 :: e2 :: post'
    /\ is_log_exception e1 = true /\ is_set_exception_thrown e2 = true
    /\ is_ok (outcome (_block_consumer sext longer_than_1s is_massive_sync lbound
                         ubound f)) = false.
Proof.
  intros Ht He.
  destruct (_block_consumer_failing is_massive_sync lbound ubound f) as (q' & Hacc & H).
  destruct (accepts_failing _ _ _ _ _ _ Hacc Ht He) as (e1 & e2 & post' & -> & ? & ? & ->).
  - destruct H as [->|[-> _]]; discriminate.
  - destruct H as [->|[-> _]]; discriminate.
  - destruct H as [[=]|[_ Hr]]. eauto 10.
Qed.

End ConsumerFacts.

Lemma answering_cooperative : cooperative (answering true (Ok tt)).
Proof.
  split; [|split; [|split]].
  - intros R c w. destruct c; reflexivity.
  - reflexivity.
  - intros n w blocks Hn [= <-]. unfold len. rewrite length_seqZ. lia.
  - intros rate n elapsed lbound w rate' [= <-] [=].
Qed.

Lemma block_consumer_batches_witness :
  let run := _block_consumer (answering true (Ok tt)) never_slow true 1 2500 idle in
  let sizes := batch_sizes (Z.max 0 (2500 - 1 + 1)) in
  outcome run = Ok (len sizes)
  /\ omap requested (did run) = sizes
  /\ map len (omap processed_batch (did run)) = sizes
  /\ sum sizes = Z.max 0 (2500 - 1 + 1).
Proof.
  apply (block_consumer_batches (answering true (Ok tt)) never_slow true 1 2500 idle).
  exact answering_cooperative.
Defined.

(** The latch is found set after the first request: the summary is all
    that follows. *)
Lemma block_consumer_latch_witness :
  Forall (fun e' : sync_event Z Z => works e' = false)
         [Did (OPSM_stop 0) (Ok 0);
          Did (WSM_log_global "Total waiting times") (Ok 0);
          Did (FSM_log_global "Total flush times") (Ok 0);
          Did (OPSM_log_global "All operations present in the processed blocks")
              (Ok 0)].
Proof.
  apply (block_consumer_latch (answering false (Ok tt)) never_slow true 1 10 idle
           [Did (log_isEnabledFor 10) (Ok false); Did OPSM_start (Ok 0);
            Did (minmax (JDict []) 0 literal_1 0) (Ok (JDict []));
            Did (Blocks_set_end_of_sync_lib 10) (Ok tt);
            Did (Timer 10) (Ok tt); Did perf (Ok 0);
            Did (provider_get 10) (Ok [1; 2; 3; 4; 5; 6; 7; 8; 9; 10])]
           (Did can_continue_thread (Ok false))).
  - vm_compute. reflexivity.
  - reflexivity.
Defined.

Lemma block_consumer_counts_witness :
  1 = len (omap processed_batch
             (did (_block_consumer (answering true (Ok tt)) never_slow true 1 5 idle))).
Proof.
  apply (block_consumer_counts (answering true (Ok tt)) never_slow true 1 5 idle 1).
  vm_compute. reflexivity.
Defined.

(** The batch driver fails on the first batch. *)
Lemma block_consumer_failure_witness :
  exists (e1 e2 : sync_event Z Z) post',
    [Log_exception "Exception caught during processing blocks...";
     Did set_exception_thrown (Ok tt); Did (OPSM_stop 0) (Ok 0);
     Did (WSM_log_global "Total waiting times") (Ok 0);
     Did (FSM_log_global "Total flush times") (Ok 0);
     Did (OPSM_log_global "All operations present in the processed blocks") (Ok 0)]
    = e1 :: e2 :: post'
    /\ is_log_exception e1 = true /\ is_set_exception_thrown e2 = true
    /\ is_ok (outcome (_block_consumer
                         (answering true (Raise (Failure "database error")))
                         never_slow true 1 3 idle)) = false.
Proof.
  apply (block_consumer_failure (answering true (Raise (Failure "database error")))
           never_slow true 1 3 idle
           [Did (log_isEnabledFor 10) (Ok false); Did OPSM_start (Ok 0);
            Did (minmax (JDict []) 0 literal_1 0) (Ok (JDict []));
            Did (Blocks_set_end_of_sync_lib 3) (Ok tt);
            Did (Timer 3) (Ok tt); Did perf (Ok 0);
            Did (provider_get 3) (Ok [1; 2; 3]);
            Did can_continue_thread (Ok true); Did timer_batch_start (Ok tt);
            Did perf (Ok 0)]
           (Did (Blocks_process_multi [1; 2; 3] true)
                (Raise (Failure "database error")))).
  - vm_compute. reflexivity.
  - reflexivity.
Defined.

(** ** [setup.py]: the revision is the hash without its prefix *)

(** X22. [get_git_revision(s)] is the global [GIT_REVISION] unless [s] is
    [g] followed by eight lower-case hexadecimal digits, and then it is
    these eight digits: [lstrip('g')] removes the prefix and nothing
    more, since no hexadecimal digit is a [g]. *)
Theorem get_git_revision_hex GIT_REVISION s :
  (is_git_sha s = false /\ get_git_revision GIT_REVISION s = GIT_REVISION)
  \/ (is_git_sha s = true
      /\ s = String "g" (get_git_revision GIT_REVISION s)
      /\ String.length (get_git_revision GIT_REVISION s) = 8%nat
      /\ all_chars is_lower_hex (get_git_revision GIT_REVISION s) = true).
Proof.
  unfold get_git_revision. destruct (is_git_sha s) eqn:E; [right|left; auto].
  destruct s as [|c rest]; [discriminate E|]. cbn [is_git_sha] in E.
  apply andb_true_iff in E as [E Hhex]. apply andb_true_iff in E as [Hc Hlen].
  apply Ascii.eqb_eq in Hc as ->. apply Nat.eqb_eq in Hlen.
  assert (lstrip "g" (String "g" rest) = rest) as ->.
  { cbn [lstrip]. rewrite Ascii.eqb_refl.
    destruct rest as [|d rest]; [reflexivity|]. cbn [lstrip].
    cbn [all_chars] in Hhex. apply andb_true_iff in Hhex as [Hd _].
    destruct (Ascii.eqb_spec d "g") as [->|_]; [discriminate Hd|reflexivity]. }
  auto.
Qed.
